(** * Virtual-Memory-Simulator: page tables, free-frame list, MMU and scheduler

    A shallow embedding of [src/include/types.h], [src/memory.c],
    [src/mmu.c], [src/sched.c], [src/process.c], the queue set-up of
    [src/ipc.c] and the initialisation block of [src/master.c], followed
    by the properties of the specification that were checked against it
    and by further properties of the code.

    Conventions of the embedding.
    - A C [int] is a [Z]; every [++], [--] and [+ 1] of the source goes
      through [CInt.wrap] (two's complement, 32 bits).
    - The two shared-memory regions are lists: SM1 is the flat array of
      [k * m] page-table entries, the ring of SM2 is the list [frames].
      A pointer is an index (a [Z]); a read or a write outside the region
      has no defined result in C and is [None] here.
    - Functions that print with [LOG] return the event they log.
    - Pointers that the source tests against NULL are attached regions
      here, so those tests are always false and are left out. *)

From Stdlib Require Import ZArith Lia.
From stdpp Require Import base tactics option list numbers.

#[local] Open Scope Z_scope.

(** ** C integers *)

Module CInt.

Definition INT_MIN : Z := - 2 ^ 31.
Definition INT_MAX : Z := 2 ^ 31 - 1.

Definition wrap (z : Z) : Z := (z - INT_MIN) `mod` 2 ^ 32 + INT_MIN.

(** [a % b] of C: truncated remainder, undefined for [b = 0]. *)
Definition c_mod (a b : Z) : option Z :=
  if b =? 0 then None else Some (Z.rem a b).

(** A C condition [if (x)]. *)
Definition truthy (x : Z) : bool := negb (x =? 0).

End CInt.

(** ** Regions of memory *)

Module Region.

Definition load {A} (mem : list A) (i : Z) : option A :=
  if i <? 0 then None else mem !! Z.to_nat i.

Definition store {A} (mem : list A) (i : Z) (x : A) : option (list A) :=
  if (0 <=? i) && (i <? Z.of_nat (length mem))
  then Some (<[Z.to_nat i := x]> mem)
  else None.

(** [for (i = start; ...; ++i) body], run [n] times. *)
Fixpoint for_loop {S} (n : nat) (i : Z) (body : Z → S → option S) (s : S)
  : option S :=
  match n with
  | O => Some s
  | Datatypes.S n' => s' ← body i s; for_loop n' (i + 1) body s'
  end.

(** [for (i = 0; i < n; ++i) body]. *)
Definition for_range {S} (n : Z) (body : Z → S → option S) (s : S) : option S :=
  for_loop (Z.to_nat n) 0 body s.

End Region.

(** ** types.h *)

Module Types.

Record pte_t := Pte {
  frame_no : Z;   (* >=0 if mapped, else -1 *)
  valid : Z;      (* 1 if in memory, 0 if not *)
  last_used : Z   (* global timestamp when last accessed *)
}.

Record free_frame_list_t := Ffl {
  total_frames : Z;
  count : Z;
  head : Z;
  tail : Z;
  frames : list Z
}.

Definition MMU_HIT_MIN : Z := 0.
Definition MMU_PAGE_FAULT : Z := -1.
Definition MMU_INVALID_PAGE : Z := -2.
Definition MMU_END_OF_REF : Z := -9.

Definition pt_base_for_pid (pid m : Z) : Z := pid * m.

Definition pte_addr (pid m page_no : Z) : Z := pt_base_for_pid pid m + page_no.

End Types.

(** ** ipc.h *)

Module Ipc.

Definition MSGTYPE_PROC_REQ : Z := 1.
Definition MSGTYPE_MMU_REPLY : Z := 2.
Definition MSGTYPE_SCHED_NOTIFY : Z := 3.

Record ipc_msg_t := Msg {
  mtype : Z;
  ints0 : Z;
  ints1 : Z;
  ints2 : Z;
  ints3 : Z
}.

(** The queue a message is sent on. *)
Inductive queue := MQ_READY | MQ_SCHED | MQ_PROC.

(** What one call of [ipc_recv_msg] gives: a failure with
    [errno == EINTR], any other failure, or a message of the requested
    type. *)
Inductive recv_result :=
| RecvIntr
| RecvFail
| RecvMsg (msg : ipc_msg_t).

(** *** ipc.c: the three queues of the simulator

    The system calls the wrappers make, each with the value the kernel
    returned for it. What the kernel returns is an input of the model. *)
Inductive syscall :=
| SysMsgget (key msgflg ret : Z)
| SysMsgctlRmid (mqid ret : Z).

Definition ipc_create_mq (key msgflg : Z) (ret : Z) : Z * list syscall :=
  (if ret =? -1 then -1 else ret, [SysMsgget key msgflg ret]).

Definition ipc_remove_mq (mqid : Z) (ret : Z) : Z * list syscall :=
  (if ret =? -1 then -1 else 0, [SysMsgctlRmid mqid ret]).

(** [ipc_create_vm_mqs]. [IPC_CREAT] is the constant of <sys/ipc.h>;
    [get key] is what [msgget] returns for [key] and [rm id] what
    [msgctl(id, IPC_RMID)] returns. The result is the return code, the
    array [mqids] and the calls made. *)
Definition ipc_create_vm_mqs (IPC_CREAT : Z)
    (ready_queue_key sched_mmu_key proc_mmu_key : Z) (mqids : Z * Z * Z)
    (perms : Z) (get rm : Z → Z) : Z * (Z * Z * Z) * list syscall :=
  let flags := Z.lor perms IPC_CREAT in
  let '(mq1, c1) := ipc_create_mq ready_queue_key flags (get ready_queue_key) in
  if mq1 =? -1 then (-1, mqids, c1)
  else
    let '(mq2, c2) := ipc_create_mq sched_mmu_key flags (get sched_mmu_key) in
    if mq2 =? -1 then
      let '(_, d1) := ipc_remove_mq mq1 (rm mq1) in
      (-1, mqids, c1 ++ c2 ++ d1)
    else
      let '(mq3, c3) := ipc_create_mq proc_mmu_key flags (get proc_mmu_key) in
      if mq3 =? -1 then
        let '(_, d1) := ipc_remove_mq mq1 (rm mq1) in
        let '(_, d2) := ipc_remove_mq mq2 (rm mq2) in
        (-1, mqids, c1 ++ c2 ++ c3 ++ d1 ++ d2)
      else (0, (mq1, mq2, mq3), c1 ++ c2 ++ c3).

Definition ipc_remove_vm_mqs (mqids : Z * Z * Z) (rm : Z → Z)
  : Z * list syscall :=
  let '(r0, d0) := ipc_remove_mq mqids.1.1 (rm mqids.1.1) in
  let rc := if r0 =? -1 then -1 else 0 in
  let '(r1, d1) := ipc_remove_mq mqids.1.2 (rm mqids.1.2) in
  let rc := if r1 =? -1 then -1 else rc in
  let '(r2, d2) := ipc_remove_mq mqids.2 (rm mqids.2) in
  let rc := if r2 =? -1 then -1 else rc in
  (rc, d0 ++ d1 ++ d2).

End Ipc.

(** ** memory.c *)

Module Memory.
Import CInt Region Types.

Definition pt_init_all (sm1 : list pte_t) (k m : Z) : option (Z * list pte_t) :=
  if (k <=? 0) || (m <=? 0) then Some (-1, sm1)
  else
    sm1' ← for_range (k * m)
             (λ i mem, store mem i (Pte (-1) 0 0)) sm1;
    Some (0, sm1').

Definition pt_set_mapping (sm1 : list pte_t) (pid m page_no frame ts : Z)
  : option (Z * list pte_t) :=
  if (pid <? 0) || (m <=? 0) || (page_no <? 0) || (page_no >=? m) || (frame <? 0)
  then Some (-1, sm1)
  else
    sm1' ← store sm1 (pte_addr pid m page_no) (Pte frame 1 ts);
    Some (0, sm1').

Definition pt_invalidate (sm1 : list pte_t) (pid m page_no : Z)
  : option (Z * list pte_t) :=
  if (pid <? 0) || (m <=? 0) || (page_no <? 0) || (page_no >=? m)
  then Some (-1, sm1)
  else
    pte ← load sm1 (pte_addr pid m page_no);
    sm1' ← store sm1 (pte_addr pid m page_no) (Pte (-1) 0 (last_used pte));
    Some (0, sm1').

Definition pt_touch (sm1 : list pte_t) (pid m page_no ts : Z)
  : option (Z * list pte_t) :=
  if (pid <? 0) || (m <=? 0) || (page_no <? 0) || (page_no >=? m)
  then Some (-1, sm1)
  else
    pte ← load sm1 (pte_addr pid m page_no);
    if negb (truthy (valid pte)) then Some (-1, sm1)
    else
      sm1' ← store sm1 (pte_addr pid m page_no)
               (Pte (frame_no pte) (valid pte) ts);
      Some (0, sm1').

Definition is_legal_page (page_no m_req_for_pid : Z) : Z :=
  if (page_no >=? 0) && (page_no <? m_req_for_pid) then 1 else 0.

Definition ffl_init (ffl : free_frame_list_t) (f : Z)
  : option (Z * free_frame_list_t) :=
  if f <=? 0 then Some (-1, ffl)
  else
    frames' ← for_range f (λ i fr, store fr i i) (frames ffl);
    tl ← c_mod f f;
    Some (0, Ffl f f 0 tl frames').

Definition ffl_alloc (ffl : free_frame_list_t) : option (Z * free_frame_list_t) :=
  if count ffl >? total_frames ffl then Some (-1, ffl)
  else
    idx ← load (frames ffl) (head ffl);
    hd ← c_mod (wrap (head ffl + 1)) (total_frames ffl);
    Some (idx, Ffl (total_frames ffl) (wrap (count ffl - 1)) hd (tail ffl)
                   (frames ffl)).

Definition ffl_free (ffl : free_frame_list_t) (frame_idx : Z)
  : option (Z * free_frame_list_t) :=
  if (frame_idx <? 0) || (frame_idx >=? total_frames ffl) then Some (-1, ffl)
  else if count ffl >=? total_frames ffl then Some (-1, ffl)
  else
    frames' ← store (frames ffl) (tail ffl) frame_idx;
    tl ← c_mod (wrap (tail ffl + 1)) (total_frames ffl);
    Some (0, Ffl (total_frames ffl) (wrap (count ffl + 1)) (head ffl) tl frames').

(** One iteration of the scan of [choose_lru_victim_local]; the loop
    state is [(victim, oldest_ts)]. *)
Definition lru_step (sm1 : list pte_t) (pid m : Z) (p : Z) (acc : Z * Z)
  : option (Z * Z) :=
  pte ← load sm1 (pt_base_for_pid pid m + p);
  if truthy (valid pte) then
    if (acc.1 =? -1) || (last_used pte <? acc.2)
    then Some (p, last_used pte)
    else Some acc
  else Some acc.

Definition choose_lru_victim_local (sm1 : list pte_t) (pid m : Z) : option Z :=
  if (pid <? 0) || (m <=? 0) then Some (-1)
  else
    acc ← for_range m (lru_step sm1 pid m) (-1, 0);
    Some acc.1.

End Memory.

(** ** mmu.c *)

Module Mmu.
Import CInt Region Types Ipc Memory.

(** The state the MMU works on: SM1, SM2 and the file-level counter
    [g_ts]. *)
Record engine := Engine {
  sm1 : list pte_t;
  ffl : free_frame_list_t;
  g_ts : Z
}.

(** The five [LOG] lines of [resolve_access], one per way out. *)
Inductive log_event :=
| LogIllegal (p_ind page_no limit : Z)
| LogHit (p_ind page_no frame ts : Z)
| LogAllocated (p_ind page_no frame ts : Z)
| LogNoVictim (p_ind : Z)
| LogEvicted (p_ind page_no victim_page frame ts : Z).

Record resolved := Resolved {
  result : Z;        (* the value returned *)
  pfh_out : Z;       (* the value left in [*pfh_out] *)
  logged : log_event;
  after : engine
}.

Definition send_proc_reply (pid res : Z) : queue * ipc_msg_t :=
  (MQ_PROC, Msg MSGTYPE_MMU_REPLY pid res 0 0).

Definition notify_scheduler (pid pfh_handled : Z) : queue * ipc_msg_t :=
  (MQ_SCHED, Msg MSGTYPE_SCHED_NOTIFY pid (if truthy pfh_handled then 1 else 0) 0 0).

Definition resolve_access (st : engine) (p_ind page_no m m_req_for_pid : Z)
  : option resolved :=
  if negb (truthy (is_legal_page page_no m_req_for_pid)) then
    Some (Resolved MMU_INVALID_PAGE 0
            (LogIllegal p_ind page_no m_req_for_pid) st)
  else
    pte ← load (sm1 st) (pte_addr p_ind m page_no);
    if valid pte >? 0 then
      let ts := wrap (g_ts st + 1) in
      sm1' ← store (sm1 st) (pte_addr p_ind m page_no)
               (Pte (frame_no pte) (valid pte) ts);
      Some (Resolved (frame_no pte) 0
              (LogHit p_ind page_no (frame_no pte) ts)
              (Engine sm1' (ffl st) ts))
    else
      '(frame, ffl') ← ffl_alloc (ffl st);
      if frame >=? 0 then
        let ts := wrap (g_ts st + 1) in
        '(_, sm1') ← pt_set_mapping (sm1 st) p_ind m page_no frame ts;
        Some (Resolved frame 1
                (LogAllocated p_ind page_no frame ts)
                (Engine sm1' ffl' ts))
      else
        victim_page ← choose_lru_victim_local (sm1 st) p_ind m;
        if victim_page <? 0 then
          Some (Resolved MMU_PAGE_FAULT 0 (LogNoVictim p_ind)
                  (Engine (sm1 st) ffl' (g_ts st)))
        else
          vpte ← load (sm1 st) (pte_addr p_ind m victim_page);
          let victim_frame := frame_no vpte in
          '(_, sm1') ← pt_invalidate (sm1 st) p_ind m victim_page;
          let ts := wrap (g_ts st + 1) in
          '(_, sm1'') ← pt_set_mapping sm1' p_ind m page_no victim_frame ts;
          Some (Resolved victim_frame 1
                  (LogEvicted p_ind page_no victim_page victim_frame ts)
                  (Engine sm1'' ffl' ts)).

(** The part of the loop body of [mmu_run] that serves a request which is
    not the end marker: resolve, reply, and notify when [pfh] is set. *)
Definition serve_request (st : engine) (p_ind page_no m m_req_for_pid : Z)
  : option (resolved * list (queue * ipc_msg_t)) :=
  r ← resolve_access st p_ind page_no m m_req_for_pid;
  Some (r, send_proc_reply p_ind (result r)
           :: (if truthy (pfh_out r) then [notify_scheduler p_ind 1] else [])).

(** How the [while (1)] of [mmu_run] stands after the messages given:
    left by the [break] after the end markers, left by the [break] after
    a failed receive, stopped inside [resolve_access] on an access outside
    the regions, or waiting in [ipc_recv_msg]. *)
Inductive loop_status := Exited | RecvFailed | Crashed | Blocked.

Record run := Run {
  status : loop_status;
  final : engine;
  completed : Z;                    (* procs_cmpltd *)
  sent : list (queue * ipc_msg_t);
  unread : list recv_result
}.

Definition emit (out : list (queue * ipc_msg_t)) (r : run) : run :=
  Run (status r) (final r) (completed r) (out ++ sent r) (unread r).

Fixpoint mmu_loop (k m : Z) (st : engine) (procs_cmpltd : Z)
    (inbox : list recv_result) : run :=
  match inbox with
  | [] => Run Blocked st procs_cmpltd [] []
  | RecvIntr :: rest => mmu_loop k m st procs_cmpltd rest
  | RecvFail :: rest => Run RecvFailed st procs_cmpltd [] rest
  | RecvMsg req :: rest =>
      let p_ind := ints0 req in
      let page_no := ints1 req in
      let m_req_for_pid := ints2 req in
      if page_no =? MMU_END_OF_REF then
        let out := [send_proc_reply p_ind MMU_END_OF_REF;
                    notify_scheduler p_ind 0] in
        let procs_cmpltd := wrap (procs_cmpltd + 1) in
        if procs_cmpltd >=? k then Run Exited st procs_cmpltd out rest
        else emit out (mmu_loop k m st procs_cmpltd rest)
      else
        match serve_request st p_ind page_no m m_req_for_pid with
        | None => Run Crashed st procs_cmpltd [] rest
        | Some (r, out) => emit out (mmu_loop k m (after r) procs_cmpltd rest)
        end
  end.

(** [mmu_run] once the regions and queues are attached: [procs_cmpltd]
    starts at 0. *)
Definition mmu_run (k m : Z) (st : engine) (inbox : list recv_result) : run :=
  mmu_loop k m st 0 inbox.

End Mmu.

(** ** sched.c *)

Module Sched.
Import CInt Types Ipc.

Inductive sched_log :=
| LogPicked (pid : Z)
| LogFaultHandled (from_pid : Z)
| LogFinished (pid : Z).

(** How the inner [for (;;)] stands after the notifications given. *)
Inductive wait_status := WaitFinished | WaitRecvFailed | WaitBlocked.

(** The inner loop of [scheduler_run], run for the process [pid] that was
    just sent SIGCONT. *)
Fixpoint wait_notes (pid : Z) (notes : list recv_result)
  : wait_status * list sched_log * list recv_result :=
  match notes with
  | [] => (WaitBlocked, [], [])
  | RecvIntr :: rest => wait_notes pid rest
  | RecvFail :: rest => (WaitRecvFailed, [], rest)
  | RecvMsg note :: rest =>
      let from_pid := ints0 note in
      let pfh := ints1 note in
      let l := if truthy pfh then [LogFaultHandled from_pid] else [] in
      if pfh =? 0 then (WaitFinished, l ++ [LogFinished pid], rest)
      else
        let '(s, l', rest') := wait_notes pid rest in
        (s, l ++ l', rest')
  end.

(** One receive on the ready queue, with the outcome of the [kill] that
    follows a registration. *)
Inductive ready_event :=
| ReadyIntr
| ReadyFail
| ReadyReg (reg : ipc_msg_t) (kill_ok : bool).

Inductive sched_status := AllFinished | ReadyFailed | Waiting.

Record sched_run := SchedRun {
  sched_state : sched_status;
  finished_count : Z;
  resumed : list Z;          (* pids sent SIGCONT, oldest first *)
  sched_logs : list sched_log
}.

Definition record (pid : option Z) (l : list sched_log) (r : sched_run)
  : sched_run :=
  SchedRun (sched_state r) (finished_count r)
           (option_list pid ++ resumed r) (l ++ sched_logs r).

Fixpoint scheduler_loop (num_procs finished : Z) (ready : list ready_event)
    (notes : list recv_result) : sched_run :=
  if finished <? num_procs then
    match ready with
    | [] => SchedRun Waiting finished [] []
    | ReadyIntr :: ready' => scheduler_loop num_procs finished ready' notes
    | ReadyFail :: _ => SchedRun ReadyFailed finished [] []
    | ReadyReg reg kill_ok :: ready' =>
        let pid := ints0 reg in
        if negb kill_ok then
          record None [LogPicked pid]
            (scheduler_loop num_procs finished ready' notes)
        else
          match wait_notes pid notes with
          | (WaitFinished, l, notes') =>
              record (Some pid) (LogPicked pid :: l)
                (scheduler_loop num_procs (wrap (finished + 1)) ready' notes')
          | (WaitRecvFailed, l, notes') =>
              record (Some pid) (LogPicked pid :: l)
                (scheduler_loop num_procs finished ready' notes')
          | (WaitBlocked, l, _) =>
              SchedRun Waiting finished [pid] (LogPicked pid :: l)
          end
    end
  else SchedRun AllFinished finished [] [].

Definition scheduler_run (num_procs : Z) (ready : list ready_event)
    (notes : list recv_result) : sched_run :=
  scheduler_loop num_procs 0 ready notes.

End Sched.

(** ** process.c *)

Module Process.
Import Types Ipc.

(** The request [process_run] sends for [ref_str[i] = page_no]: the third
    field is [ref_len]. *)
Definition access_request (p_ind page_no ref_len : Z) : ipc_msg_t :=
  Msg MSGTYPE_PROC_REQ p_ind page_no ref_len 0.

(** The end marker; its first field is the operating-system pid. *)
Definition end_request (pid : Z) : ipc_msg_t :=
  Msg MSGTYPE_PROC_REQ pid MMU_END_OF_REF (-1) 0.

(** The requests of a whole reference string, when no reply is
    [MMU_INVALID_PAGE]. *)
Definition requests (p_ind pid : Z) (ref_str : list Z) : list ipc_msg_t :=
  map (λ page_no, access_request p_ind page_no (Z.of_nat (length ref_str)))
      ref_str
  ++ [end_request pid].

(** *** [process_run]

    How [process_run] has ended, or where it waits: the registration
    could not be sent ([return 1]); [SIGCONT] has not come; a reply is
    awaited; the MMU answered [MMU_INVALID_PAGE] ([return 0] without an
    end marker); the end marker was sent ([return 0]). *)
Inductive proc_status :=
| ProcRegFailed
| ProcNotResumed
| ProcAwaitingReply
| ProcInvalid
| ProcDone.

(** The loop over the reference string, from index [i], with [n]
    references to go. [replies] are the results of the calls of
    [ipc_recv_msg], one per request; a failed call leaves the loop by
    [break], whatever [errno] is. The result of the sends is not looked at
    by the source. *)
Fixpoint request_loop (n : nat) (i : Z) (ref_len : Z) (ref_str : list Z)
    (p_ind pid : Z) (replies : list recv_result)
  : option (proc_status * list (queue * ipc_msg_t)) :=
  match n with
  | O => Some (ProcDone, [(MQ_PROC, end_request pid)])
  | S n' =>
      page_no ← Region.load ref_str i;
      let req := (MQ_PROC, access_request p_ind page_no ref_len) in
      match replies with
      | [] => Some (ProcAwaitingReply, [req])
      | RecvMsg reply :: replies' =>
          let result := ints1 reply in
          if result >=? 0 then
            '(s, out) ← request_loop n' (i + 1) ref_len ref_str p_ind pid replies';
            Some (s, req :: out)
          else if result =? MMU_INVALID_PAGE then Some (ProcInvalid, [req])
          else
            '(s, out) ← request_loop n' (i + 1) ref_len ref_str p_ind pid replies';
            Some (s, req :: out)
      | RecvIntr :: _ | RecvFail :: _ =>
          Some (ProcDone, [req; (MQ_PROC, end_request pid)])
      end
  end.

(** [process_run] once both queues are open. [reg_sent] tells whether
    the registration could be sent, [scheduled] whether [SIGCONT] has
    arrived. The result lists the messages put on the queues. *)
Definition process_run (ref_len : Z) (ref_str : list Z) (p_ind pid : Z)
    (reg_sent scheduled : bool) (replies : list recv_result)
  : option (proc_status * list (queue * ipc_msg_t)) :=
  let reg := (MQ_READY, Msg MSGTYPE_PROC_REQ pid 0 0 0) in
  if negb reg_sent then Some (ProcRegFailed, [])
  else if negb scheduled then Some (ProcNotResumed, [reg])
  else
    '(s, out) ← request_loop (Z.to_nat ref_len) 0 ref_len ref_str p_ind pid replies;
    Some (s, reg :: out).

End Process.

(** ** master.c: the initialisation block of [master_run] *)

Module Master.
Import CInt Region Types Memory Mmu.

(** A segment as [shmget] creates it: filled with zeros. *)
Definition fresh_sm1 (k m : Z) : list pte_t :=
  replicate (Z.to_nat (k * m)) (Pte 0 0 0).

Definition fresh_sm2 (f : Z) : free_frame_list_t :=
  Ffl 0 0 0 0 (replicate (Z.to_nat f) 0).

Definition master_init (sm1_base : list pte_t) (ffl : free_frame_list_t)
    (num_procs pgs_per_proc n_frms : Z)
  : option (list pte_t * free_frame_list_t) :=
  sm1' ← for_range (wrap (num_procs * pgs_per_proc))
           (λ i mem, store mem i (Pte (-1) (-1) (-1))) sm1_base;
  tl ← c_mod n_frms n_frms;
  frames' ← for_range n_frms (λ i fr, store fr i i) (frames ffl);
  Some (sm1', Ffl n_frms 0 0 tl frames').

(** The state the MMU finds when [master_run] spawns it. *)
Definition simulation_start (k m f : Z) : option engine :=
  '(sm1', ffl') ← master_init (fresh_sm1 k m) (fresh_sm2 f) k m f;
  Some (Engine sm1' ffl' 0).

(** The state [tools/memory_test.c] builds, with the two initialisers of
    memory.c. *)
Definition initialized (k m f : Z) : option engine :=
  '(_, sm1') ← pt_init_all (fresh_sm1 k m) k m;
  '(_, ffl') ← ffl_init (fresh_sm2 f) f;
  Some (Engine sm1' ffl' 0).

(** One reference of the string [master_run] draws for a process:
    [rand() % pgs_per_proc], where [r] is the value of [rand()]. *)
Definition gen_ref (r pgs_per_proc : Z) : option Z := c_mod r pgs_per_proc.

End Master.

(** ** The notions the properties are stated with *)

Module Observe.
Import CInt Region Types Ipc Memory Mmu.

(** The entry of page [p] of process [pid], as [pte_addr] finds it. *)
Definition lookup_pte (sm1 : list pte_t) (pid m p : Z) : option pte_t :=
  load sm1 (pte_addr pid m p).

(** The test [if (pt[p].valid)] of the selector. *)
Definition marked_valid (sm1 : list pte_t) (pid m p : Z) : Prop :=
  ∃ e, lookup_pte sm1 pid m p = Some e ∧ valid e ≠ 0.

Definition stamp (sm1 : list pte_t) (pid m p : Z) : Z :=
  from_option last_used 0 (lookup_pte sm1 pid m p).

(** [v] is the first page, in scan order, among the valid pages below
    [n] of [pid] with the smallest [last_used]. *)
Definition lru_victim_below (sm1 : list pte_t) (pid m n v : Z) : Prop :=
  0 ≤ v < n ∧ marked_valid sm1 pid m v ∧
  ∀ p, 0 ≤ p < n → marked_valid sm1 pid m p →
       stamp sm1 pid m v ≤ stamp sm1 pid m p ∧
       (p < v → stamp sm1 pid m v < stamp sm1 pid m p).

Definition lru_victim (sm1 : list pte_t) (pid m v : Z) : Prop :=
  lru_victim_below sm1 pid m m v.

(** What the scan of the selector has established after the pages below
    [i], as a property of its loop state [(victim, oldest_ts)]. *)
Definition scanned (sm1 : list pte_t) (pid m i : Z) (acc : Z * Z) : Prop :=
  (acc.1 = -1 ∧ ∀ p, 0 ≤ p < i → ¬ marked_valid sm1 pid m p) ∨
  (lru_victim_below sm1 pid m i acc.1 ∧ acc.2 = stamp sm1 pid m acc.1).

(** The table of the check in tools/memory_test.c, with the stamps of the
    specification's example: process 1 of 3, 8 pages, page 3 mapped at
    time 2 and page 5 at time 1. *)
Definition example_table : option (list pte_t) :=
  '(_, t0) ← pt_init_all (Master.fresh_sm1 3 8) 3 8;
  '(_, t1) ← pt_set_mapping t0 1 8 3 0 2;
  '(_, t2) ← pt_set_mapping t1 1 8 5 1 1;
  Some t2.

#[global] Instance queue_eq_dec : EqDecision queue.
Proof. solve_decision. Defined.

(** The messages of [out] that went to queue [q], in order. *)
Definition sent_on (q : queue) (out : list (queue * ipc_msg_t)) : list ipc_msg_t :=
  snd <$> filter (λ x, x.1 = q) out.

(** The ways out of [resolve_access] on which the fault was handled. *)
Definition fault_handled (l : log_event) : bool :=
  match l with
  | LogAllocated _ _ _ _ | LogEvicted _ _ _ _ _ => true
  | LogIllegal _ _ _ | LogHit _ _ _ _ | LogNoVictim _ => false
  end.

(** Regions of the sizes [master_run] creates for [k], [m] and [f], and a
    ring cursor inside the ring. *)
Record well_formed (k m f : Z) (st : engine) : Prop := WellFormed {
  wf_k : 0 < k;
  wf_m : 0 < m;
  wf_f : 0 < f ≤ INT_MAX;
  wf_sm1 : Z.of_nat (length (sm1 st)) = k * m;
  wf_total : total_frames (ffl st) = f;
  wf_frames : Z.of_nat (length (frames (ffl st))) = f;
  wf_head : 0 ≤ head (ffl st) < f
}.

(** The frames the free-frame list holds: the [count] slots of the ring
    from [head] on. *)
Definition pool_contents (pool : free_frame_list_t) : list Z :=
  (λ i, default (-1)
          (load (frames pool) ((head pool + i) `mod` total_frames pool)))
  <$> seqZ 0 (count pool).

(** The entries that are resident for the MMU (its test is [valid > 0]),
    and those among them that hold frame [fr]. *)
Definition resident (sm1 : list pte_t) : list pte_t :=
  filter (λ e, 0 < valid e) sm1.

Definition owners (sm1 : list pte_t) (fr : Z) : list pte_t :=
  filter (λ e, frame_no e = fr) (resident sm1).

Definition occurrences (fr : Z) (l : list Z) : nat :=
  length (filter (λ x, x = fr) l).

(** The invariant of the free-frame pool: [count] within [0, f], and
    every frame either once in the pool or owned by one resident entry. *)
Definition frames_invariant (f : Z) (st : engine) : Prop :=
  0 ≤ count (ffl st) ≤ f ∧
  ∀ fr, 0 ≤ fr < f →
    (occurrences fr (pool_contents (ffl st)) + length (owners (sm1 st) fr) = 1)%nat.

(** The resident pages of process [pid], each with its frame. *)
Definition resident_set (sm1 : list pte_t) (pid m : Z) : list (Z * Z) :=
  omap (λ p, match lookup_pte sm1 pid m p with
             | Some e => if valid e >? 0 then Some (p, frame_no e) else None
             | None => None
             end) (seqZ 0 m).

(** A received request that carries the end marker. *)
Definition is_end_marker (x : recv_result) : bool :=
  match x with
  | RecvMsg req => ints1 req =? MMU_END_OF_REF
  | RecvIntr | RecvFail => false
  end.

(** How many end markers a sequence of receives holds. *)
Definition end_markers (inbox : list recv_result) : Z :=
  Z.of_nat (length (filter (λ x, is_end_marker x = true) inbox)).

(** The processes that sent them, by the first field of the request, and
    how many different ones there are. *)
Definition end_marker_senders (inbox : list recv_result) : list Z :=
  omap (λ x, match x with
             | RecvMsg req =>
                 if ints1 req =? MMU_END_OF_REF then Some (ints0 req) else None
             | RecvIntr | RecvFail => None
             end) inbox.

Definition distinct_senders (inbox : list recv_result) : Z :=
  Z.of_nat (length (remove_dups (end_marker_senders inbox))).

(** The reading of the receive loop under which it is left only once [k]
    different processes have sent the end marker. *)
Definition exits_after_k_distinct (k m : Z) (st : engine)
    (inbox : list recv_result) : Prop :=
  status (mmu_run k m st inbox) = Exited → k ≤ distinct_senders inbox.

(** What the state [r] of the receive loop says about the receives
    [inbox] it was given, when it started with [procs_cmpltd = c]:
    - left after the end markers: the last receive read is an end marker,
      the one that brought the count to [k];
    - left after a failed receive: that failure is the last receive read;
    - stopped in [resolve_access]: on a request that is not an end marker;
    - waiting: everything was read;
    and in the last three cases fewer than [k] end markers were read. *)
Definition loop_outcome (k c : Z) (inbox : list recv_result) (r : run) : Prop :=
  match status r with
  | Exited =>
      ∃ pre req, inbox = pre ++ RecvMsg req :: unread r ∧
                 ints1 req = MMU_END_OF_REF ∧
                 c + end_markers pre = k - 1 ∧ completed r = k ∧
                 Forall (λ x, x ≠ RecvFail) pre
  | RecvFailed =>
      ∃ pre, inbox = pre ++ RecvFail :: unread r ∧
             completed r = c + end_markers pre ∧ completed r < k ∧
             Forall (λ x, x ≠ RecvFail) pre
  | Crashed =>
      ∃ pre req, inbox = pre ++ RecvMsg req :: unread r ∧
                 ints1 req ≠ MMU_END_OF_REF ∧
                 completed r = c + end_markers pre ∧ completed r < k ∧
                 Forall (λ x, x ≠ RecvFail) pre
  | Blocked =>
      unread r = [] ∧ completed r = c + end_markers inbox ∧ completed r < k ∧
      Forall (λ x, x ≠ RecvFail) inbox
  end.

(** A receive the inner loop of the scheduler passes over: an interrupted
    call, or a notification whose flag is set. *)
Definition passed_over (x : recv_result) : Prop :=
  match x with
  | RecvIntr => True
  | RecvFail => False
  | RecvMsg note => ints1 note ≠ 0
  end.

(** The reading of the scheduler under which the running process [pid] is
    marked finished only on a notification that names [pid] and has the
    flag clear. *)
Definition finishes_on_own_note (pid : Z) (notes : list recv_result) : Prop :=
  ∀ l rest, Sched.wait_notes pid notes = (Sched.WaitFinished, l, rest) →
    ∃ pre note, notes = pre ++ RecvMsg note :: rest ∧
                ints0 note = pid ∧ ints1 note = 0.

(** A ring in good order for [f] frames: cursors inside the ring, [count]
    within [0, f], and [tail] at [count] slots after [head]. *)
Definition ring_consistent (f : Z) (pool : free_frame_list_t) : Prop :=
  0 < f ≤ INT_MAX ∧ total_frames pool = f ∧
  Z.of_nat (length (frames pool)) = f ∧
  0 ≤ head pool < f ∧ 0 ≤ count pool ≤ f ∧
  tail pool = (head pool + count pool) `mod` f.

(** [n] calls of [ffl_alloc] in a row, with the frames they return. *)
Fixpoint alloc_many (n : nat) (pool : free_frame_list_t)
  : option (list Z * free_frame_list_t) :=
  match n with
  | O => Some ([], pool)
  | S n' =>
      '(fr, pool') ← ffl_alloc pool;
      '(frs, pool'') ← alloc_many n' pool';
      Some (fr :: frs, pool'')
  end.

(** Every slot of the ring and every entry that is resident for the MMU
    holds a frame number below [f]. *)
Definition frames_in_range (f : Z) (st : engine) : Prop :=
  Forall (λ x, 0 ≤ x < f) (frames (ffl st)) ∧
  Forall (λ e, 0 < valid e → 0 ≤ frame_no e < f) (sm1 st).

(** A request for a page of the table of a process of the run, legal
    under the bound it carries. *)
Definition in_table_request (k m : Z) (x : recv_result) : Prop :=
  match x with
  | RecvMsg req => 0 ≤ ints0 req < k ∧ 0 ≤ ints1 req < m ∧ ints1 req < ints2 req
  | RecvIntr | RecvFail => False
  end.

(** The notifications in [out] whose fault-handled flag is clear. *)
Definition flag_clear_notes (out : list (queue * ipc_msg_t)) : list ipc_msg_t :=
  filter (λ note, ints1 note = 0) (sent_on MQ_SCHED out).

(** The processes whose registration was read and whose [kill] went
    through, in the order of the ready queue. *)
Definition registered (ready : list Sched.ready_event) : list Z :=
  omap (λ x, match x with
             | Sched.ReadyReg reg true => Some (ints0 reg)
             | _ => None
             end) ready.

(** The queues a trace of calls obtained from [msgget], and those it
    asked the kernel to remove. *)
Definition obtained (calls : list syscall) : list Z :=
  omap (λ c, match c with
             | SysMsgget _ _ ret => if ret =? -1 then None else Some ret
             | SysMsgctlRmid _ _ => None
             end) calls.

Definition removal_requests (calls : list syscall) : list Z :=
  omap (λ c, match c with
             | SysMsgctlRmid mqid _ => Some mqid
             | SysMsgget _ _ _ => None
             end) calls.

(** The first field of the requests read, in order. *)
Definition requesters (inbox : list recv_result) : list Z :=
  omap (λ x, match x with
             | RecvMsg req => Some (ints0 req)
             | RecvIntr | RecvFail => None
             end) inbox.

(** A reply after which the loop of [process_run] goes on to the next
    reference: a message whose result is not [MMU_INVALID_PAGE]. *)
Definition reply_goes_on (x : recv_result) : Prop :=
  match x with
  | RecvMsg reply => ints1 reply ≠ MMU_INVALID_PAGE
  | RecvIntr | RecvFail => False
  end.

(** The registration [process_run] puts on the ready queue, and the
    request it sends for one page. *)
Definition registration (pid : Z) : queue * ipc_msg_t :=
  (MQ_READY, Msg MSGTYPE_PROC_REQ pid 0 0 0).

Definition request_for (p_ind ref_len page_no : Z) : queue * ipc_msg_t :=
  (MQ_PROC, Process.access_request p_ind page_no ref_len).

End Observe.

(** * Properties *)

(** ** Arithmetic and regions *)

Section Basics.
Import CInt Region.

Lemma wrap_in_range z : INT_MIN ≤ z ≤ INT_MAX → wrap z = z.
Proof.
  unfold wrap, INT_MIN, INT_MAX. intros Hz.
  rewrite Z.mod_small; lia.
Qed.

Lemma truthy_true x : truthy x = true ↔ x ≠ 0.
Proof. unfold truthy. destruct (Z.eqb_spec x 0); naive_solver. Qed.

Lemma truthy_false x : truthy x = false ↔ x = 0.
Proof. unfold truthy. destruct (Z.eqb_spec x 0); naive_solver. Qed.

Lemma c_mod_self f : 0 < f → c_mod f f = Some 0.
Proof.
  intros Hf. unfold c_mod. destruct (Z.eqb_spec f 0); [lia|].
  f_equal. rewrite Z.rem_mod_nonneg by lia. apply Z_mod_same_full.
Qed.

Lemma c_mod_bound a b :
  0 ≤ a → 0 < b → ∃ r, c_mod a b = Some r ∧ 0 ≤ r < b.
Proof.
  intros Ha Hb. unfold c_mod. destruct (Z.eqb_spec b 0); [lia|].
  eexists; split; [done|]. apply Z.rem_bound_pos; lia.
Qed.

Context {A : Type}.
Implicit Types (mem : list A) (i j : Z) (x : A).

Lemma load_Some mem i x :
  load mem i = Some x ↔ 0 ≤ i ∧ mem !! Z.to_nat i = Some x.
Proof.
  unfold load. destruct (Z.ltb_spec i 0).
  - split; [done|]. intros [? _]. lia.
  - split; [by split; [lia|] | by intros [_ ?]].
Qed.

Lemma load_in_range mem i :
  0 ≤ i < Z.of_nat (length mem) → is_Some (load mem i).
Proof.
  intros Hi. unfold load. destruct (Z.ltb_spec i 0); [lia|].
  apply lookup_lt_is_Some. lia.
Qed.

Lemma load_bound mem i x : load mem i = Some x → 0 ≤ i < Z.of_nat (length mem).
Proof.
  intros [Hi Hl]%load_Some. apply lookup_lt_Some in Hl. lia.
Qed.

Lemma store_Some mem i x mem' :
  store mem i x = Some mem' ↔
  0 ≤ i < Z.of_nat (length mem) ∧ mem' = <[Z.to_nat i := x]> mem.
Proof.
  unfold store.
  destruct (Z.leb_spec 0 i), (Z.ltb_spec i (Z.of_nat (length mem))); simpl;
    (split; [intros [= <-] | intros [? ->]]); first [done | lia | by split; [lia|]].
Qed.

Lemma store_in_range mem i x :
  0 ≤ i < Z.of_nat (length mem) → store mem i x = Some (<[Z.to_nat i := x]> mem).
Proof. intros Hi. by apply store_Some. Qed.

Lemma store_length mem i x mem' :
  store mem i x = Some mem' → length mem' = length mem.
Proof. intros [_ ->]%store_Some. apply length_insert. Qed.

Lemma load_store_eq mem i x mem' :
  store mem i x = Some mem' → load mem' i = Some x.
Proof.
  intros [Hi ->]%store_Some. apply load_Some. split; [lia|].
  apply list_lookup_insert_eq. lia.
Qed.

Lemma load_store_ne mem i j x mem' :
  store mem i x = Some mem' → i ≠ j → load mem' j = load mem j.
Proof.
  intros [Hi ->]%store_Some Hne. unfold load.
  destruct (Z.ltb_spec j 0); [done|].
  apply list_lookup_insert_ne. lia.
Qed.

(** The rule of the counted loop: an invariant [I i s] that holds at
    [start] and is kept by every iteration holds [n] iterations later,
    and the loop comes to its end. *)
Lemma for_loop_inv {S} (I : Z → S → Prop) (body : Z → S → option S) n start s :
  I start s →
  (∀ i s, start ≤ i < start + Z.of_nat n → I i s →
          ∃ s', body i s = Some s' ∧ I (i + 1) s') →
  ∃ s', for_loop n start body s = Some s' ∧ I (start + Z.of_nat n) s'.
Proof.
  revert start s. induction n as [|n IH]; intros start s H0 Hstep.
  - exists s. split; [done|]. by replace (start + Z.of_nat 0) with start by lia.
  - destruct (Hstep start s) as (s1 & Hb & H1); [lia|done|].
    destruct (IH (start + 1) s1) as (s' & Hl & HI); [done| |].
    + intros i s2 Hi. apply Hstep. lia.
    + exists s'. simpl. rewrite Hb. simpl. split; [done|].
      by replace (start + Z.of_nat (Datatypes.S n))
        with (start + 1 + Z.of_nat n) by lia.
Qed.

Lemma for_range_inv {S} (I : Z → S → Prop) (body : Z → S → option S) n s :
  0 ≤ n →
  I 0 s →
  (∀ i s, 0 ≤ i < n → I i s → ∃ s', body i s = Some s' ∧ I (i + 1) s') →
  ∃ s', for_range n body s = Some s' ∧ I n s'.
Proof.
  intros Hn H0 Hstep. unfold for_range.
  destruct (for_loop_inv I body (Z.to_nat n) 0 s) as (s' & Hl & HI); [done| |].
  - intros i s1 Hi. apply Hstep. lia.
  - exists s'. split; [done|]. by replace n with (0 + Z.of_nat (Z.to_nat n)) by lia.
Qed.

End Basics.

(** ** The selector *)

Section Selector.
Import CInt Region Types Memory Observe.
Implicit Types (pid m p v : Z).

Lemma for_loop_ext {S} (f g : Z → S → option S) n start (s : S) :
  (∀ i s, start ≤ i < start + Z.of_nat n → f i s = g i s) →
  for_loop n start f s = for_loop n start g s.
Proof.
  revert start s. induction n as [|n IH]; intros start s Hfg; [done|].
  simpl. rewrite Hfg by lia. destruct (g start s) as [s1|]; [simpl|done].
  apply IH. intros i s2 Hi. apply Hfg. lia.
Qed.

Lemma lookup_pte_in_table (sm1 : list pte_t) pid m p :
  0 ≤ pid → 0 ≤ p < m → pid * m + m ≤ Z.of_nat (length sm1) →
  is_Some (lookup_pte sm1 pid m p).
Proof.
  intros Hpid Hp Hlen. apply load_in_range.
  unfold pte_addr, pt_base_for_pid. nia.
Qed.

Lemma lru_step_scanned (sm1 : list pte_t) pid m i acc :
  0 ≤ i → is_Some (lookup_pte sm1 pid m i) →
  scanned sm1 pid m i acc →
  ∃ acc', lru_step sm1 pid m i acc = Some acc' ∧ scanned sm1 pid m (i + 1) acc'.
Proof.
  intros Hi [e He] Hacc. destruct acc as [v ts]. unfold lru_step, scanned in *.
  change (load sm1 (pt_base_for_pid pid m + i)) with (lookup_pte sm1 pid m i).
  rewrite He. simpl in *.
  assert (Hsti : stamp sm1 pid m i = last_used e) by (unfold stamp; by rewrite He).
  destruct (truthy (valid e)) eqn:Hv.
  - apply truthy_true in Hv.
    assert (Hmi : marked_valid sm1 pid m i) by (by exists e).
    destruct Hacc as [[-> Hall] | [(Hr & Hmv & Hmin) ->]]; simpl in *.
    + eexists; split; [done|]. right. simpl.
      split; [|congruence]. split; [lia|]. split; [done|].
      intros p Hp Hmp. destruct (decide (p = i)) as [->|]; [lia|].
      exfalso. apply (Hall p); [lia|done].
    + destruct (Z.eqb_spec v (-1)) as [|_]; [lia|]. simpl.
      destruct (Z.ltb_spec (last_used e) (stamp sm1 pid m v)) as [Hlt|Hge].
      * eexists; split; [done|]. right. simpl. split; [|congruence].
        split; [lia|]. split; [done|].
        intros p Hp Hmp. destruct (decide (p = i)) as [->|]; [lia|].
        destruct (Hmin p) as [Hle _]; [lia|done|]. lia.
      * eexists; split; [done|]. right. simpl. split; [|done].
        split; [lia|]. split; [done|].
        intros p Hp Hmp. destruct (decide (p = i)) as [->|].
        -- lia.
        -- apply Hmin; [lia|done].
  - apply truthy_false in Hv. eexists; split; [done|].
    assert (Hni : ¬ marked_valid sm1 pid m i).
    { intros (e' & He' & Hv'). congruence. }
    destruct Hacc as [[-> Hall] | [(Hr & Hmv & Hmin) ->]]; simpl in *.
    + left. split; [done|]. intros p Hp.
      destruct (decide (p = i)) as [->|]; [done|]. apply Hall. lia.
    + right. simpl. split; [|done]. split; [lia|]. split; [done|].
      intros p Hp Hmp. destruct (decide (p = i)) as [->|]; [done|].
      apply Hmin; [lia|done].
Qed.

Lemma choose_lru_victim_local_scanned (sm1 : list pte_t) pid m :
  0 ≤ pid → 0 < m → pid * m + m ≤ Z.of_nat (length sm1) →
  ∃ acc, choose_lru_victim_local sm1 pid m = Some acc.1 ∧
         scanned sm1 pid m m acc.
Proof.
  intros Hpid Hm Hlen. unfold choose_lru_victim_local.
  destruct (Z.ltb_spec pid 0); [lia|]. destruct (Z.leb_spec m 0); [lia|]. simpl.
  destruct (for_range_inv (scanned sm1 pid m) (lru_step sm1 pid m) m (-1, 0))
    as (acc & Hrun & Hacc); [lia| | |].
  - left. split; [done|]. intros p Hp. lia.
  - intros i acc Hi Hacc. apply lru_step_scanned; [lia| |done].
    apply lookup_pte_in_table; [done|lia|done].
  - exists acc. rewrite Hrun. done.
Qed.

(** The result depends on the [m] entries of [pid] and on nothing else. *)
Lemma choose_lru_victim_local_ext (sm1 sm1' : list pte_t) pid m :
  (∀ p, 0 ≤ p < m → lookup_pte sm1' pid m p = lookup_pte sm1 pid m p) →
  choose_lru_victim_local sm1' pid m = choose_lru_victim_local sm1 pid m.
Proof.
  intros Hsame. unfold choose_lru_victim_local.
  destruct ((pid <? 0) || (m <=? 0)) eqn:Hg; [done|].
  apply orb_false_elim in Hg as [_ Hm]. apply Z.leb_gt in Hm.
  unfold for_range. erewrite for_loop_ext; [done|].
  intros i acc Hi. unfold lru_step.
  change (load ?t (pt_base_for_pid pid m + i)) with (lookup_pte t pid m i).
  rewrite Hsame by lia. done.
Qed.

End Selector.

(** C5: for a process [pid] whose [m] entries lie in SM1, the selector
    returns a result; the result is -1 ("none") exactly when no entry of
    the process is valid; otherwise it is a valid page of the process with
    the smallest [last_used], and among the pages with that stamp the one
    with the lowest number; and the result is fixed by the [m] entries of
    that process alone. On the table with page 3 stamped 2 and page 5
    stamped 1 the victim is page 5. "Valid" is the selector's own test,
    [if (pt[p].valid)]. *)
Theorem choose_lru_victim_local_correct :
  (∀ (sm1 : list Types.pte_t) pid m,
      0 ≤ pid → 0 < m → pid * m + m ≤ Z.of_nat (length sm1) →
      ∃ v, Memory.choose_lru_victim_local sm1 pid m = Some v ∧
           (v = -1 ↔ ∀ p, 0 ≤ p < m → ¬ Observe.marked_valid sm1 pid m p) ∧
           (v ≠ -1 → Observe.lru_victim sm1 pid m v) ∧
           (∀ sm1' : list Types.pte_t,
               (∀ p, 0 ≤ p < m →
                     Observe.lookup_pte sm1' pid m p = Observe.lookup_pte sm1 pid m p) →
               Memory.choose_lru_victim_local sm1' pid m = Some v))
  ∧ (∃ t, Observe.example_table = Some t ∧
          Observe.lookup_pte t 1 8 3 = Some (Types.Pte 0 1 2) ∧
          Observe.lookup_pte t 1 8 5 = Some (Types.Pte 1 1 1) ∧
          (∀ p, 0 ≤ p < 8 → Observe.marked_valid t 1 8 p → p = 3 ∨ p = 5) ∧
          Memory.choose_lru_victim_local t 1 8 = Some 5).
Proof.
  split.
  - intros sm1 pid m Hpid Hm Hlen.
    destruct (choose_lru_victim_local_scanned sm1 pid m) as ([v ts] & Hrun & Hsc);
      [done..|]. unfold Observe.scanned in Hsc. simpl in *.
    exists v. split; [done|]. split; [|split].
    + destruct Hsc as [[-> Hall] | [(Hr & Hmv & _) _]]; simpl in *.
      * done.
      * split; [lia|]. intros Hall. exfalso. by apply (Hall v).
    + intros Hv. destruct Hsc as [[-> _] | [Hvic _]]; [done|]. done.
    + intros sm1' Hsame. by rewrite (choose_lru_victim_local_ext sm1 sm1').
  - eexists. split; [vm_compute; reflexivity|].
    split; [reflexivity|]. split; [reflexivity|]. split; [|reflexivity].
    intros p Hp (e & He & Hv).
    assert (Hcases : p = 0 ∨ p = 1 ∨ p = 2 ∨ p = 3 ∨ p = 4 ∨ p = 5 ∨ p = 6 ∨ p = 7)
      by lia.
    destruct Hcases as [->|[->|[->|[->|[->|[->|[->| ->]]]]]]];
      vm_compute in He; first [by left | by right | by (injection He as <-)].
Qed.

Lemma choose_lru_victim_local_correct_witness :
  ∃ v, Memory.choose_lru_victim_local [Types.Pte 0 1 2; Types.Pte 1 1 1] 0 2 = Some v ∧
       (v = -1 ↔ ∀ p, 0 ≤ p < 2 →
                 ¬ Observe.marked_valid [Types.Pte 0 1 2; Types.Pte 1 1 1] 0 2 p) ∧
       (v ≠ -1 → Observe.lru_victim [Types.Pte 0 1 2; Types.Pte 1 1 1] 0 2 v) ∧
       (∀ sm1' : list Types.pte_t,
           (∀ p, 0 ≤ p < 2 →
                 Observe.lookup_pte sm1' 0 2 p
                 = Observe.lookup_pte [Types.Pte 0 1 2; Types.Pte 1 1 1] 0 2 p) →
           Memory.choose_lru_victim_local sm1' 0 2 = Some v).
Proof.
  apply (proj1 choose_lru_victim_local_correct); simpl; lia.
Defined.

(** ** The engine: one request *)

Section Engine.
Import CInt Region Types Ipc Memory Mmu Observe.
Implicit Types (st : engine) (r : resolved) (p_ind page_no m k f : Z).

Lemma is_legal_page_true page_no bound :
  is_legal_page page_no bound = 1 ↔ 0 ≤ page_no < bound.
Proof.
  unfold is_legal_page.
  destruct (Z.geb_spec page_no 0), (Z.ltb_spec page_no bound); simpl;
    split; intros; solve [lia | done].
Qed.

Lemma is_legal_page_false page_no bound :
  is_legal_page page_no bound = 0 ↔ page_no < 0 ∨ bound ≤ page_no.
Proof.
  unfold is_legal_page.
  destruct (Z.geb_spec page_no 0), (Z.ltb_spec page_no bound); simpl;
    split; intros; solve [lia | done].
Qed.

(** [*pfh_out] is 1 on the two ways out that handled a fault and 0 on the
    three others. *)
Lemma resolve_access_pfh st p_ind page_no m m_req r :
  resolve_access st p_ind page_no m m_req = Some r →
  pfh_out r = if fault_handled (logged r) then 1 else 0.
Proof.
  unfold resolve_access. intros H.
  repeat (case_match || simplify_option_eq); done.
Qed.

Lemma pt_set_mapping_Some (sm1 : list pte_t) pid m page_no frame ts :
  0 ≤ pte_addr pid m page_no < Z.of_nat (length sm1) →
  ∃ rc sm1', pt_set_mapping sm1 pid m page_no frame ts = Some (rc, sm1') ∧
             length sm1' = length sm1.
Proof.
  intros Hin. unfold pt_set_mapping. case_match.
  - by eexists _, _.
  - rewrite store_in_range by done. simpl. eexists _, _. split; [done|].
    apply length_insert.
Qed.

Lemma pt_invalidate_Some (sm1 : list pte_t) pid m page_no :
  0 ≤ pte_addr pid m page_no < Z.of_nat (length sm1) →
  ∃ rc sm1', pt_invalidate sm1 pid m page_no = Some (rc, sm1') ∧
             length sm1' = length sm1.
Proof.
  intros Hin. unfold pt_invalidate. case_match.
  - by eexists _, _.
  - destruct (load_in_range sm1 _ Hin) as [e ->]. simpl.
    rewrite store_in_range by done. simpl. eexists _, _. split; [done|].
    apply length_insert.
Qed.

Lemma ffl_alloc_Some (pool : free_frame_list_t) f :
  0 < f ≤ INT_MAX → total_frames pool = f →
  Z.of_nat (length (frames pool)) = f → 0 ≤ head pool < f →
  ∃ fr pool', ffl_alloc pool = Some (fr, pool') ∧
              total_frames pool' = f ∧ frames pool' = frames pool ∧
              0 ≤ head pool' < f.
Proof.
  intros Hf Htot Hlen Hhd. unfold ffl_alloc. case_match.
  - eexists _, _. done.
  - destruct (load_in_range (frames pool) (head pool)) as [idx ->]; [lia|].
    simpl. rewrite (wrap_in_range (head pool + 1))
      by (unfold INT_MIN, INT_MAX in *; lia).
    destruct (c_mod_bound (head pool + 1) (total_frames pool)) as (hd & -> & Hb);
      [lia..|].
    simpl. eexists _, _. split; [done|]. simpl. split; [done|]. split; [done|]. lia.
Qed.

(** On regions of the right sizes, a request of a process [0 ≤ p_ind < k]
    for a page below [m] (or an illegal one) is resolved, and the regions
    keep their sizes. *)
Lemma resolve_access_total k m f st p_ind page_no m_req :
  well_formed k m f st → 0 ≤ p_ind < k → page_no < m →
  ∃ r, resolve_access st p_ind page_no m m_req = Some r ∧
       well_formed k m f (after r).
Proof.
  intros [Hk Hm Hf Hsm1 Htot Hfr Hhd] Hp Hpage. unfold resolve_access.
  destruct (truthy (is_legal_page page_no m_req)) eqn:Hlegal; simpl.
  2:{ eexists. split; [done|]. by constructor. }
  assert (0 ≤ page_no) as Hpage0.
  { apply truthy_true in Hlegal. unfold is_legal_page in Hlegal.
    destruct (Z.geb_spec page_no 0); [lia|done]. }
  assert (∀ q, 0 ≤ q < m → 0 ≤ pte_addr p_ind m q < k * m) as Haddr.
  { intros q Hq. unfold pte_addr, pt_base_for_pid. nia. }
  destruct (load_in_range (sm1 st) (pte_addr p_ind m page_no)) as [pte Hpte];
    [rewrite Hsm1; apply Haddr; lia|].
  rewrite Hpte. simpl. case_match.
  { rewrite store_in_range by (rewrite Hsm1; apply Haddr; lia). simpl.
    eexists. split; [done|]. constructor; simpl; try done.
    rewrite length_insert. done. }
  destruct (ffl_alloc_Some (ffl st) f) as (fr & pool' & -> & Ht' & Hfr' & Hhd');
    [done..|]. simpl.
  case_match.
  { destruct (pt_set_mapping_Some (sm1 st) p_ind m page_no fr (wrap (g_ts st + 1)))
      as (rc & sm1' & -> & Hlen'); [rewrite Hsm1; apply Haddr; lia|].
    simpl. eexists. split; [done|]. constructor; simpl; try done; congruence. }
  destruct (choose_lru_victim_local_scanned (sm1 st) p_ind m)
    as ([v ts] & -> & Hsc); [lia|lia|rewrite Hsm1; nia|].
  simpl. case_match.
  { eexists. split; [done|]. constructor; simpl; try done; congruence. }
  destruct Hsc as [[Hv _] | [(Hr & _) _]]; simpl in *; [lia|].
  destruct (load_in_range (sm1 st) (pte_addr p_ind m v)) as [vpte ->];
    [rewrite Hsm1; apply Haddr; lia|]. simpl.
  destruct (pt_invalidate_Some (sm1 st) p_ind m v)
    as (rc & sm1' & -> & Hlen'); [rewrite Hsm1; apply Haddr; lia|]. simpl.
  destruct (pt_set_mapping_Some sm1' p_ind m page_no (frame_no vpte)
              (wrap (g_ts st + 1)))
    as (rc' & sm1'' & -> & Hlen''); [rewrite Hlen', Hsm1; apply Haddr; lia|].
  simpl. eexists. split; [done|]. constructor; simpl; try done; congruence.
Qed.

End Engine.

(** C8: a request whose page number is negative, or at or above the legal
    bound sent with it, fails the legality check; [resolve_access] then
    returns [MMU_INVALID_PAGE] with [*pfh_out = 0] and leaves the state as
    it was: the clock [g_ts], every page-table entry of SM1 and the
    free-frame list are unchanged; the MMU answers with that one reply and
    sends nothing to the scheduler. *)
Theorem resolve_access_illegal_no_mutation
    (st : Mmu.engine) (p_ind page_no m m_req : Z) :
  page_no < 0 ∨ m_req ≤ page_no →
  Memory.is_legal_page page_no m_req = 0 ∧
  ∃ r, Mmu.resolve_access st p_ind page_no m m_req = Some r ∧
       Mmu.result r = Types.MMU_INVALID_PAGE ∧
       Mmu.pfh_out r = 0 ∧
       Mmu.after r = st ∧
       Mmu.g_ts (Mmu.after r) = Mmu.g_ts st ∧
       Mmu.sm1 (Mmu.after r) = Mmu.sm1 st ∧
       Mmu.ffl (Mmu.after r) = Mmu.ffl st ∧
       Mmu.serve_request st p_ind page_no m m_req
       = Some (r, [Mmu.send_proc_reply p_ind Types.MMU_INVALID_PAGE]).
Proof.
  intros Hill. apply is_legal_page_false in Hill. split; [done|].
  unfold Mmu.serve_request, Mmu.resolve_access. rewrite Hill. simpl.
  eexists. split; [done|]. simpl. done.
Qed.

Lemma resolve_access_illegal_no_mutation_witness :
  Memory.is_legal_page 2 2 = 0 ∧
  ∃ r, Mmu.resolve_access
         (Mmu.Engine [Types.Pte 0 1 1; Types.Pte (-1) 0 0]
                     (Types.Ffl 1 0 0 0 [0]) 1) 0 2 2 2 = Some r ∧
       Mmu.result r = Types.MMU_INVALID_PAGE ∧
       Mmu.pfh_out r = 0 ∧
       Mmu.after r = Mmu.Engine [Types.Pte 0 1 1; Types.Pte (-1) 0 0]
                                (Types.Ffl 1 0 0 0 [0]) 1 ∧
       Mmu.g_ts (Mmu.after r) = 1 ∧
       Mmu.sm1 (Mmu.after r) = [Types.Pte 0 1 1; Types.Pte (-1) 0 0] ∧
       Mmu.ffl (Mmu.after r) = Types.Ffl 1 0 0 0 [0] ∧
       Mmu.serve_request
         (Mmu.Engine [Types.Pte 0 1 1; Types.Pte (-1) 0 0]
                     (Types.Ffl 1 0 0 0 [0]) 1) 0 2 2 2
       = Some (r, [Mmu.send_proc_reply 0 Types.MMU_INVALID_PAGE]).
Proof.
  apply (resolve_access_illegal_no_mutation
           (Mmu.Engine [Types.Pte 0 1 1; Types.Pte (-1) 0 0]
                       (Types.Ffl 1 0 0 0 [0]) 1) 0 2 2 2).
  right. lia.
Defined.

(** C9: a request that is not the end marker gets exactly one reply on
    the process queue, carrying the result of [resolve_access], and one
    notification on the scheduler queue exactly when the fault was handled
    (a frame was allocated or a victim evicted); a hit, an illegal page and
    a fault that cannot be resolved send none. The loop then goes on with
    the next receive. On regions of the right sizes every request of a
    process [0 ≤ p_ind < k] for a page below [m] is served. *)
Theorem serve_request_reply_and_notify :
  (∀ (st : Mmu.engine) (p_ind page_no m m_req : Z) r out,
      Mmu.serve_request st p_ind page_no m m_req = Some (r, out) →
      Mmu.resolve_access st p_ind page_no m m_req = Some r ∧
      Observe.sent_on Ipc.MQ_PROC out
      = [Ipc.Msg Ipc.MSGTYPE_MMU_REPLY p_ind (Mmu.result r) 0 0] ∧
      Observe.sent_on Ipc.MQ_SCHED out
      = (if Observe.fault_handled (Mmu.logged r)
         then [Ipc.Msg Ipc.MSGTYPE_SCHED_NOTIFY p_ind 1 0 0] else []) ∧
      Observe.sent_on Ipc.MQ_READY out = [] ∧
      length out = (if Observe.fault_handled (Mmu.logged r) then 2 else 1)%nat)
  ∧ (∀ (k m : Z) (st : Mmu.engine) (pc : Z) req rest r out,
        Ipc.ints1 req ≠ Types.MMU_END_OF_REF →
        Mmu.serve_request st (Ipc.ints0 req) (Ipc.ints1 req) m (Ipc.ints2 req)
        = Some (r, out) →
        Mmu.mmu_loop k m st pc (Ipc.RecvMsg req :: rest)
        = Mmu.emit out (Mmu.mmu_loop k m (Mmu.after r) pc rest))
  ∧ (∀ (k m f : Z) (st : Mmu.engine) (p_ind page_no m_req : Z),
        Observe.well_formed k m f st → 0 ≤ p_ind < k → page_no < m →
        is_Some (Mmu.serve_request st p_ind page_no m m_req)).
Proof.
  split; [|split].
  - intros st p_ind page_no m m_req r out Hs. unfold Mmu.serve_request in Hs.
    destruct (Mmu.resolve_access st p_ind page_no m m_req) as [r'|] eqn:Hr;
      [|done].
    simpl in Hs. injection Hs as <- <-. split; [done|].
    apply resolve_access_pfh in Hr. rewrite Hr.
    by destruct (Observe.fault_handled (Mmu.logged r')).
  - intros k m st pc req rest r out Hne Hs. simpl.
    destruct (Z.eqb_spec (Ipc.ints1 req) Types.MMU_END_OF_REF); [done|].
    by rewrite Hs.
  - intros k m f st p_ind page_no m_req Hwf Hp Hpage.
    destruct (resolve_access_total k m f st p_ind page_no m_req)
      as (r & Hr & _); [done..|].
    unfold Mmu.serve_request. rewrite Hr. simpl. by eexists.
Qed.

Lemma serve_request_reply_and_notify_witness :
  is_Some (Mmu.serve_request
             (Mmu.Engine [Types.Pte (-1) 0 0; Types.Pte (-1) 0 0]
                         (Types.Ffl 1 1 0 0 [0]) 0) 0 1 2 2).
Proof.
  apply (proj2 (proj2 serve_request_reply_and_notify) 1 2 1).
  - constructor; simpl; unfold CInt.INT_MAX; lia.
  - lia.
  - lia.
Defined.

(** ** The engine: the receive loop *)

Section Loop.
Import CInt Region Types Ipc Memory Mmu Observe.
Implicit Types (st : engine) (r : run) (k m c : Z) (x : recv_result)
  (inbox : list recv_result).

Lemma end_markers_cons x inbox :
  end_markers (x :: inbox)
  = (if is_end_marker x then 1 else 0) + end_markers inbox.
Proof.
  unfold end_markers. destruct (is_end_marker x) eqn:Hx.
  - rewrite filter_cons_True by done. simpl. lia.
  - rewrite filter_cons_False by (by rewrite Hx). simpl. lia.
Qed.

Lemma end_markers_nonneg inbox : 0 ≤ end_markers inbox.
Proof. unfold end_markers. lia. Qed.

Lemma end_markers_app inbox inbox' :
  end_markers (inbox ++ inbox') = end_markers inbox + end_markers inbox'.
Proof. unfold end_markers. rewrite list.filter_app, length_app. lia. Qed.

(** One more receive, read before the loop came to stand as [r]. *)
Lemma loop_outcome_cons k c x inbox r r' :
  x ≠ RecvFail →
  status r' = status r → unread r' = unread r → completed r' = completed r →
  loop_outcome k (c + (if is_end_marker x then 1 else 0)) inbox r →
  loop_outcome k c (x :: inbox) r'.
Proof.
  intros Hx Hs Hu Hc. unfold loop_outcome. rewrite Hs, Hu, Hc.
  destruct (status r).
  - intros (pre & req & -> & Hreq & Hcount & Hk & Hpre).
    exists (x :: pre), req. rewrite end_markers_cons.
    split; [done|]. split; [done|]. split; [lia|]. split; [done|].
    by constructor.
  - intros (pre & -> & Hcount & Hk & Hpre).
    exists (x :: pre). rewrite end_markers_cons.
    split; [done|]. split; [lia|]. split; [done|]. by constructor.
  - intros (pre & req & -> & Hreq & Hcount & Hk & Hpre).
    exists (x :: pre), req. rewrite end_markers_cons.
    split; [done|]. split; [done|]. split; [lia|]. split; [done|].
    by constructor.
  - intros (Hnil & Hcount & Hk & Hall). rewrite end_markers_cons.
    split; [done|]. split; [lia|]. split; [done|]. by constructor.
Qed.

Lemma mmu_loop_outcome k m inbox :
  k ≤ INT_MAX → ∀ st c, 0 ≤ c < k →
  loop_outcome k c inbox (mmu_loop k m st c inbox).
Proof.
  intros Hk. induction inbox as [|x inbox IH]; intros st c Hc.
  - unfold loop_outcome. simpl. unfold end_markers. simpl.
    split; [done|]. split; [lia|]. split; [lia|]. constructor.
  - destruct x as [| |req].
    + simpl. eapply loop_outcome_cons; [done|done..|].
      simpl. replace (c + 0) with c by lia. by apply IH.
    + unfold loop_outcome. simpl. exists []. unfold end_markers. simpl.
      split; [done|]. split; [lia|]. split; [lia|]. constructor.
    + simpl. destruct (Z.eqb_spec (ints1 req) MMU_END_OF_REF) as [Hend|Hreq].
      * rewrite (wrap_in_range (c + 1)) by (unfold INT_MIN, INT_MAX in *; lia).
        destruct (Z.geb_spec (c + 1) k) as [Hge|Hlt].
        -- unfold loop_outcome. simpl. exists [], req. unfold end_markers. simpl.
           split; [done|]. split; [done|]. split; [lia|]. split; [lia|].
           constructor.
        -- eapply loop_outcome_cons; [done|done..|].
           simpl. destruct (Z.eqb_spec (ints1 req) MMU_END_OF_REF); [|done].
           apply IH. lia.
      * destruct (serve_request st (ints0 req) (ints1 req) m (ints2 req))
          as [[r out]|].
        -- eapply loop_outcome_cons; [done|done..|].
           simpl. destruct (Z.eqb_spec (ints1 req) MMU_END_OF_REF); [done|].
           replace (c + 0) with c by lia. by apply IH.
        -- unfold loop_outcome. simpl. exists [], req. unfold end_markers. simpl.
           split; [done|]. split; [done|]. split; [lia|]. split; [lia|].
           constructor.
Qed.

End Loop.

(** C6, as amended: with [1 ≤ k], the receive loop is left through the
    [break] that follows an end marker exactly at the [k]-th end marker
    received, counted per message: the last receive read is then an end
    marker, [k - 1] end markers were read before it and [procs_cmpltd] is
    [k]. While fewer than [k] end markers have been received the loop is
    not left that way. The only other ways the loop stops are a receive
    that fails with an error other than [EINTR] and an access outside the
    regions inside [resolve_access]; failing these, the loop has read
    every receive and waits for the next. *)
Theorem mmu_run_exits_at_kth_end_marker
    (k m : Z) (st : Mmu.engine) (inbox : list Ipc.recv_result) :
  1 ≤ k ≤ CInt.INT_MAX →
  Observe.loop_outcome k 0 inbox (Mmu.mmu_run k m st inbox) ∧
  (Mmu.status (Mmu.mmu_run k m st inbox) = Mmu.Exited →
   k ≤ Observe.end_markers inbox) ∧
  (Observe.end_markers inbox < k →
   Mmu.status (Mmu.mmu_run k m st inbox) ≠ Mmu.Exited) ∧
  (k ≤ Observe.end_markers inbox →
   Mmu.status (Mmu.mmu_run k m st inbox) ≠ Mmu.Blocked).
Proof.
  intros Hk.
  assert (Hout : Observe.loop_outcome k 0 inbox (Mmu.mmu_run k m st inbox))
    by (apply mmu_loop_outcome; lia).
  assert (Hex : Mmu.status (Mmu.mmu_run k m st inbox) = Mmu.Exited →
                k ≤ Observe.end_markers inbox).
  { intros Hs. unfold Observe.loop_outcome in Hout. rewrite Hs in Hout.
    destruct Hout as (pre & req & Hin & Hreq & Hcount & _).
    rewrite Hin, end_markers_app, end_markers_cons. simpl.
    destruct (Z.eqb_spec (Ipc.ints1 req) Types.MMU_END_OF_REF); [|done].
    pose proof (end_markers_nonneg (Mmu.unread (Mmu.mmu_run k m st inbox))).
    lia. }
  split; [done|]. split; [done|]. split.
  - intros Hlt Hs. apply Hex in Hs. lia.
  - intros Hge Hs. unfold Observe.loop_outcome in Hout. rewrite Hs in Hout.
    destruct Hout as (_ & Hc & Hlt & _). lia.
Qed.

Lemma mmu_run_exits_at_kth_end_marker_witness :
  Mmu.status
    (Mmu.mmu_run 2 2
       (Mmu.Engine [Types.Pte (-1) 0 0; Types.Pte (-1) 0 0]
                   (Types.Ffl 1 1 0 0 [0]) 0)
       [Ipc.RecvMsg (Process.end_request 0);
        Ipc.RecvMsg (Process.end_request 1)]) = Mmu.Exited ∧
  2 ≤ Observe.end_markers
        [Ipc.RecvMsg (Process.end_request 0);
         Ipc.RecvMsg (Process.end_request 1)].
Proof.
  split; [reflexivity|].
  refine (proj1 (proj2 (mmu_run_exits_at_kth_end_marker 2 2
            (Mmu.Engine [Types.Pte (-1) 0 0; Types.Pte (-1) 0 0]
                        (Types.Ffl 1 1 0 0 [0]) 0)
            [Ipc.RecvMsg (Process.end_request 0);
             Ipc.RecvMsg (Process.end_request 1)] _)) _).
  - unfold CInt.INT_MAX. lia.
  - reflexivity.
Defined.

(** C6, as stated, fails: with [k = 2], two end markers from the same
    process make the loop exit although only one process has sent the
    marker. *)
Lemma mmu_run_exits_on_repeated_end_marker :
  let st := Mmu.Engine [Types.Pte (-1) 0 0; Types.Pte (-1) 0 0;
                        Types.Pte (-1) 0 0; Types.Pte (-1) 0 0]
                       (Types.Ffl 1 1 0 0 [0]) 0 in
  let inbox := [Ipc.RecvMsg (Process.end_request 0);
                Ipc.RecvMsg (Process.end_request 0)] in
  Mmu.status (Mmu.mmu_run 2 2 st inbox) = Mmu.Exited ∧
  Observe.distinct_senders inbox = 1 ∧
  ¬ Observe.exits_after_k_distinct 2 2 st inbox.
Proof.
  split; [reflexivity|]. split; [reflexivity|].
  unfold Observe.exits_after_k_distinct. intros H.
  specialize (H eq_refl). vm_compute in H. by apply H.
Qed.

(** ** The scheduler *)

Section Scheduler.
Import CInt Types Ipc Sched Observe.
Implicit Types (pid : Z) (notes pre rest : list recv_result) (note : ipc_msg_t).

Lemma wait_notes_passed_over pid x notes :
  passed_over x →
  ∃ l0, ∀ s l rest,
    wait_notes pid notes = (s, l, rest) →
    wait_notes pid (x :: notes) = (s, l0 ++ l, rest).
Proof.
  intros Hx. destruct x as [| |note]; simpl in *; [|done|].
  - exists []. intros s l rest ->. done.
  - destruct (Z.eqb_spec (ints1 note) 0) as [|_]; [done|].
    eexists. intros s l rest ->. done.
Qed.

Lemma wait_notes_finish pid pre note rest :
  Forall passed_over pre → ints1 note = 0 →
  ∃ l, wait_notes pid (pre ++ RecvMsg note :: rest) = (WaitFinished, l, rest) ∧
       LogFinished pid ∈ l.
Proof.
  intros Hpre Hflag. induction Hpre as [|x pre Hx _ IH].
  - simpl. rewrite Hflag. simpl. eexists. split; [done|].
    apply list_elem_of_here.
  - destruct IH as (l & Hl & Hin).
    destruct (wait_notes_passed_over pid x (pre ++ RecvMsg note :: rest) Hx)
      as (l0 & Hstep).
    exists (l0 ++ l). split; [by apply Hstep|]. apply elem_of_app. by right.
Qed.

Lemma wait_notes_finished_inv pid notes l rest :
  wait_notes pid notes = (WaitFinished, l, rest) →
  ∃ pre note, notes = pre ++ RecvMsg note :: rest ∧
              Forall passed_over pre ∧ ints1 note = 0.
Proof.
  revert l. induction notes as [|x notes IH]; intros l; [done|].
  destruct x as [| |note]; simpl; [|done|].
  - intros (pre & note & -> & Hpre & Hflag)%IH.
    exists (RecvIntr :: pre), note. split; [done|]. split; [|done].
    by constructor.
  - destruct (Z.eqb_spec (ints1 note) 0) as [Hz|Hnz].
    + intros [= _ ->]. exists [], note. split; [done|]. split; [constructor|done].
    + destruct (wait_notes pid notes) as [[s l'] rest'] eqn:Hw.
      intros [= -> _ ->].
      destruct (IH _ eq_refl) as (pre & note' & -> & Hpre & Hflag).
      exists (RecvMsg note :: pre), note'. split; [done|]. split; [|done].
      by constructor.
Qed.

Lemma wait_notes_all_passed_over pid notes :
  Forall passed_over notes → (wait_notes pid notes).1.1 = WaitBlocked.
Proof.
  induction 1 as [|x notes Hx _ IH]; [done|].
  destruct (wait_notes pid notes) as [[s l] rest] eqn:Hw.
  destruct (wait_notes_passed_over pid x notes Hx) as (l0 & Hstep).
  rewrite (Hstep _ _ _ Hw). done.
Qed.

End Scheduler.

(** C7, as amended: the scheduler marks the running process [pid]
    finished on the first notification whose fault-handled flag is 0,
    whatever process identifier that notification carries (the identifier
    is only logged, never compared with [pid]); it does so only on such a
    notification, after passing over interrupted receives and notifications
    with the flag set; notifications with the flag set never mark it
    finished. Marking finished is the step that logs "finished" for [pid]
    and adds one to [finished_count]. *)
Theorem wait_notes_finishes_on_first_clear_flag (pid : Z) :
  (∀ pre note rest,
      Forall Observe.passed_over pre → Ipc.ints1 note = 0 →
      ∃ l, Sched.wait_notes pid (pre ++ Ipc.RecvMsg note :: rest)
           = (Sched.WaitFinished, l, rest) ∧
           Sched.LogFinished pid ∈ l)
  ∧ (∀ notes l rest,
        Sched.wait_notes pid notes = (Sched.WaitFinished, l, rest) →
        ∃ pre note, notes = pre ++ Ipc.RecvMsg note :: rest ∧
                    Forall Observe.passed_over pre ∧ Ipc.ints1 note = 0)
  ∧ (∀ notes, Forall Observe.passed_over notes →
              (Sched.wait_notes pid notes).1.1 = Sched.WaitBlocked)
  ∧ (∀ num_procs finished reg ready notes l notes',
        finished < num_procs → Ipc.ints0 reg = pid →
        Sched.wait_notes pid notes = (Sched.WaitFinished, l, notes') →
        Sched.scheduler_loop num_procs finished
          (Sched.ReadyReg reg true :: ready) notes
        = Sched.record (Some pid) (Sched.LogPicked pid :: l)
            (Sched.scheduler_loop num_procs (CInt.wrap (finished + 1))
               ready notes')).
Proof.
  split; [|split; [|split]].
  - intros pre note rest. apply wait_notes_finish.
  - intros notes l rest. apply wait_notes_finished_inv.
  - intros notes. apply wait_notes_all_passed_over.
  - intros num_procs finished reg ready notes l notes' Hlt <- Hw. simpl.
    destruct (Z.ltb_spec finished num_procs); [|lia]. by rewrite Hw.
Qed.

Lemma wait_notes_finishes_on_first_clear_flag_witness :
  ∃ l, Sched.wait_notes 100
         ([Ipc.RecvMsg (Ipc.Msg 3 0 1 0 0)] ++ Ipc.RecvMsg (Ipc.Msg 3 200 0 0 0) :: [])
       = (Sched.WaitFinished, l, []) ∧
       Sched.LogFinished 100 ∈ l.
Proof.
  apply (proj1 (wait_notes_finishes_on_first_clear_flag 100)).
  - constructor; [simpl; lia|constructor].
  - reflexivity.
Defined.

(** C7, as stated, fails: while process 100 runs, a notification that
    names process 200 and has the flag clear marks process 100 finished. *)
Lemma wait_notes_finishes_on_foreign_note :
  Sched.wait_notes 100 [Ipc.RecvMsg (Ipc.Msg Ipc.MSGTYPE_SCHED_NOTIFY 200 0 0 0)]
  = (Sched.WaitFinished, [Sched.LogFinished 100], []) ∧
  ¬ Observe.finishes_on_own_note 100
      [Ipc.RecvMsg (Ipc.Msg Ipc.MSGTYPE_SCHED_NOTIFY 200 0 0 0)].
Proof.
  split; [reflexivity|]. intros H.
  destruct (H _ _ eq_refl) as (pre & note & Heq & Hpid & _).
  destruct pre as [|x [|y pre]]; simpl in Heq; simplify_eq.
Qed.

(** ** Initialisation *)

Section Initialisation.
Import CInt Region Types Memory Mmu Observe.

(** A loop that writes [g i] to slot [i] for every [i] below [n]. *)
Lemma for_range_fill {A} (g : Z → A) n (mem0 : list A) :
  0 ≤ n ≤ Z.of_nat (length mem0) →
  ∃ mem', for_range n (λ i mem, store mem i (g i)) mem0 = Some mem' ∧
          length mem' = length mem0 ∧
          (∀ j, 0 ≤ j < n → load mem' j = Some (g j)) ∧
          (∀ j, n ≤ j → load mem' j = load mem0 j).
Proof.
  intros Hn.
  apply (for_range_inv
           (λ i mem, length mem = length mem0 ∧
                     (∀ j, 0 ≤ j < i → load mem j = Some (g j)) ∧
                     (∀ j, i ≤ j → load mem j = load mem0 j))); [lia| |].
  - split; [done|]. split; [intros j Hj; lia|done].
  - intros i mem Hi (Hlen & Hlow & Hhigh).
    assert (Hin : 0 ≤ i < Z.of_nat (length mem)) by lia.
    pose proof (store_in_range mem i (g i) Hin) as Hst.
    eexists. split; [done|]. split; [by rewrite length_insert|]. split.
    + intros j Hj. destruct (decide (i = j)) as [<-|Hne].
      * by apply (load_store_eq mem).
      * rewrite (load_store_ne mem i j _ _ Hst Hne). apply Hlow. lia.
    + intros j Hj. rewrite (load_store_ne mem i j _ _ Hst) by lia.
      apply Hhigh. lia.
Qed.

Lemma for_range_fill_all {A} (g : Z → A) n (mem0 : list A) :
  0 ≤ n → Z.of_nat (length mem0) = n →
  for_range n (λ i mem, store mem i (g i)) mem0 = Some (g <$> seqZ 0 n).
Proof.
  intros Hn Hlen.
  destruct (for_range_fill g n mem0) as (mem' & -> & Hlen' & Hlow & _); [lia|].
  f_equal. apply list_eq. intros j.
  destruct (decide (Z.of_nat j < n)) as [Hj|Hj].
  - specialize (Hlow (Z.of_nat j)). unfold load in Hlow.
    destruct (Z.ltb_spec (Z.of_nat j) 0); [lia|].
    rewrite Nat2Z.id in Hlow. rewrite Hlow by lia.
    rewrite list_lookup_fmap, lookup_seqZ_lt by lia. done.
  - rewrite (lookup_ge_None_2 mem') by lia.
    rewrite list_lookup_fmap, lookup_seqZ_ge by lia. done.
Qed.

Lemma fmap_const_seqZ {A} (c : A) n :
  (λ _, c) <$> seqZ 0 n = replicate (Z.to_nat n) c.
Proof.
  apply list_eq. intros j. rewrite list_lookup_fmap.
  destruct (decide (Z.of_nat j < n)) as [Hj|Hj].
  - rewrite lookup_seqZ_lt by lia. simpl. symmetry.
    apply lookup_replicate_2. lia.
  - rewrite lookup_seqZ_ge by lia. simpl. symmetry.
    apply lookup_replicate_None. lia.
Qed.

Lemma fmap_id_seqZ n : (λ i, i) <$> seqZ 0 n = seqZ 0 n.
Proof. apply list_fmap_id. Qed.

(** [ffl_init] fills the pool: [count = f] and the ring holds
    [0 .. f-1]. *)
Lemma ffl_init_full (pool : free_frame_list_t) f :
  0 < f → Z.of_nat (length (frames pool)) = f →
  ffl_init pool f = Some (0, Ffl f f 0 0 (seqZ 0 f)).
Proof.
  intros Hf Hlen. unfold ffl_init. destruct (Z.leb_spec f 0); [lia|].
  rewrite (for_range_fill_all (λ i, i)) by lia. simpl.
  rewrite c_mod_self by done. simpl. by rewrite fmap_id_seqZ.
Qed.

Lemma pt_init_all_clears (sm1 : list pte_t) k m :
  0 < k → 0 < m → Z.of_nat (length sm1) = k * m →
  pt_init_all sm1 k m = Some (0, replicate (Z.to_nat (k * m)) (Pte (-1) 0 0)).
Proof.
  intros Hk Hm Hlen. unfold pt_init_all.
  destruct (Z.leb_spec k 0); [lia|]. destruct (Z.leb_spec m 0); [lia|]. simpl.
  rewrite (for_range_fill_all (λ _, Pte (-1) 0 0)) by nia. simpl.
  by rewrite fmap_const_seqZ.
Qed.

Lemma master_init_result (sm1 : list pte_t) (pool : free_frame_list_t) k m f :
  0 < k → 0 < m → k * m ≤ INT_MAX → 0 < f →
  Z.of_nat (length sm1) = k * m → Z.of_nat (length (frames pool)) = f →
  Master.master_init sm1 pool k m f
  = Some (replicate (Z.to_nat (k * m)) (Pte (-1) (-1) (-1)),
          Ffl f 0 0 0 (seqZ 0 f)).
Proof.
  intros Hk Hm Hkm Hf Hlen Hfr. unfold Master.master_init.
  rewrite wrap_in_range by (unfold INT_MIN, INT_MAX in *; nia).
  rewrite (for_range_fill_all (λ _, Pte (-1) (-1) (-1))) by nia. simpl.
  rewrite c_mod_self by done. simpl.
  rewrite (for_range_fill_all (λ i, i)) by lia. simpl.
  by rewrite fmap_const_seqZ, fmap_id_seqZ.
Qed.

End Initialisation.

(** C3: what the code does at simulation start. [master_run] does not
    call [ffl_init]; its own initialisation block writes the frames
    [0 .. f-1] into the ring but sets [count] to 0, so the MMU starts on
    a pool whose count is 0, not [f], and that holds no frame. [ffl_init],
    on the same segment, gives [count = f]. *)
Theorem simulation_start_count_is_zero (k m f : Z) :
  0 < k → 0 < m → k * m ≤ CInt.INT_MAX → 0 < f →
  (∃ st, Master.simulation_start k m f = Some st ∧
         Mmu.sm1 st = replicate (Z.to_nat (k * m)) (Types.Pte (-1) (-1) (-1)) ∧
         Mmu.ffl st = Types.Ffl f 0 0 0 (seqZ 0 f) ∧
         Types.count (Mmu.ffl st) = 0 ∧
         Types.count (Mmu.ffl st) ≠ f ∧
         Observe.pool_contents (Mmu.ffl st) = []) ∧
  Memory.ffl_init (Master.fresh_sm2 f) f
  = Some (0, Types.Ffl f f 0 0 (seqZ 0 f)).
Proof.
  intros Hk Hm Hkm Hf. split.
  - unfold Master.simulation_start.
    rewrite master_init_result; try done.
    + simpl. eexists. split; [done|]. simpl. repeat split; try done. lia.
    + unfold Master.fresh_sm1. rewrite length_replicate. nia.
    + simpl. rewrite length_replicate. lia.
  - apply ffl_init_full; [done|]. simpl. rewrite length_replicate. lia.
Qed.

Lemma simulation_start_count_is_zero_witness :
  (∃ st, Master.simulation_start 2 4 4 = Some st ∧
         Mmu.sm1 st = replicate (Z.to_nat (2 * 4)) (Types.Pte (-1) (-1) (-1)) ∧
         Mmu.ffl st = Types.Ffl 4 0 0 0 (seqZ 0 4) ∧
         Types.count (Mmu.ffl st) = 0 ∧
         Types.count (Mmu.ffl st) ≠ 4 ∧
         Observe.pool_contents (Mmu.ffl st) = []) ∧
  Memory.ffl_init (Master.fresh_sm2 4) 4
  = Some (0, Types.Ffl 4 4 0 0 (seqZ 0 4)).
Proof.
  apply (simulation_start_count_is_zero 2 4 4); unfold CInt.INT_MAX; lia.
Defined.

(** C2: what the code does on an empty pool. The guard of [ffl_alloc] is
    [count > total_frames], so with [count = 0] the call does not fail: it
    returns the frame under [head], moves [head] on and leaves
    [count = -1]. After [ffl_init] with one frame, two calls in a row both
    return frame 0, the second while the first is still out. *)
Theorem ffl_alloc_on_empty_pool :
  (∀ (pool : Types.free_frame_list_t) (f : Z),
      Types.count pool = 0 →
      0 < f ≤ CInt.INT_MAX → Types.total_frames pool = f →
      Z.of_nat (length (Types.frames pool)) = f → 0 ≤ Types.head pool < f →
      ∃ idx pool',
        Memory.ffl_alloc pool = Some (idx, pool') ∧
        Region.load (Types.frames pool) (Types.head pool) = Some idx ∧
        Types.count pool' = -1 ∧
        Types.head pool' = (Types.head pool + 1) `mod` f ∧
        pool' ≠ pool)
  ∧ (∃ pool0 pool1 pool2,
        Memory.ffl_init (Master.fresh_sm2 1) 1 = Some (0, pool0) ∧
        Types.count pool0 = 1 ∧
        Memory.ffl_alloc pool0 = Some (0, pool1) ∧
        Types.count pool1 = 0 ∧
        Memory.ffl_alloc pool1 = Some (0, pool2) ∧
        Types.count pool2 = -1).
Proof.
  split.
  - intros pool f Hcount Hf Htot Hlen Hhd. unfold Memory.ffl_alloc.
    rewrite Hcount, Htot. destruct (Z.gtb_spec 0 f); [lia|].
    destruct (load_in_range (Types.frames pool) (Types.head pool)) as [idx Hidx];
      [lia|].
    rewrite Hidx. simpl.
    rewrite (wrap_in_range (Types.head pool + 1))
      by (unfold CInt.INT_MIN, CInt.INT_MAX in *; lia).
    unfold CInt.c_mod. destruct (Z.eqb_spec f 0); [lia|]. simpl.
    eexists _, _. split; [done|]. split; [done|]. simpl.
    split; [done|]. split.
    + apply Z.rem_mod_nonneg; lia.
    + intros Heq. apply (f_equal Types.count) in Heq. simpl in Heq.
      rewrite Hcount in Heq. done.
  - eexists _, _, _. repeat split.
Qed.

Lemma ffl_alloc_on_empty_pool_witness :
  ∃ idx pool',
    Memory.ffl_alloc (Types.Ffl 1 0 0 0 [0]) = Some (idx, pool') ∧
    Region.load (Types.frames (Types.Ffl 1 0 0 0 [0]))
                (Types.head (Types.Ffl 1 0 0 0 [0])) = Some idx ∧
    Types.count pool' = -1 ∧
    Types.head pool' = (Types.head (Types.Ffl 1 0 0 0 [0]) + 1) `mod` 1 ∧
    pool' ≠ Types.Ffl 1 0 0 0 [0].
Proof.
  apply (proj1 ffl_alloc_on_empty_pool (Types.Ffl 1 0 0 0 [0]) 1);
    simpl; unfold CInt.INT_MAX; lia.
Defined.

(** X29: While [count] does not exceed [total_frames] and the ring holds frame
    numbers, [ffl_alloc] hands out a frame, so a fault never reaches the
    selector: [resolve_access] leaves by the illegal, hit or allocation
    exit, and neither condition is lost ([count] only goes down). *)
Lemma resolve_access_never_evicts (k m f : Z) (st : Mmu.engine)
    (p_ind page_no m_req : Z) (r : Mmu.resolved) :
  Observe.well_formed k m f st →
  Forall (λ x, 0 ≤ x) (Types.frames (Mmu.ffl st)) →
  CInt.INT_MIN < Types.count (Mmu.ffl st) ≤ f →
  Mmu.resolve_access st p_ind page_no m m_req = Some r →
  (∀ a b c d e, Mmu.logged r ≠ Mmu.LogEvicted a b c d e) ∧
  (∀ a, Mmu.logged r ≠ Mmu.LogNoVictim a) ∧
  Forall (λ x, 0 ≤ x) (Types.frames (Mmu.ffl (Mmu.after r))) ∧
  Types.count (Mmu.ffl (Mmu.after r)) ≤ f.
Proof.
  intros [Hk Hm Hf Hsm1 Htot Hfr Hhd] Hring Hcount. unfold Mmu.resolve_access.
  destruct (CInt.truthy (Memory.is_legal_page page_no m_req)); simpl.
  2:{ intros [= <-]. simpl. repeat split; try done; lia. }
  destruct (Region.load (Mmu.sm1 st) _) as [pte|]; [simpl|done].
  destruct (Types.valid pte >? 0).
  { destruct (Region.store _ _ _); [simpl|done].
    intros [= <-]. simpl. repeat split; try done; lia. }
  unfold Memory.ffl_alloc. rewrite Htot.
  destruct (Z.gtb_spec (Types.count (Mmu.ffl st)) f); [lia|].
  destruct (Region.load (Types.frames (Mmu.ffl st)) _) as [idx|] eqn:Hidx;
    [simpl|done].
  assert (0 ≤ idx) as Hpos.
  { apply load_Some in Hidx as [_ Hidx].
    by apply (Forall_lookup_1 _ _ _ _ Hring Hidx). }
  destruct (CInt.c_mod _ f); [simpl|done].
  destruct (Z.geb_spec idx 0); [|lia].
  destruct (Memory.pt_set_mapping _ _ _ _ _ _) as [[rc sm1']|]; [simpl|done].
  intros [= <-]. simpl. repeat split; try done.
  rewrite wrap_in_range by (unfold CInt.INT_MIN, CInt.INT_MAX in *; lia). lia.
Qed.

(** C1: what the code does when a second page faults with one frame.
    From the state the two initialisers of memory.c build for
    [k = 1, m = 2, f = 1], where the invariant holds, the fault on page 0
    takes frame 0 and keeps the invariant; the fault on page 1 finds
    [count = 0], is served by [ffl_alloc] all the same and maps frame 0 a
    second time: [count] is -1, frame 0 has two owners and two pages are
    resident with one frame. From the state [master_run] builds the same
    two requests end with [count = -2] and the same two owners. *)
Theorem frames_invariant_broken_by_second_fault :
  (∃ st0 r1 r2,
      Master.initialized 1 2 1 = Some st0 ∧
      Observe.frames_invariant 1 st0 ∧
      Mmu.resolve_access st0 0 0 2 2 = Some r1 ∧
      Mmu.logged r1 = Mmu.LogAllocated 0 0 0 1 ∧
      Observe.frames_invariant 1 (Mmu.after r1) ∧
      Mmu.resolve_access (Mmu.after r1) 0 1 2 2 = Some r2 ∧
      Mmu.logged r2 = Mmu.LogAllocated 0 1 0 2 ∧
      Types.count (Mmu.ffl (Mmu.after r2)) = -1 ∧
      Observe.owners (Mmu.sm1 (Mmu.after r2)) 0
      = [Types.Pte 0 1 1; Types.Pte 0 1 2] ∧
      length (Observe.resident (Mmu.sm1 (Mmu.after r2))) = 2%nat ∧
      ¬ Observe.frames_invariant 1 (Mmu.after r2))
  ∧ (∃ st0 r1 r2,
        Master.simulation_start 1 2 1 = Some st0 ∧
        Mmu.resolve_access st0 0 0 2 2 = Some r1 ∧
        Mmu.resolve_access (Mmu.after r1) 0 1 2 2 = Some r2 ∧
        Types.count (Mmu.ffl (Mmu.after r2)) = -2 ∧
        Observe.owners (Mmu.sm1 (Mmu.after r2)) 0
        = [Types.Pte 0 1 1; Types.Pte 0 1 2] ∧
        ¬ Observe.frames_invariant 1 (Mmu.after r2)).
Proof.
  split.
  - eexists _, _, _.
    split; [reflexivity|]. split.
    { split; [by vm_compute|]. intros fr Hfr. by replace fr with 0 by lia. }
    split; [reflexivity|]. split; [reflexivity|]. split.
    { split; [by vm_compute|]. intros fr Hfr. by replace fr with 0 by lia. }
    split; [reflexivity|]. split; [reflexivity|]. split; [reflexivity|].
    split; [reflexivity|]. split; [reflexivity|].
    intros [Hcount _]. vm_compute in Hcount.
    destruct Hcount as [Hc _]. by apply Hc.
  - eexists _, _, _.
    split; [reflexivity|]. split; [reflexivity|]. split; [reflexivity|].
    split; [reflexivity|]. split; [reflexivity|].
    intros [Hcount _]. vm_compute in Hcount.
    destruct Hcount as [Hc _]. by apply Hc.
Qed.

(** C4: what the code does on the scenario [k = 1, m = 2, f = 1], legal
    bound 2, references 0, 1, 0. Page 0 faults into frame 0 and the fault
    is handled. Page 1 faults with [count = 0]; [ffl_alloc] hands out
    frame 0 again, so the fault is handled by allocation, page 0 is not
    evicted and both pages are resident on frame 0. The third reference is
    therefore a hit on page 0: frame 0 is returned, no fault is handled
    and no notification is sent. The final resident set is
    [{page 0 -> frame 0, page 1 -> frame 0}]. The state [master_run]
    builds behaves the same way. *)
Theorem scenario_one_frame_two_pages :
  (∃ st0 r1 r2 r3,
      Master.initialized 1 2 1 = Some st0 ∧
      Mmu.resolve_access st0 0 0 2 2 = Some r1 ∧
      (Mmu.result r1, Mmu.pfh_out r1, Mmu.logged r1)
      = (0, 1, Mmu.LogAllocated 0 0 0 1) ∧
      Mmu.resolve_access (Mmu.after r1) 0 1 2 2 = Some r2 ∧
      (Mmu.result r2, Mmu.pfh_out r2, Mmu.logged r2)
      = (0, 1, Mmu.LogAllocated 0 1 0 2) ∧
      Observe.resident_set (Mmu.sm1 (Mmu.after r2)) 0 2 = [(0, 0); (1, 0)] ∧
      Mmu.resolve_access (Mmu.after r2) 0 0 2 2 = Some r3 ∧
      (Mmu.result r3, Mmu.pfh_out r3, Mmu.logged r3)
      = (0, 0, Mmu.LogHit 0 0 0 3) ∧
      Observe.resident_set (Mmu.sm1 (Mmu.after r3)) 0 2 = [(0, 0); (1, 0)] ∧
      Mmu.sent
        (Mmu.mmu_run 1 2 st0
           [Ipc.RecvMsg (Ipc.Msg Ipc.MSGTYPE_PROC_REQ 0 0 2 0);
            Ipc.RecvMsg (Ipc.Msg Ipc.MSGTYPE_PROC_REQ 0 1 2 0);
            Ipc.RecvMsg (Ipc.Msg Ipc.MSGTYPE_PROC_REQ 0 0 2 0)])
      = [Mmu.send_proc_reply 0 0; Mmu.notify_scheduler 0 1;
         Mmu.send_proc_reply 0 0; Mmu.notify_scheduler 0 1;
         Mmu.send_proc_reply 0 0])
  ∧ (∃ st0 r1 r2 r3,
        Master.simulation_start 1 2 1 = Some st0 ∧
        Mmu.resolve_access st0 0 0 2 2 = Some r1 ∧
        Mmu.logged r1 = Mmu.LogAllocated 0 0 0 1 ∧
        Mmu.resolve_access (Mmu.after r1) 0 1 2 2 = Some r2 ∧
        Mmu.logged r2 = Mmu.LogAllocated 0 1 0 2 ∧
        Mmu.resolve_access (Mmu.after r2) 0 0 2 2 = Some r3 ∧
        Mmu.logged r3 = Mmu.LogHit 0 0 0 3 ∧
        Observe.resident_set (Mmu.sm1 (Mmu.after r3)) 0 2 = [(0, 0); (1, 0)]).
Proof.
  split; eexists _, _, _, _; repeat (split; [reflexivity|]); reflexivity.
Qed.

(** On regions of the right sizes, a legal request whose bound does not
    exceed the table length is looked up inside the table of its
    process. *)
Lemma legal_lookup_in_table (k m f : Z) (st : Mmu.engine)
    (p_ind page_no m_req : Z) :
  Observe.well_formed k m f st → 0 ≤ p_ind < k →
  Memory.is_legal_page page_no m_req = 1 → m_req ≤ m →
  Types.pt_base_for_pid p_ind m ≤ Types.pte_addr p_ind m page_no
    < Types.pt_base_for_pid p_ind m + m ∧
  is_Some (Observe.lookup_pte (Mmu.sm1 st) p_ind m page_no).
Proof.
  intros Hwf Hp Hlegal%is_legal_page_true Hreq.
  split; [unfold Types.pte_addr; lia|].
  apply lookup_pte_in_table; [lia|lia|].
  destruct Hwf as [_ _ _ -> _ _ _]. nia.
Qed.

(** C10: what the code does on a legal request beyond the table. With
    [m = 2], the request [process_run] sends for page 2 of a reference
    string of length 3 carries the bound 3 and passes the legality check,
    and [resolve_access] looks up index 2 of a two-entry table. With one
    process that index is outside SM1 and the lookup has no defined
    result. With two processes it is entry 0 of the next process: once
    process 1 has its page 0 in frame 0, the request of process 0 is
    answered as a hit on frame 0 and stamps the entry of process 1. *)
Theorem legal_request_beyond_table :
  (∃ st0,
      Master.initialized 1 2 1 = Some st0 ∧
      Process.access_request 0 2 3 = Ipc.Msg Ipc.MSGTYPE_PROC_REQ 0 2 3 0 ∧
      Memory.is_legal_page 2 3 = 1 ∧
      ¬ (Types.pte_addr 0 2 2 < Types.pt_base_for_pid 0 2 + 2) ∧
      Observe.lookup_pte (Mmu.sm1 st0) 0 2 2 = None ∧
      Mmu.resolve_access st0 0 2 2 3 = None ∧
      Mmu.status
        (Mmu.mmu_run 1 2 st0 [Ipc.RecvMsg (Process.access_request 0 2 3)])
      = Mmu.Crashed)
  ∧ (∃ st0 r1 r2,
        Master.initialized 2 2 2 = Some st0 ∧
        Mmu.resolve_access st0 1 0 2 2 = Some r1 ∧
        Mmu.logged r1 = Mmu.LogAllocated 1 0 0 1 ∧
        Observe.lookup_pte (Mmu.sm1 (Mmu.after r1)) 1 2 0
        = Some (Types.Pte 0 1 1) ∧
        Memory.is_legal_page 2 3 = 1 ∧
        Types.pte_addr 0 2 2 = Types.pte_addr 1 2 0 ∧
        Mmu.resolve_access (Mmu.after r1) 0 2 2 3 = Some r2 ∧
        Mmu.logged r2 = Mmu.LogHit 0 2 0 2 ∧
        Observe.lookup_pte (Mmu.sm1 (Mmu.after r2)) 1 2 0
        = Some (Types.Pte 0 1 2)).
Proof.
  split.
  - eexists. split; [reflexivity|]. split; [reflexivity|].
    split; [reflexivity|]. split; [by vm_compute|].
    split; [reflexivity|]. split; reflexivity.
  - eexists _, _, _. repeat (split; [reflexivity|]). reflexivity.
Qed.

(** * Further properties of the code *)

(** ** The page-table store *)

Section PageTable.
Import CInt Region Types Memory Observe.
Implicit Types (pid m p page_no frame ts : Z).

Lemma pte_addr_in_table (sm1 : list pte_t) pid m p :
  0 ≤ pid → 0 ≤ p < m → pid * m + m ≤ Z.of_nat (length sm1) →
  0 ≤ pte_addr pid m p < Z.of_nat (length sm1).
Proof. intros. unfold pte_addr, pt_base_for_pid. nia. Qed.

Lemma lookup_pte_other (sm1 sm1' : list pte_t) pid m p q :
  (∀ i, i ≠ pte_addr pid m p → load sm1' i = load sm1 i) →
  q ≠ p → lookup_pte sm1' pid m q = lookup_pte sm1 pid m q.
Proof.
  intros Hsame Hne. apply Hsame. unfold pte_addr. lia.
Qed.

End PageTable.

(** X1: [pt_set_mapping] on a page of a table that lies in SM1, with a
    frame number that is not negative, returns 0, makes the entry
    [(frame, valid = 1, ts)] and changes no other entry; with a negative
    [pid], a page outside [0, m) or a negative frame it returns -1 and
    leaves SM1 as it was. *)
Theorem pt_set_mapping_sets_entry :
  (∀ (sm1 : list Types.pte_t) pid m page_no frame ts,
      0 ≤ pid → 0 ≤ page_no < m → 0 ≤ frame →
      pid * m + m ≤ Z.of_nat (length sm1) →
      ∃ sm1', Memory.pt_set_mapping sm1 pid m page_no frame ts = Some (0, sm1') ∧
              Observe.lookup_pte sm1' pid m page_no = Some (Types.Pte frame 1 ts) ∧
              (∀ i, i ≠ Types.pte_addr pid m page_no →
                    Region.load sm1' i = Region.load sm1 i) ∧
              length sm1' = length sm1)
  ∧ (∀ (sm1 : list Types.pte_t) pid m page_no frame ts,
        pid < 0 ∨ page_no < 0 ∨ m ≤ page_no ∨ frame < 0 →
        Memory.pt_set_mapping sm1 pid m page_no frame ts = Some (-1, sm1)).
Proof.
  split.
  - intros sm1 pid m page_no frame ts Hpid Hp Hfr Hlen.
    unfold Memory.pt_set_mapping.
    destruct (Z.ltb_spec pid 0); [lia|]. destruct (Z.leb_spec m 0); [lia|].
    destruct (Z.ltb_spec page_no 0); [lia|].
    destruct (Z.geb_spec page_no m); [lia|].
    destruct (Z.ltb_spec frame 0); [lia|]. simpl.
    pose proof (pte_addr_in_table sm1 pid m page_no Hpid Hp Hlen) as Hin.
    pose proof (store_in_range sm1 _ (Types.Pte frame 1 ts) Hin) as Hst.
    rewrite Hst. simpl. eexists. split; [done|]. split; [|split].
    + by apply (load_store_eq sm1).
    + intros i Hi. by apply (load_store_ne sm1 _ _ _ _ Hst).
    + apply length_insert.
  - intros sm1 pid m page_no frame ts Hbad. unfold Memory.pt_set_mapping.
    destruct (Z.ltb_spec pid 0), (Z.leb_spec m 0), (Z.ltb_spec page_no 0),
      (Z.geb_spec page_no m), (Z.ltb_spec frame 0); simpl; try done; lia.
Qed.

Lemma pt_set_mapping_sets_entry_witness :
  ∃ sm1', Memory.pt_set_mapping
            [Types.Pte (-1) 0 0; Types.Pte (-1) 0 0] 0 2 1 3 7 = Some (0, sm1') ∧
          Observe.lookup_pte sm1' 0 2 1 = Some (Types.Pte 3 1 7) ∧
          (∀ i, i ≠ Types.pte_addr 0 2 1 →
                Region.load sm1' i
                = Region.load [Types.Pte (-1) 0 0; Types.Pte (-1) 0 0] i) ∧
          length sm1' = length [Types.Pte (-1) 0 0; Types.Pte (-1) 0 0].
Proof.
  apply (proj1 pt_set_mapping_sets_entry); simpl; lia.
Defined.

(** X2: [pt_invalidate] on a page of a table that lies in SM1 returns 0,
    makes the entry [(frame_no = -1, valid = 0)] with [last_used] kept, and
    changes no other entry; a second call returns 0 again and changes
    nothing. *)
Theorem pt_invalidate_clears_entry
    (sm1 : list Types.pte_t) (pid m page_no : Z) (e : Types.pte_t) :
  0 ≤ pid → 0 ≤ page_no < m →
  Observe.lookup_pte sm1 pid m page_no = Some e →
  ∃ sm1', Memory.pt_invalidate sm1 pid m page_no = Some (0, sm1') ∧
          Observe.lookup_pte sm1' pid m page_no
          = Some (Types.Pte (-1) 0 (Types.last_used e)) ∧
          (∀ i, i ≠ Types.pte_addr pid m page_no →
                Region.load sm1' i = Region.load sm1 i) ∧
          length sm1' = length sm1 ∧
          Memory.pt_invalidate sm1' pid m page_no = Some (0, sm1').
Proof.
  intros Hpid Hp He.
  assert (Hguard : (pid <? 0) || (m <=? 0) || (page_no <? 0) || (page_no >=? m)
                   = false).
  { destruct (Z.ltb_spec pid 0), (Z.leb_spec m 0), (Z.ltb_spec page_no 0),
      (Z.geb_spec page_no m); simpl; try done; lia. }
  pose proof (load_bound _ _ _ He) as Hin.
  unfold Memory.pt_invalidate. rewrite Hguard.
  unfold Observe.lookup_pte in He. rewrite He. simpl.
  pose proof (store_in_range sm1 _ (Types.Pte (-1) 0 (Types.last_used e)) Hin)
    as Hst.
  rewrite Hst. simpl. eexists. split; [done|].
  pose proof (load_store_eq sm1 _ _ _ Hst) as Hnew.
  split; [done|]. split; [|split].
  - intros i Hi. by apply (load_store_ne sm1 _ _ _ _ Hst).
  - apply length_insert.
  - rewrite Hnew. simpl. unfold Region.store.
    rewrite length_insert.
    destruct (Z.leb_spec 0 (Types.pte_addr pid m page_no)); [|lia].
    destruct (Z.ltb_spec (Types.pte_addr pid m page_no) (Z.of_nat (length sm1)));
      [|lia].
    simpl. by rewrite list_insert_insert_eq.
Qed.

Lemma pt_invalidate_clears_entry_witness :
  ∃ sm1', Memory.pt_invalidate [Types.Pte 3 1 7; Types.Pte (-1) 0 0] 0 2 0
          = Some (0, sm1') ∧
          Observe.lookup_pte sm1' 0 2 0 = Some (Types.Pte (-1) 0 7) ∧
          (∀ i, i ≠ Types.pte_addr 0 2 0 →
                Region.load sm1' i
                = Region.load [Types.Pte 3 1 7; Types.Pte (-1) 0 0] i) ∧
          length sm1' = length [Types.Pte 3 1 7; Types.Pte (-1) 0 0] ∧
          Memory.pt_invalidate sm1' 0 2 0 = Some (0, sm1').
Proof.
  apply (pt_invalidate_clears_entry
           [Types.Pte 3 1 7; Types.Pte (-1) 0 0] 0 2 0 (Types.Pte 3 1 7));
    [lia|lia|reflexivity].
Defined.

(** X3: [pt_touch] on a resident page writes the new stamp and keeps the
    frame and the valid bit, changes no other entry, and a later touch
    overrides an earlier one; on a page that is not resident it returns -1
    and leaves SM1 as it was. *)
Theorem pt_touch_updates_stamp :
  (∀ (sm1 : list Types.pte_t) pid m page_no ts e,
      0 ≤ pid → 0 ≤ page_no < m →
      Observe.lookup_pte sm1 pid m page_no = Some e → Types.valid e ≠ 0 →
      ∃ sm1', Memory.pt_touch sm1 pid m page_no ts = Some (0, sm1') ∧
              Observe.lookup_pte sm1' pid m page_no
              = Some (Types.Pte (Types.frame_no e) (Types.valid e) ts) ∧
              (∀ i, i ≠ Types.pte_addr pid m page_no →
                    Region.load sm1' i = Region.load sm1 i) ∧
              (∀ ts', Memory.pt_touch sm1' pid m page_no ts'
                      = Memory.pt_touch sm1 pid m page_no ts'))
  ∧ (∀ (sm1 : list Types.pte_t) pid m page_no ts e,
        Observe.lookup_pte sm1 pid m page_no = Some e → Types.valid e = 0 →
        Memory.pt_touch sm1 pid m page_no ts = Some (-1, sm1)).
Proof.
  split.
  - intros sm1 pid m page_no ts e Hpid Hp He Hv.
    assert (Hguard : (pid <? 0) || (m <=? 0) || (page_no <? 0) || (page_no >=? m)
                     = false).
    { destruct (Z.ltb_spec pid 0), (Z.leb_spec m 0), (Z.ltb_spec page_no 0),
        (Z.geb_spec page_no m); simpl; try done; lia. }
    pose proof (load_bound _ _ _ He) as Hin.
    assert (Htouch : ∀ (t : list Types.pte_t) e0 ts0,
               Region.load t (Types.pte_addr pid m page_no) = Some e0 →
               Types.valid e0 ≠ 0 →
               Memory.pt_touch t pid m page_no ts0
               = Some (0, <[Z.to_nat (Types.pte_addr pid m page_no) :=
                             Types.Pte (Types.frame_no e0) (Types.valid e0) ts0]> t)).
    { intros t e0 ts0 He0 Hv0. unfold Memory.pt_touch. rewrite Hguard, He0. simpl.
      apply truthy_true in Hv0. rewrite Hv0. simpl.
      rewrite store_in_range by (by eapply load_bound). done. }
    unfold Observe.lookup_pte in *.
    rewrite (Htouch sm1 e ts He Hv). eexists. split; [done|].
    pose proof (store_in_range sm1 _
                  (Types.Pte (Types.frame_no e) (Types.valid e) ts) Hin) as Hst.
    pose proof (load_store_eq sm1 _ _ _ Hst) as Hnew.
    split; [done|]. split.
    + intros i Hi. by apply (load_store_ne sm1 _ _ _ _ Hst).
    + intros ts'. rewrite (Htouch _ _ ts' Hnew Hv), (Htouch sm1 e ts' He Hv).
      simpl. by rewrite list_insert_insert_eq.
  - intros sm1 pid m page_no ts e He Hv. unfold Memory.pt_touch.
    case_match; [done|]. unfold Observe.lookup_pte in He. rewrite He. simpl.
    apply truthy_false in Hv. by rewrite Hv.
Qed.

Lemma pt_touch_updates_stamp_witness :
  ∃ sm1', Memory.pt_touch [Types.Pte 3 1 7; Types.Pte (-1) 0 0] 0 2 0 9
          = Some (0, sm1') ∧
          Observe.lookup_pte sm1' 0 2 0 = Some (Types.Pte 3 1 9) ∧
          (∀ i, i ≠ Types.pte_addr 0 2 0 →
                Region.load sm1' i
                = Region.load [Types.Pte 3 1 7; Types.Pte (-1) 0 0] i) ∧
          (∀ ts', Memory.pt_touch sm1' 0 2 0 ts'
                  = Memory.pt_touch [Types.Pte 3 1 7; Types.Pte (-1) 0 0] 0 2 0 ts').
Proof.
  apply (proj1 pt_touch_updates_stamp
           [Types.Pte 3 1 7; Types.Pte (-1) 0 0] 0 2 0 9 (Types.Pte 3 1 7));
    [lia|lia|reflexivity|simpl; lia].
Defined.

Section PageTableSelector.
Import CInt Region Types Memory Observe.

Lemma pt_invalidate_effect (sm1 : list pte_t) (pid m p : Z) :
  0 ≤ pid → 0 ≤ p < m → pid * m + m ≤ Z.of_nat (length sm1) →
  ∃ sm1' e, pt_invalidate sm1 pid m p = Some (0, sm1') ∧
            lookup_pte sm1' pid m p = Some e ∧ valid e = 0 ∧
            (∀ i, i ≠ pte_addr pid m p → load sm1' i = load sm1 i) ∧
            length sm1' = length sm1.
Proof.
  intros Hpid Hp Hlen. unfold pt_invalidate.
  destruct (Z.ltb_spec pid 0); [lia|]. destruct (Z.leb_spec m 0); [lia|].
  destruct (Z.ltb_spec p 0); [lia|]. destruct (Z.geb_spec p m); [lia|]. simpl.
  pose proof (pte_addr_in_table sm1 pid m p Hpid Hp Hlen) as Hin.
  destruct (load_in_range sm1 _ Hin) as [e ->]. simpl.
  pose proof (store_in_range sm1 _ (Pte (-1) 0 (last_used e)) Hin) as Hst.
  rewrite Hst. simpl. eexists _, _. split; [done|].
  split; [by apply (load_store_eq sm1)|]. split; [done|]. split.
  - intros i Hi. by apply (load_store_ne sm1 _ _ _ _ Hst).
  - apply length_insert.
Qed.

End PageTableSelector.

(** X4: once a page of a process has been invalidated, the selector does
    not return it; it returns "none" exactly when no other page of the
    process was valid, and otherwise a page that was valid before. *)
Theorem invalidated_page_is_not_chosen
    (sm1 : list Types.pte_t) (pid m p : Z) :
  0 ≤ pid → 0 ≤ p < m → pid * m + m ≤ Z.of_nat (length sm1) →
  ∃ sm1' v,
    Memory.pt_invalidate sm1 pid m p = Some (0, sm1') ∧
    Memory.choose_lru_victim_local sm1' pid m = Some v ∧
    v ≠ p ∧
    (v = -1 ↔ ∀ q, 0 ≤ q < m → q ≠ p → ¬ Observe.marked_valid sm1 pid m q) ∧
    (v ≠ -1 → Observe.marked_valid sm1 pid m v).
Proof.
  intros Hpid Hp Hlen.
  destruct (pt_invalidate_effect sm1 pid m p) as (sm1' & e & Hinv & He & Hv & Hoth & Hl);
    [done..|].
  assert (Hmv : ∀ q, q ≠ p →
            Observe.marked_valid sm1' pid m q ↔ Observe.marked_valid sm1 pid m q).
  { intros q Hq. unfold Observe.marked_valid.
    by rewrite (lookup_pte_other sm1 sm1' pid m p q Hoth Hq). }
  assert (Hnp : ¬ Observe.marked_valid sm1' pid m p).
  { intros (e' & He' & Hv'). congruence. }
  destruct (choose_lru_victim_local_scanned sm1' pid m) as ([v ts] & Hrun & Hsc);
    [done|lia|lia|].
  unfold Observe.scanned in Hsc. simpl in *.
  exists sm1', v. split; [done|]. split; [done|].
  destruct Hsc as [[-> Hall] | [(Hr & Hvv & _) _]].
  - split; [lia|]. split; [|done]. split; [|done].
    intros _ q Hq Hne Hmq. apply (Hall q Hq). by apply Hmv.
  - assert (v ≠ p) as Hne by (intros ->; done).
    split; [done|]. split.
    + split; [lia|]. intros Hall. exfalso. apply (Hall v); [lia|done|].
      by apply Hmv.
    + intros _. by apply Hmv.
Qed.

Lemma invalidated_page_is_not_chosen_witness :
  ∃ sm1' v,
    Memory.pt_invalidate [Types.Pte 3 1 7; Types.Pte 4 1 9] 0 2 0 = Some (0, sm1') ∧
    Memory.choose_lru_victim_local sm1' 0 2 = Some v ∧
    v ≠ 0 ∧
    (v = -1 ↔ ∀ q, 0 ≤ q < 2 → q ≠ 0 →
              ¬ Observe.marked_valid [Types.Pte 3 1 7; Types.Pte 4 1 9] 0 2 q) ∧
    (v ≠ -1 → Observe.marked_valid [Types.Pte 3 1 7; Types.Pte 4 1 9] 0 2 v).
Proof.
  apply (invalidated_page_is_not_chosen
           [Types.Pte 3 1 7; Types.Pte 4 1 9] 0 2 0); simpl; lia.
Defined.

(** X5: [pt_init_all] with [k, m > 0] on a segment of [k * m] entries
    returns 0 and sets every entry to [(frame_no = -1, valid = 0,
    last_used = 0)], so that the selector finds no victim for any process;
    with [k ≤ 0] or [m ≤ 0] it returns -1 and writes nothing. *)
Theorem pt_init_all_clears_every_table :
  (∀ (sm1 : list Types.pte_t) k m,
      0 < k → 0 < m → Z.of_nat (length sm1) = k * m →
      ∃ sm1', Memory.pt_init_all sm1 k m = Some (0, sm1') ∧
              length sm1' = length sm1 ∧
              (∀ pid p, 0 ≤ pid < k → 0 ≤ p < m →
                        Observe.lookup_pte sm1' pid m p
                        = Some (Types.Pte (-1) 0 0)) ∧
              (∀ pid, 0 ≤ pid < k →
                      Memory.choose_lru_victim_local sm1' pid m = Some (-1)))
  ∧ (∀ (sm1 : list Types.pte_t) k m,
        k ≤ 0 ∨ m ≤ 0 → Memory.pt_init_all sm1 k m = Some (-1, sm1)).
Proof.
  split.
  - intros sm1 k m Hk Hm Hlen.
    rewrite pt_init_all_clears by done. eexists. split; [done|].
    assert (Hl : length (replicate (Z.to_nat (k * m)) (Types.Pte (-1) 0 0))
                 = length sm1) by (rewrite length_replicate; lia).
    split; [done|].
    assert (Hent : ∀ pid p, 0 ≤ pid < k → 0 ≤ p < m →
              Observe.lookup_pte (replicate (Z.to_nat (k * m)) (Types.Pte (-1) 0 0))
                pid m p = Some (Types.Pte (-1) 0 0)).
    { intros pid p Hpid Hp. apply load_Some.
      assert (0 ≤ Types.pte_addr pid m p < k * m)
        by (unfold Types.pte_addr, Types.pt_base_for_pid; nia).
      split; [lia|]. apply lookup_replicate_2. lia. }
    split; [done|].
    intros pid Hpid.
    destruct (choose_lru_victim_local_scanned
                (replicate (Z.to_nat (k * m)) (Types.Pte (-1) 0 0)) pid m)
      as ([v ts] & Hrun & Hsc); [lia|lia|rewrite Hl; nia|].
    unfold Observe.scanned in Hsc. simpl in *. rewrite Hrun.
    destruct Hsc as [[-> _] | [(Hr & (e & He & Hv) & _) _]]; [done|].
    rewrite Hent in He by lia. injection He as <-. done.
  - intros sm1 k m Hbad. unfold Memory.pt_init_all.
    destruct (Z.leb_spec k 0), (Z.leb_spec m 0); simpl; try done; lia.
Qed.

Lemma pt_init_all_clears_every_table_witness :
  ∃ sm1', Memory.pt_init_all (Master.fresh_sm1 2 3) 2 3 = Some (0, sm1') ∧
          length sm1' = length (Master.fresh_sm1 2 3) ∧
          (∀ pid p, 0 ≤ pid < 2 → 0 ≤ p < 3 →
                    Observe.lookup_pte sm1' pid 3 p = Some (Types.Pte (-1) 0 0)) ∧
          (∀ pid, 0 ≤ pid < 2 →
                  Memory.choose_lru_victim_local sm1' pid 3 = Some (-1)).
Proof.
  apply (proj1 pt_init_all_clears_every_table (Master.fresh_sm1 2 3) 2 3);
    [lia|lia|reflexivity].
Defined.

(** ** The free-frame list as a queue *)

Section Ring.
Import CInt Region Types Memory Observe.
Implicit Types (pool : free_frame_list_t) (f h c i x : Z).

Lemma ring_slot_distinct f h i c :
  0 < f → 0 ≤ i < c → c < f → (h + i) `mod` f ≠ (h + c) `mod` f.
Proof.
  intros Hf Hi Hc Heq.
  assert ((c - i) `mod` f = 0) as Hz.
  { replace (c - i) with ((h + c) - (h + i)) by lia.
    rewrite Zminus_mod, Heq, Z.sub_diag. apply Z.mod_0_l. lia. }
  rewrite Z.mod_small in Hz by lia. lia.
Qed.

Lemma c_mod_mod a f : 0 ≤ a → 0 < f → c_mod a f = Some (a `mod` f).
Proof.
  intros Ha Hf. unfold c_mod. destruct (Z.eqb_spec f 0); [lia|].
  by rewrite Z.rem_mod_nonneg by lia.
Qed.

Lemma seqZ_shift n : seqZ 1 n = Z.add 1 <$> seqZ 0 n.
Proof. by rewrite fmap_add_seqZ. Qed.

Lemma pool_contents_alloc f pool :
  ring_consistent f pool → 0 < count pool →
  ∃ fr pool', ffl_alloc pool = Some (fr, pool') ∧
              pool_contents pool = fr :: pool_contents pool' ∧
              ring_consistent f pool' ∧
              count pool' = count pool - 1 ∧ frames pool' = frames pool.
Proof.
  intros (Hf & Htot & Hlen & Hhd & Hc & Htl) Hpos. unfold ffl_alloc.
  rewrite Htot. destruct (Z.gtb_spec (count pool) f); [lia|].
  destruct (load_in_range (frames pool) (head pool)) as [idx Hidx]; [lia|].
  rewrite Hidx. simpl.
  rewrite (wrap_in_range (head pool + 1)), (wrap_in_range (count pool - 1))
    by (unfold INT_MIN, INT_MAX in *; lia).
  rewrite c_mod_mod by lia. simpl. eexists _, _. split; [done|].
  split; [|split; [|done]].
  - unfold pool_contents. simpl. rewrite Htot.
    rewrite (seqZ_cons 0 (count pool)) by lia.
    change (Z.succ 0) with 1. rewrite seqZ_shift, fmap_cons, <- list_fmap_compose.
    f_equal.
    + rewrite Z.add_0_r, Z.mod_small by lia. by rewrite Hidx.
    + replace (Z.pred (count pool)) with (count pool - 1) by lia.
      apply list_fmap_ext. intros j y _. simpl.
      rewrite Z.add_mod_idemp_l by lia. do 3 f_equal. lia.
  - repeat split; simpl; try lia.
    + apply Z.mod_pos_bound. lia.
    + apply Z.mod_pos_bound. lia.
    + rewrite Htl, Z.add_mod_idemp_l by lia. f_equal. lia.
Qed.

Lemma pool_contents_free f pool x :
  ring_consistent f pool → count pool < f → 0 ≤ x < f →
  ∃ pool', ffl_free pool x = Some (0, pool') ∧
           pool_contents pool' = pool_contents pool ++ [x] ∧
           ring_consistent f pool' ∧ count pool' = count pool + 1 ∧
           head pool' = head pool.
Proof.
  intros (Hf & Htot & Hlen & Hhd & Hc & Htl) Hroom Hx. unfold ffl_free.
  rewrite Htot. destruct (Z.ltb_spec x 0); [lia|].
  destruct (Z.geb_spec x f); [lia|]. simpl.
  destruct (Z.geb_spec (count pool) f); [lia|].
  assert (0 ≤ tail pool < f) as Htr by (rewrite Htl; apply Z.mod_pos_bound; lia).
  assert (Hst : store (frames pool) (tail pool) x
                = Some (<[Z.to_nat (tail pool) := x]> (frames pool)))
    by (apply store_in_range; lia).
  rewrite Hst. simpl.
  rewrite (wrap_in_range (tail pool + 1)), (wrap_in_range (count pool + 1))
    by (unfold INT_MIN, INT_MAX in *; lia).
  rewrite c_mod_mod by lia. simpl. eexists. split; [done|].
  split; [|split; [|done]].
  - unfold pool_contents. simpl. rewrite Htot.
    rewrite (seqZ_app 0 (count pool) 1), fmap_app by lia. f_equal.
    + apply list_fmap_ext. intros j y [-> Hj]%lookup_seqZ. simpl.
      rewrite (load_store_ne _ _ _ _ _ Hst); [done|].
      rewrite Htl. intros Heq. symmetry in Heq. revert Heq.
      apply ring_slot_distinct; lia.
    + rewrite (seqZ_cons _ 1), seqZ_nil by lia. simpl.
      replace (head pool + (0 + count pool)) with (head pool + count pool) by lia.
      rewrite <- Htl. by rewrite (load_store_eq _ _ _ _ Hst).
  - repeat split; simpl; try lia;
      first [ by rewrite length_insert
            | rewrite Htl, Z.add_mod_idemp_l by lia; f_equal; lia ].
Qed.

Lemma load_seqZ f x : 0 ≤ x < f → load (seqZ 0 f) x = Some x.
Proof.
  intros Hx. apply load_Some. split; [lia|].
  rewrite lookup_seqZ_lt by lia. f_equal. lia.
Qed.

Lemma pool_contents_full f t :
  0 < f → pool_contents (Ffl f f 0 t (seqZ 0 f)) = seqZ 0 f.
Proof.
  intros Hf. unfold pool_contents. simpl.
  rewrite <- (list_fmap_id (seqZ 0 f)) at 2.
  apply list_fmap_ext. intros j y [-> Hj]%lookup_seqZ. simpl.
  rewrite Z.mod_small by lia. by rewrite load_seqZ by lia.
Qed.

Lemma alloc_many_ring f n : 0 < f ≤ INT_MAX → ∀ pool,
  total_frames pool = f → frames pool = seqZ 0 f → 0 ≤ head pool < f →
  count pool ≤ f → INT_MIN ≤ count pool - Z.of_nat n →
  ∃ pool', alloc_many n pool
           = Some ((λ i, (head pool + i) `mod` f) <$> seqZ 0 (Z.of_nat n), pool') ∧
           total_frames pool' = f ∧ frames pool' = seqZ 0 f ∧
           head pool' = (head pool + Z.of_nat n) `mod` f ∧
           count pool' = count pool - Z.of_nat n ∧ tail pool' = tail pool.
Proof.
  intros Hf. induction n as [|n IH]; intros pool Htot Hfr Hhd Hc Hmin.
  - simpl. eexists. split; [done|]. repeat split; try done.
    + rewrite Z.add_0_r, Z.mod_small; lia.
    + lia.
  - simpl. unfold ffl_alloc at 1. rewrite Htot.
    destruct (Z.gtb_spec (count pool) f); [lia|].
    rewrite Hfr, load_seqZ by lia. simpl.
    rewrite (wrap_in_range (head pool + 1)), (wrap_in_range (count pool - 1))
      by (unfold INT_MIN, INT_MAX in *; lia).
    rewrite c_mod_mod by lia. simpl.
    destruct (IH (Ffl f (count pool - 1) ((head pool + 1) `mod` f) (tail pool)
                      (seqZ 0 f)))
      as (pool' & -> & Ht' & Hf' & Hh' & Hc' & Htl'); simpl; try done.
    { apply Z.mod_pos_bound. lia. }
    { lia. }
    { lia. }
    simpl in *. eexists. split.
    + f_equal. f_equal.
      rewrite (seqZ_cons 0 (Z.of_nat (S n))) by lia.
      change (Z.succ 0) with 1.
      replace (Z.pred (Z.of_nat (S n))) with (Z.of_nat n) by lia.
      rewrite seqZ_shift, fmap_cons, <- list_fmap_compose. f_equal.
      * rewrite Z.add_0_r, Z.mod_small; lia.
      * apply list_fmap_ext. intros j y _. simpl.
        rewrite Z.add_mod_idemp_l by lia. f_equal. lia.
    + repeat split; try done.
      * rewrite Hh', Z.add_mod_idemp_l by lia. f_equal. lia.
      * lia.
Qed.

End Ring.

(** X6: [ffl_init] with [0 < f] on a ring of [f] slots returns 0 and
    leaves a full pool: [count = f], the frames [0 .. f-1] in this order,
    cursors in good order; every [ffl_free] on it is refused with -1 and
    changes nothing. With [f ≤ 0] it returns -1 and writes nothing. *)
Theorem ffl_init_fills_pool :
  (∀ (pool : Types.free_frame_list_t) f,
      0 < f ≤ CInt.INT_MAX → Z.of_nat (length (Types.frames pool)) = f →
      ∃ pool', Memory.ffl_init pool f = Some (0, pool') ∧
               Types.count pool' = f ∧
               Observe.pool_contents pool' = seqZ 0 f ∧
               Observe.ring_consistent f pool' ∧
               (∀ x, Memory.ffl_free pool' x = Some (-1, pool')))
  ∧ (∀ (pool : Types.free_frame_list_t) f,
        f ≤ 0 → Memory.ffl_init pool f = Some (-1, pool)).
Proof.
  split.
  - intros pool f Hf Hlen. rewrite ffl_init_full by lia.
    eexists. split; [done|]. split; [done|].
    split; [apply pool_contents_full; lia|]. split.
    + repeat split; simpl; try lia.
      * rewrite length_seqZ. lia.
      * by rewrite Z_mod_same_full.
    + intros x. unfold Memory.ffl_free. simpl.
      destruct ((x <? 0) || (x >=? f)); [done|].
      destruct (Z.geb_spec f f); [done|lia].
  - intros pool f Hf. unfold Memory.ffl_init.
    destruct (Z.leb_spec f 0); [done|lia].
Qed.

Lemma ffl_init_fills_pool_witness :
  ∃ pool', Memory.ffl_init (Master.fresh_sm2 3) 3 = Some (0, pool') ∧
           Types.count pool' = 3 ∧
           Observe.pool_contents pool' = seqZ 0 3 ∧
           Observe.ring_consistent 3 pool' ∧
           (∀ x, Memory.ffl_free pool' x = Some (-1, pool')).
Proof.
  apply (proj1 ffl_init_fills_pool (Master.fresh_sm2 3) 3);
    [unfold CInt.INT_MAX; lia|reflexivity].
Defined.

(** X7: on a pool in good order that holds at least one frame,
    [ffl_alloc] returns the oldest frame of the pool, the one at [head],
    and leaves the others in their order, with [count] one less and the
    ring slots untouched. *)
Theorem ffl_alloc_takes_oldest (f : Z) (pool : Types.free_frame_list_t) :
  Observe.ring_consistent f pool → 0 < Types.count pool →
  ∃ fr pool', Memory.ffl_alloc pool = Some (fr, pool') ∧
              Observe.pool_contents pool = fr :: Observe.pool_contents pool' ∧
              Observe.ring_consistent f pool' ∧
              Types.count pool' = Types.count pool - 1 ∧
              Types.frames pool' = Types.frames pool.
Proof.
  intros Hring Hpos.
  destruct (pool_contents_alloc f pool Hring Hpos)
    as (fr & pool' & Ha & Hc & Hr & Hn & Hfr).
  by exists fr, pool'.
Qed.

Lemma ffl_alloc_takes_oldest_witness :
  ∃ fr pool', Memory.ffl_alloc (Types.Ffl 3 2 1 0 [0; 1; 2]) = Some (fr, pool') ∧
              Observe.pool_contents (Types.Ffl 3 2 1 0 [0; 1; 2])
              = fr :: Observe.pool_contents pool' ∧
              Observe.ring_consistent 3 pool' ∧
              Types.count pool' = Types.count (Types.Ffl 3 2 1 0 [0; 1; 2]) - 1 ∧
              Types.frames pool' = Types.frames (Types.Ffl 3 2 1 0 [0; 1; 2]).
Proof.
  apply (ffl_alloc_takes_oldest 3 (Types.Ffl 3 2 1 0 [0; 1; 2])).
  - repeat split; simpl; unfold CInt.INT_MAX; lia.
  - simpl. lia.
Defined.

(** X8: on a pool in good order that is not full, [ffl_free] of a frame
    number in [0, f) returns 0 and puts the frame behind the frames the
    pool holds, with [count] one more. A frame number outside
    [0, total_frames), or a pool whose count has reached [total_frames],
    gives -1 and no change. *)
Theorem ffl_free_appends :
  (∀ f (pool : Types.free_frame_list_t) x,
      Observe.ring_consistent f pool → Types.count pool < f → 0 ≤ x < f →
      ∃ pool', Memory.ffl_free pool x = Some (0, pool') ∧
               Observe.pool_contents pool' = Observe.pool_contents pool ++ [x] ∧
               Observe.ring_consistent f pool' ∧
               Types.count pool' = Types.count pool + 1)
  ∧ (∀ (pool : Types.free_frame_list_t) x,
        x < 0 ∨ Types.total_frames pool ≤ x ∨
        Types.total_frames pool ≤ Types.count pool →
        Memory.ffl_free pool x = Some (-1, pool)).
Proof.
  split.
  - intros f pool x Hring Hroom Hx.
    destruct (pool_contents_free f pool x Hring Hroom Hx)
      as (pool' & Hfree & Hc & Hr & Hn & _).
    by exists pool'.
  - intros pool x Hbad. unfold Memory.ffl_free.
    destruct (Z.ltb_spec x 0), (Z.geb_spec x (Types.total_frames pool)),
      (Z.geb_spec (Types.count pool) (Types.total_frames pool));
      simpl; try done; lia.
Qed.

Lemma ffl_free_appends_witness :
  ∃ pool', Memory.ffl_free (Types.Ffl 3 1 2 0 [0; 1; 2]) 0 = Some (0, pool') ∧
           Observe.pool_contents pool'
           = Observe.pool_contents (Types.Ffl 3 1 2 0 [0; 1; 2]) ++ [0] ∧
           Observe.ring_consistent 3 pool' ∧
           Types.count pool' = Types.count (Types.Ffl 3 1 2 0 [0; 1; 2]) + 1.
Proof.
  apply (proj1 ffl_free_appends 3 (Types.Ffl 3 1 2 0 [0; 1; 2]) 0).
  - repeat split; simpl; unfold CInt.INT_MAX; lia.
  - simpl. lia.
  - lia.
Defined.

(** X9: a pool in good order is drained in first-in first-out order:
    [count] calls of [ffl_alloc] in a row return the frames the pool
    holds, oldest first, and leave [count = 0]. *)
Theorem ffl_alloc_drains_in_order (f : Z) (pool : Types.free_frame_list_t) :
  Observe.ring_consistent f pool →
  ∃ pool', Observe.alloc_many (Z.to_nat (Types.count pool)) pool
           = Some (Observe.pool_contents pool, pool') ∧
           Types.count pool' = 0 ∧ Observe.ring_consistent f pool'.
Proof.
  remember (Z.to_nat (Types.count pool)) as n eqn:Hn.
  revert pool Hn. induction n as [|n IH]; intros pool Hn Hring.
  - assert (Types.count pool = 0) as Hz by (destruct Hring as (_&_&_&_&?&_); lia).
    simpl. exists pool. unfold Observe.pool_contents. rewrite Hz. done.
  - destruct (pool_contents_alloc f pool Hring) as (fr & p1 & Ha & Hc & Hr & Hcnt & _);
      [lia|].
    destruct (IH p1) as (p2 & Hm & Hz & Hr2); [lia|done|].
    simpl. rewrite Ha. simpl. rewrite Hm. simpl. exists p2. by rewrite Hc.
Qed.

Lemma ffl_alloc_drains_in_order_witness :
  ∃ pool', Observe.alloc_many
             (Z.to_nat (Types.count (Types.Ffl 3 2 2 1 [7; 1; 5])))
             (Types.Ffl 3 2 2 1 [7; 1; 5])
           = Some (Observe.pool_contents (Types.Ffl 3 2 2 1 [7; 1; 5]), pool') ∧
           Types.count pool' = 0 ∧ Observe.ring_consistent 3 pool'.
Proof.
  apply (ffl_alloc_drains_in_order 3 (Types.Ffl 3 2 2 1 [7; 1; 5])).
  repeat split; simpl; unfold CInt.INT_MAX; lia.
Defined.

(** X10: after [ffl_init], [n] calls of [ffl_alloc] in a row never fail:
    the [i]-th call (from 0) returns frame [i mod f], so the frames come
    out as [0 .. f-1] and then again from 0, and [count] ends at
    [f - n], below zero once [n] exceeds [f]. *)
Theorem ffl_alloc_round_robin (pool : Types.free_frame_list_t) (f : Z) (n : nat) :
  0 < f ≤ CInt.INT_MAX → Z.of_nat (length (Types.frames pool)) = f →
  Z.of_nat n ≤ CInt.INT_MAX →
  ∃ pool0 pool',
    Memory.ffl_init pool f = Some (0, pool0) ∧
    Observe.alloc_many n pool0
    = Some ((λ i, i `mod` f) <$> seqZ 0 (Z.of_nat n), pool') ∧
    Types.count pool' = f - Z.of_nat n ∧
    Types.head pool' = Z.of_nat n `mod` f.
Proof.
  intros Hf Hlen Hn. rewrite ffl_init_full by lia.
  destruct (alloc_many_ring f n Hf (Types.Ffl f f 0 0 (seqZ 0 f)))
    as (pool' & Hm & _ & _ & Hh & Hc & _); simpl; try done; try lia.
  { unfold CInt.INT_MIN, CInt.INT_MAX in *. lia. }
  simpl in *. eexists _, pool'. split; [done|]. split; [|done].
  rewrite Hm. do 2 f_equal.
Qed.

Lemma ffl_alloc_round_robin_witness :
  ∃ pool0 pool',
    Memory.ffl_init (Master.fresh_sm2 2) 2 = Some (0, pool0) ∧
    Observe.alloc_many 5 pool0
    = Some ((λ i, i `mod` 2) <$> seqZ 0 (Z.of_nat 5), pool') ∧
    Types.count pool' = 2 - Z.of_nat 5 ∧
    Types.head pool' = Z.of_nat 5 `mod` 2.
Proof.
  apply (ffl_alloc_round_robin (Master.fresh_sm2 2) 2 5);
    [unfold CInt.INT_MAX; lia|reflexivity|unfold CInt.INT_MAX; lia].
Defined.

(** ** The ways out of [resolve_access] *)

Section Exits.
Import CInt Region Types Memory Mmu Observe.
Implicit Types (st : engine) (p_ind page_no m m_req pid p : Z).

Lemma legal_truthy page_no m_req :
  0 ≤ page_no < m_req → truthy (is_legal_page page_no m_req) = true.
Proof. intros H. apply is_legal_page_true in H. by rewrite H. Qed.

Lemma pt_set_mapping_done (sm1 : list pte_t) pid m p fr ts :
  0 ≤ pid → 0 ≤ p < m → 0 ≤ fr →
  0 ≤ pte_addr pid m p < Z.of_nat (length sm1) →
  pt_set_mapping sm1 pid m p fr ts
  = Some (0, <[Z.to_nat (pte_addr pid m p) := Pte fr 1 ts]> sm1).
Proof.
  intros Hpid Hp Hfr Hin. unfold pt_set_mapping.
  destruct (Z.ltb_spec pid 0); [lia|]. destruct (Z.leb_spec m 0); [lia|].
  destruct (Z.ltb_spec p 0); [lia|]. destruct (Z.geb_spec p m); [lia|].
  destruct (Z.ltb_spec fr 0); [lia|]. simpl.
  by rewrite store_in_range.
Qed.

Lemma pt_invalidate_done (sm1 : list pte_t) pid m p e :
  0 ≤ pid → 0 ≤ p < m → load sm1 (pte_addr pid m p) = Some e →
  pt_invalidate sm1 pid m p
  = Some (0, <[Z.to_nat (pte_addr pid m p) := Pte (-1) 0 (last_used e)]> sm1).
Proof.
  intros Hpid Hp He. unfold pt_invalidate.
  destruct (Z.ltb_spec pid 0); [lia|]. destruct (Z.leb_spec m 0); [lia|].
  destruct (Z.ltb_spec p 0); [lia|]. destruct (Z.geb_spec p m); [lia|]. simpl.
  rewrite He. simpl. by rewrite store_in_range by (by eapply load_bound).
Qed.

Lemma load_insert_eq {A} (mem : list A) i x :
  0 ≤ i < Z.of_nat (length mem) → load (<[Z.to_nat i := x]> mem) i = Some x.
Proof. intros Hi. apply (load_store_eq mem). by apply store_in_range. Qed.

Lemma load_insert_ne {A} (mem : list A) i j x :
  0 ≤ i → i ≠ j → load (<[Z.to_nat i := x]> mem) j = load mem j.
Proof.
  intros Hi Hne. unfold load. destruct (Z.ltb_spec j 0); [done|].
  apply list_lookup_insert_ne. lia.
Qed.

(** Writes of the two mutators stay inside the table of [pid]. *)
Lemma pt_set_mapping_frame (sm1 sm1' : list pte_t) pid m p fr ts rc i :
  pt_set_mapping sm1 pid m p fr ts = Some (rc, sm1') →
  ¬ (pt_base_for_pid pid m ≤ i < pt_base_for_pid pid m + m) →
  load sm1' i = load sm1 i.
Proof.
  unfold pt_set_mapping. intros H Hout.
  destruct ((pid <? 0) || (m <=? 0) || (p <? 0) || (p >=? m) || (fr <? 0)) eqn:Hg.
  - by injection H as _ <-.
  - repeat (apply orb_false_elim in Hg as [Hg ?]).
    destruct (store sm1 (pte_addr pid m p) (Pte fr 1 ts)) as [t|] eqn:Hst;
      [|done].
    simpl in H. injection H as _ <-.
    apply (load_store_ne sm1 _ _ _ _ Hst). unfold pte_addr. lia.
Qed.

Lemma pt_invalidate_frame (sm1 sm1' : list pte_t) pid m p rc i :
  pt_invalidate sm1 pid m p = Some (rc, sm1') →
  ¬ (pt_base_for_pid pid m ≤ i < pt_base_for_pid pid m + m) →
  load sm1' i = load sm1 i.
Proof.
  unfold pt_invalidate. intros H Hout.
  destruct ((pid <? 0) || (m <=? 0) || (p <? 0) || (p >=? m)) eqn:Hg.
  - by injection H as _ <-.
  - repeat (apply orb_false_elim in Hg as [Hg ?]).
    destruct (load sm1 (pte_addr pid m p)) as [e|]; [simpl in H|done].
    destruct (store sm1 (pte_addr pid m p) _) as [t|] eqn:Hst; [|done].
    simpl in H. injection H as _ <-.
    apply (load_store_ne sm1 _ _ _ _ Hst). unfold pte_addr. lia.
Qed.

Lemma resolve_access_frame st p_ind page_no m m_req r i :
  page_no < m →
  resolve_access st p_ind page_no m m_req = Some r →
  ¬ (pt_base_for_pid p_ind m ≤ i < pt_base_for_pid p_ind m + m) →
  load (sm1 (after r)) i = load (sm1 st) i.
Proof.
  intros Hpage H Hout. unfold resolve_access in H.
  destruct (truthy (is_legal_page page_no m_req)) eqn:Hlegal; simpl in H.
  2:{ by injection H as <-. }
  assert (0 ≤ page_no) as Hp0.
  { apply truthy_true in Hlegal. unfold is_legal_page in Hlegal.
    destruct (Z.geb_spec page_no 0); [lia|done]. }
  destruct (load (sm1 st) (pte_addr p_ind m page_no)) as [pte|]; [simpl in H|done].
  destruct (valid pte >? 0).
  { destruct (store (sm1 st) _ _) as [t|] eqn:Hst; [simpl in H|done].
    injection H as <-. simpl.
    apply (load_store_ne _ _ _ _ _ Hst). unfold pte_addr. lia. }
  destruct (ffl_alloc (ffl st)) as [[fr pool']|]; [simpl in H|done].
  destruct (fr >=? 0).
  { destruct (pt_set_mapping _ _ _ _ _ _) as [[rc t]|] eqn:Hset; [simpl in H|done].
    injection H as <-. simpl. by eapply pt_set_mapping_frame. }
  destruct (choose_lru_victim_local _ _ _) as [v|]; [simpl in H|done].
  destruct (v <? 0).
  { by injection H as <-. }
  destruct (load (sm1 st) (pte_addr p_ind m v)) as [vpte|]; [simpl in H|done].
  destruct (pt_invalidate _ _ _ _) as [[rc t]|] eqn:Hinv; [simpl in H|done].
  destruct (pt_set_mapping _ _ _ _ _ _) as [[rc' t']|] eqn:Hset; [simpl in H|done].
  injection H as <-. simpl.
  rewrite (pt_set_mapping_frame _ _ _ _ _ _ _ _ _ Hset Hout).
  by eapply pt_invalidate_frame.
Qed.

End Exits.

(** X11: a hit. A legal request for a page whose entry has [valid > 0]
    returns the frame of the entry with [*pfh_out = 0], advances [g_ts] by
    one, stamps the entry with the new [g_ts] and changes nothing else:
    no other entry, and not the free-frame list. *)
Theorem resolve_access_hit
    (st : Mmu.engine) (p_ind page_no m m_req : Z) (e : Types.pte_t) :
  0 ≤ page_no < m_req →
  Observe.lookup_pte (Mmu.sm1 st) p_ind m page_no = Some e →
  0 < Types.valid e →
  ∃ r, Mmu.resolve_access st p_ind page_no m m_req = Some r ∧
       Mmu.result r = Types.frame_no e ∧ Mmu.pfh_out r = 0 ∧
       Mmu.logged r = Mmu.LogHit p_ind page_no (Types.frame_no e)
                                 (CInt.wrap (Mmu.g_ts st + 1)) ∧
       Mmu.g_ts (Mmu.after r) = CInt.wrap (Mmu.g_ts st + 1) ∧
       Mmu.ffl (Mmu.after r) = Mmu.ffl st ∧
       Observe.lookup_pte (Mmu.sm1 (Mmu.after r)) p_ind m page_no
       = Some (Types.Pte (Types.frame_no e) (Types.valid e)
                         (CInt.wrap (Mmu.g_ts st + 1))) ∧
       (∀ i, i ≠ Types.pte_addr p_ind m page_no →
             Region.load (Mmu.sm1 (Mmu.after r)) i = Region.load (Mmu.sm1 st) i).
Proof.
  intros Hlegal He Hv. unfold Mmu.resolve_access.
  rewrite legal_truthy by done. simpl.
  unfold Observe.lookup_pte in *. rewrite He. simpl.
  destruct (Z.gtb_spec (Types.valid e) 0); [|lia].
  pose proof (load_bound _ _ _ He) as Hin.
  rewrite store_in_range by done. simpl. eexists. split; [done|]. simpl.
  repeat split.
  - by apply load_insert_eq.
  - intros i Hi. apply load_insert_ne; [lia|done].
Qed.

Lemma resolve_access_hit_witness :
  ∃ r, Mmu.resolve_access
         (Mmu.Engine [Types.Pte 0 1 1; Types.Pte (-1) 0 0]
                     (Types.Ffl 1 0 0 0 [0]) 1) 0 0 2 2 = Some r ∧
       Mmu.result r = Types.frame_no (Types.Pte 0 1 1) ∧ Mmu.pfh_out r = 0 ∧
       Mmu.logged r = Mmu.LogHit 0 0 (Types.frame_no (Types.Pte 0 1 1))
                                 (CInt.wrap (1 + 1)) ∧
       Mmu.g_ts (Mmu.after r) = CInt.wrap (1 + 1) ∧
       Mmu.ffl (Mmu.after r) = Types.Ffl 1 0 0 0 [0] ∧
       Observe.lookup_pte (Mmu.sm1 (Mmu.after r)) 0 2 0
       = Some (Types.Pte (Types.frame_no (Types.Pte 0 1 1))
                         (Types.valid (Types.Pte 0 1 1)) (CInt.wrap (1 + 1))) ∧
       (∀ i, i ≠ Types.pte_addr 0 2 0 →
             Region.load (Mmu.sm1 (Mmu.after r)) i
             = Region.load [Types.Pte 0 1 1; Types.Pte (-1) 0 0] i).
Proof.
  apply (resolve_access_hit
           (Mmu.Engine [Types.Pte 0 1 1; Types.Pte (-1) 0 0]
                       (Types.Ffl 1 0 0 0 [0]) 1) 0 0 2 2 (Types.Pte 0 1 1));
    [lia|reflexivity|simpl; lia].
Defined.

(** X12: a fault served from the pool. A legal request of a process
    [p_ind ≥ 0] for a page below [m] whose entry has [valid ≤ 0], when
    [ffl_alloc] hands out a frame [fr ≥ 0], returns [fr] with
    [*pfh_out = 1], advances [g_ts] by one, makes the entry
    [(fr, 1, g_ts)], leaves the pool as [ffl_alloc] left it and changes no
    other entry. *)
Theorem resolve_access_fault_allocates
    (st : Mmu.engine) (p_ind page_no m m_req : Z) (e : Types.pte_t)
    (fr : Z) (pool' : Types.free_frame_list_t) :
  0 ≤ p_ind → 0 ≤ page_no < m_req → page_no < m →
  Observe.lookup_pte (Mmu.sm1 st) p_ind m page_no = Some e →
  Types.valid e ≤ 0 →
  Memory.ffl_alloc (Mmu.ffl st) = Some (fr, pool') → 0 ≤ fr →
  ∃ r, Mmu.resolve_access st p_ind page_no m m_req = Some r ∧
       Mmu.result r = fr ∧ Mmu.pfh_out r = 1 ∧
       Mmu.logged r = Mmu.LogAllocated p_ind page_no fr
                                       (CInt.wrap (Mmu.g_ts st + 1)) ∧
       Mmu.g_ts (Mmu.after r) = CInt.wrap (Mmu.g_ts st + 1) ∧
       Mmu.ffl (Mmu.after r) = pool' ∧
       Observe.lookup_pte (Mmu.sm1 (Mmu.after r)) p_ind m page_no
       = Some (Types.Pte fr 1 (CInt.wrap (Mmu.g_ts st + 1))) ∧
       (∀ i, i ≠ Types.pte_addr p_ind m page_no →
             Region.load (Mmu.sm1 (Mmu.after r)) i = Region.load (Mmu.sm1 st) i).
Proof.
  intros Hp Hlegal Hpage He Hv Halloc Hfr. unfold Mmu.resolve_access.
  rewrite legal_truthy by done. simpl.
  unfold Observe.lookup_pte in *. rewrite He. simpl.
  destruct (Z.gtb_spec (Types.valid e) 0); [lia|].
  rewrite Halloc. simpl. destruct (Z.geb_spec fr 0); [|lia].
  pose proof (load_bound _ _ _ He) as Hin.
  rewrite pt_set_mapping_done by (done || lia). simpl.
  eexists. split; [done|]. simpl. repeat split.
  - by apply load_insert_eq.
  - intros i Hi. apply load_insert_ne; [lia|done].
Qed.

Lemma resolve_access_fault_allocates_witness :
  ∃ r, Mmu.resolve_access
         (Mmu.Engine [Types.Pte (-1) 0 0; Types.Pte (-1) 0 0]
                     (Types.Ffl 1 1 0 0 [0]) 0) 0 1 2 2 = Some r ∧
       Mmu.result r = 0 ∧ Mmu.pfh_out r = 1 ∧
       Mmu.logged r = Mmu.LogAllocated 0 1 0 (CInt.wrap (0 + 1)) ∧
       Mmu.g_ts (Mmu.after r) = CInt.wrap (0 + 1) ∧
       Mmu.ffl (Mmu.after r) = Types.Ffl 1 0 0 0 [0] ∧
       Observe.lookup_pte (Mmu.sm1 (Mmu.after r)) 0 2 1
       = Some (Types.Pte 0 1 (CInt.wrap (0 + 1))) ∧
       (∀ i, i ≠ Types.pte_addr 0 2 1 →
             Region.load (Mmu.sm1 (Mmu.after r)) i
             = Region.load [Types.Pte (-1) 0 0; Types.Pte (-1) 0 0] i).
Proof.
  apply (resolve_access_fault_allocates
           (Mmu.Engine [Types.Pte (-1) 0 0; Types.Pte (-1) 0 0]
                       (Types.Ffl 1 1 0 0 [0]) 0) 0 1 2 2 (Types.Pte (-1) 0 0)
           0 (Types.Ffl 1 0 0 0 [0]));
    first [lia | reflexivity | simpl; lia].
Defined.

(** X13: a fault on a legal page at or beyond [m]. When the entry the
    lookup lands on has [valid ≤ 0] and [ffl_alloc] hands out a frame
    [fr ≥ 0], the frame is taken from the pool and returned with
    [*pfh_out = 1], but [pt_set_mapping] refuses the page number and its
    result is not looked at: no entry of SM1 changes, so the frame is
    mapped nowhere. *)
Theorem resolve_access_fault_beyond_table_maps_nothing
    (st : Mmu.engine) (p_ind page_no m m_req : Z) (e : Types.pte_t)
    (fr : Z) (pool' : Types.free_frame_list_t) :
  0 ≤ page_no < m_req → m ≤ page_no →
  Observe.lookup_pte (Mmu.sm1 st) p_ind m page_no = Some e →
  Types.valid e ≤ 0 →
  Memory.ffl_alloc (Mmu.ffl st) = Some (fr, pool') → 0 ≤ fr →
  Mmu.resolve_access st p_ind page_no m m_req
  = Some (Mmu.Resolved fr 1
            (Mmu.LogAllocated p_ind page_no fr (CInt.wrap (Mmu.g_ts st + 1)))
            (Mmu.Engine (Mmu.sm1 st) pool' (CInt.wrap (Mmu.g_ts st + 1)))).
Proof.
  intros Hlegal Hpage He Hv Halloc Hfr. unfold Mmu.resolve_access.
  rewrite legal_truthy by done. simpl.
  unfold Observe.lookup_pte in *. rewrite He. simpl.
  destruct (Z.gtb_spec (Types.valid e) 0); [lia|].
  rewrite Halloc. simpl. destruct (Z.geb_spec fr 0); [|lia].
  unfold Memory.pt_set_mapping.
  destruct (Z.geb_spec page_no m) as [_|]; [|lia].
  by rewrite !orb_true_r.
Qed.

Lemma resolve_access_fault_beyond_table_maps_nothing_witness :
  Mmu.resolve_access
    (Mmu.Engine (replicate 4 (Types.Pte (-1) 0 0)) (Types.Ffl 2 2 0 0 [0; 1]) 0)
    0 2 2 3
  = Some (Mmu.Resolved 0 1 (Mmu.LogAllocated 0 2 0 (CInt.wrap (0 + 1)))
            (Mmu.Engine (replicate 4 (Types.Pte (-1) 0 0))
                        (Types.Ffl 2 1 1 0 [0; 1]) (CInt.wrap (0 + 1)))).
Proof.
  apply (resolve_access_fault_beyond_table_maps_nothing
           (Mmu.Engine (replicate 4 (Types.Pte (-1) 0 0))
                       (Types.Ffl 2 2 0 0 [0; 1]) 0)
           0 2 2 3 (Types.Pte (-1) 0 0) 0 (Types.Ffl 2 1 1 0 [0; 1]));
    first [lia | reflexivity | simpl; lia].
Defined.

(** X14: a fault served by eviction. When [ffl_alloc] refuses
    ([count > total_frames]), the requested page of the process has
    [valid = 0] and the process has a valid page, all its valid pages
    holding frame numbers that are not negative, then the victim is the
    first least-recently-used valid page of the same process; its entry
    becomes [(-1, 0)], the requested page takes the victim's frame with the
    new [g_ts], [*pfh_out] is 1, the frame is returned, the free-frame
    list is not touched and no other entry changes. *)
Theorem resolve_access_fault_evicts
    (st : Mmu.engine) (p_ind page_no m m_req : Z) (e : Types.pte_t) :
  0 ≤ p_ind → 0 ≤ page_no < m_req → page_no < m →
  p_ind * m + m ≤ Z.of_nat (length (Mmu.sm1 st)) →
  Observe.lookup_pte (Mmu.sm1 st) p_ind m page_no = Some e →
  Types.valid e = 0 →
  Types.count (Mmu.ffl st) > Types.total_frames (Mmu.ffl st) →
  (∃ q, 0 ≤ q < m ∧ Observe.marked_valid (Mmu.sm1 st) p_ind m q) →
  (∀ q e', Observe.lookup_pte (Mmu.sm1 st) p_ind m q = Some e' →
           Types.valid e' ≠ 0 → 0 ≤ Types.frame_no e') →
  ∃ r v ve,
    Mmu.resolve_access st p_ind page_no m m_req = Some r ∧
    Observe.lru_victim (Mmu.sm1 st) p_ind m v ∧ v ≠ page_no ∧
    Observe.lookup_pte (Mmu.sm1 st) p_ind m v = Some ve ∧
    Mmu.result r = Types.frame_no ve ∧ Mmu.pfh_out r = 1 ∧
    Mmu.logged r = Mmu.LogEvicted p_ind page_no v (Types.frame_no ve)
                                  (CInt.wrap (Mmu.g_ts st + 1)) ∧
    Mmu.g_ts (Mmu.after r) = CInt.wrap (Mmu.g_ts st + 1) ∧
    Mmu.ffl (Mmu.after r) = Mmu.ffl st ∧
    Observe.lookup_pte (Mmu.sm1 (Mmu.after r)) p_ind m v
    = Some (Types.Pte (-1) 0 (Types.last_used ve)) ∧
    Observe.lookup_pte (Mmu.sm1 (Mmu.after r)) p_ind m page_no
    = Some (Types.Pte (Types.frame_no ve) 1 (CInt.wrap (Mmu.g_ts st + 1))) ∧
    (∀ i, i ≠ Types.pte_addr p_ind m v → i ≠ Types.pte_addr p_ind m page_no →
          Region.load (Mmu.sm1 (Mmu.after r)) i = Region.load (Mmu.sm1 st) i).
Proof.
  intros Hp Hlegal Hpage Htab He Hv Hfull (q & Hq & Hmq) Hframes.
  unfold Mmu.resolve_access. rewrite legal_truthy by done. simpl.
  unfold Observe.lookup_pte in He. rewrite He. simpl. rewrite Hv. simpl.
  unfold Memory.ffl_alloc.
  destruct (Z.gtb_spec (Types.count (Mmu.ffl st)) (Types.total_frames (Mmu.ffl st)));
    [|lia].
  simpl.
  destruct (choose_lru_victim_local_scanned (Mmu.sm1 st) p_ind m)
    as ([v ts] & Hrun & Hsc); [lia|lia|done|].
  unfold Observe.scanned in Hsc. simpl in *. rewrite Hrun. simpl.
  destruct Hsc as [[-> Hall] | [Hvic _]]; [by destruct (Hall q Hq)|].
  pose proof Hvic as (Hr & (ve & Hve & Hvv) & _).
  destruct (Z.ltb_spec v 0); [lia|].
  unfold Observe.lookup_pte in Hve. rewrite Hve. simpl.
  assert (v ≠ page_no) as Hne by (intros ->; congruence).
  assert (Types.pte_addr p_ind m v ≠ Types.pte_addr p_ind m page_no) as Hadr
    by (unfold Types.pte_addr; lia).
  pose proof (load_bound _ _ _ Hve) as Hinv.
  pose proof (load_bound _ _ _ He) as Hinp.
  rewrite (pt_invalidate_done _ _ _ _ ve) by (done || lia). simpl.
  rewrite pt_set_mapping_done;
    [|lia|lia|by apply (Hframes v ve)|by rewrite length_insert].
  simpl. eexists _, v, ve. split; [done|]. simpl.
  split; [done|]. split; [done|]. split; [done|].
  repeat split.
  - unfold Observe.lookup_pte.
    rewrite load_insert_ne by (lia || done). by apply load_insert_eq.
  - unfold Observe.lookup_pte. apply load_insert_eq. by rewrite length_insert.
  - intros i Hi1 Hi2. rewrite !load_insert_ne by (lia || done). done.
Qed.

Lemma resolve_access_fault_evicts_witness :
  ∃ r v ve,
    Mmu.resolve_access
      (Mmu.Engine [Types.Pte 0 1 4; Types.Pte (-1) 0 0] (Types.Ffl 1 2 0 0 [0]) 4)
      0 1 2 2 = Some r ∧
    Observe.lru_victim [Types.Pte 0 1 4; Types.Pte (-1) 0 0] 0 2 v ∧ v ≠ 1 ∧
    Observe.lookup_pte [Types.Pte 0 1 4; Types.Pte (-1) 0 0] 0 2 v = Some ve ∧
    Mmu.result r = Types.frame_no ve ∧ Mmu.pfh_out r = 1 ∧
    Mmu.logged r = Mmu.LogEvicted 0 1 v (Types.frame_no ve) (CInt.wrap (4 + 1)) ∧
    Mmu.g_ts (Mmu.after r) = CInt.wrap (4 + 1) ∧
    Mmu.ffl (Mmu.after r) = Types.Ffl 1 2 0 0 [0] ∧
    Observe.lookup_pte (Mmu.sm1 (Mmu.after r)) 0 2 v
    = Some (Types.Pte (-1) 0 (Types.last_used ve)) ∧
    Observe.lookup_pte (Mmu.sm1 (Mmu.after r)) 0 2 1
    = Some (Types.Pte (Types.frame_no ve) 1 (CInt.wrap (4 + 1))) ∧
    (∀ i, i ≠ Types.pte_addr 0 2 v → i ≠ Types.pte_addr 0 2 1 →
          Region.load (Mmu.sm1 (Mmu.after r)) i
          = Region.load [Types.Pte 0 1 4; Types.Pte (-1) 0 0] i).
Proof.
  apply (resolve_access_fault_evicts
           (Mmu.Engine [Types.Pte 0 1 4; Types.Pte (-1) 0 0]
                       (Types.Ffl 1 2 0 0 [0]) 4) 0 1 2 2 (Types.Pte (-1) 0 0));
    try first [lia | reflexivity | simpl; lia].
  - exists 0. split; [lia|]. exists (Types.Pte 0 1 4). split; [reflexivity|].
    simpl. lia.
  - intros q e' Hq Hv.
    assert (q = 0 ∨ q = 1 ∨ q < 0 ∨ 1 < q) as [->|[->|Hout]] by lia.
    + vm_compute in Hq. injection Hq as <-. simpl. lia.
    + vm_compute in Hq. injection Hq as <-. simpl in Hv. lia.
    + apply load_bound in Hq. unfold Types.pte_addr, Types.pt_base_for_pid in Hq.
      simpl in Hq. lia.
Defined.

(** X15: a fault that cannot be resolved. When [ffl_alloc] refuses
    ([count > total_frames]) and the process has no valid page, a legal
    request for a page of its table returns [MMU_PAGE_FAULT] with
    [*pfh_out = 0] and changes nothing: the clock, SM1 and the free-frame
    list are as before; the MMU replies -1 to the process and sends the
    scheduler nothing. *)
Theorem resolve_access_unresolvable
    (st : Mmu.engine) (p_ind page_no m m_req : Z) :
  0 ≤ p_ind → 0 ≤ page_no < m_req → page_no < m →
  p_ind * m + m ≤ Z.of_nat (length (Mmu.sm1 st)) →
  Types.count (Mmu.ffl st) > Types.total_frames (Mmu.ffl st) →
  (∀ q, 0 ≤ q < m → ¬ Observe.marked_valid (Mmu.sm1 st) p_ind m q) →
  Mmu.resolve_access st p_ind page_no m m_req
  = Some (Mmu.Resolved Types.MMU_PAGE_FAULT 0 (Mmu.LogNoVictim p_ind) st) ∧
  Mmu.serve_request st p_ind page_no m m_req
  = Some (Mmu.Resolved Types.MMU_PAGE_FAULT 0 (Mmu.LogNoVictim p_ind) st,
          [Mmu.send_proc_reply p_ind (-1)]).
Proof.
  intros Hp Hlegal Hpage Htab Hfull Hnone.
  assert (Hres : Mmu.resolve_access st p_ind page_no m m_req
                 = Some (Mmu.Resolved Types.MMU_PAGE_FAULT 0
                           (Mmu.LogNoVictim p_ind) st)).
  { unfold Mmu.resolve_access. rewrite legal_truthy by done. simpl.
    destruct (lookup_pte_in_table (Mmu.sm1 st) p_ind m page_no) as [e He];
      [lia..|].
    unfold Observe.lookup_pte in He. rewrite He. simpl.
    assert (Types.valid e = 0) as Hv.
    { destruct (decide (Types.valid e = 0)) as [|Hnz]; [done|].
      exfalso. apply (Hnone page_no); [lia|]. by exists e. }
    rewrite Hv. simpl. unfold Memory.ffl_alloc.
    destruct (Z.gtb_spec (Types.count (Mmu.ffl st))
                (Types.total_frames (Mmu.ffl st))); [|lia].
    simpl.
    destruct (choose_lru_victim_local_scanned (Mmu.sm1 st) p_ind m)
      as ([v ts] & Hrun & Hsc); [lia|lia|done|].
    unfold Observe.scanned in Hsc. simpl in *. rewrite Hrun. simpl.
    destruct Hsc as [[-> _] | [(Hr & Hmv & _) _]].
    - simpl. by destruct st.
    - by destruct (Hnone v Hr). }
  split; [done|]. unfold Mmu.serve_request. by rewrite Hres.
Qed.

Lemma resolve_access_unresolvable_witness :
  Mmu.resolve_access
    (Mmu.Engine [Types.Pte (-1) 0 0; Types.Pte (-1) 0 0] (Types.Ffl 1 2 0 0 [0]) 4)
    0 1 2 2
  = Some (Mmu.Resolved Types.MMU_PAGE_FAULT 0 (Mmu.LogNoVictim 0)
            (Mmu.Engine [Types.Pte (-1) 0 0; Types.Pte (-1) 0 0]
                        (Types.Ffl 1 2 0 0 [0]) 4)) ∧
  Mmu.serve_request
    (Mmu.Engine [Types.Pte (-1) 0 0; Types.Pte (-1) 0 0] (Types.Ffl 1 2 0 0 [0]) 4)
    0 1 2 2
  = Some (Mmu.Resolved Types.MMU_PAGE_FAULT 0 (Mmu.LogNoVictim 0)
            (Mmu.Engine [Types.Pte (-1) 0 0; Types.Pte (-1) 0 0]
                        (Types.Ffl 1 2 0 0 [0]) 4),
          [Mmu.send_proc_reply 0 (-1)]).
Proof.
  apply (resolve_access_unresolvable
           (Mmu.Engine [Types.Pte (-1) 0 0; Types.Pte (-1) 0 0]
                       (Types.Ffl 1 2 0 0 [0]) 4) 0 1 2 2);
    try first [lia | simpl; lia].
  intros q Hq (e & He & Hv).
  assert (q = 0 ∨ q = 1) as [-> | ->] by lia;
    vm_compute in He; injection He as <-; simpl in Hv; lia.
Defined.

(** X16: what each way out of [resolve_access] returns and changes. An
    illegal page gives [MMU_INVALID_PAGE] and no change at all; a fault
    without frame and victim gives [MMU_PAGE_FAULT], leaves SM1 and the
    clock alone; a hit, an allocation and an eviction return the frame they
    log and advance [g_ts] by exactly one, the new value being the stamp
    they log; a hit leaves the free-frame list alone and an eviction or a
    failed fault finds it refusing; an allocated frame is never negative.
    [*pfh_out] is 1 on allocation and eviction only. *)
Theorem resolve_access_exits
    (st : Mmu.engine) (p_ind page_no m m_req : Z) (r : Mmu.resolved) :
  Mmu.resolve_access st p_ind page_no m m_req = Some r →
  match Mmu.logged r with
  | Mmu.LogIllegal _ _ _ =>
      Mmu.result r = Types.MMU_INVALID_PAGE ∧ Mmu.pfh_out r = 0 ∧
      Mmu.after r = st
  | Mmu.LogHit _ _ fr ts =>
      Mmu.result r = fr ∧ Mmu.pfh_out r = 0 ∧
      ts = CInt.wrap (Mmu.g_ts st + 1) ∧ Mmu.g_ts (Mmu.after r) = ts ∧
      Mmu.ffl (Mmu.after r) = Mmu.ffl st
  | Mmu.LogAllocated _ _ fr ts =>
      Mmu.result r = fr ∧ 0 ≤ fr ∧ Mmu.pfh_out r = 1 ∧
      ts = CInt.wrap (Mmu.g_ts st + 1) ∧ Mmu.g_ts (Mmu.after r) = ts ∧
      Memory.ffl_alloc (Mmu.ffl st) = Some (fr, Mmu.ffl (Mmu.after r))
  | Mmu.LogNoVictim _ =>
      Mmu.result r = Types.MMU_PAGE_FAULT ∧ Mmu.pfh_out r = 0 ∧
      Mmu.sm1 (Mmu.after r) = Mmu.sm1 st ∧
      Mmu.g_ts (Mmu.after r) = Mmu.g_ts st ∧
      ∃ fr, fr < 0 ∧
            Memory.ffl_alloc (Mmu.ffl st) = Some (fr, Mmu.ffl (Mmu.after r))
  | Mmu.LogEvicted _ _ v fr ts =>
      Mmu.result r = fr ∧ Mmu.pfh_out r = 1 ∧ 0 ≤ v ∧
      ts = CInt.wrap (Mmu.g_ts st + 1) ∧ Mmu.g_ts (Mmu.after r) = ts ∧
      ∃ fr', fr' < 0 ∧
             Memory.ffl_alloc (Mmu.ffl st) = Some (fr', Mmu.ffl (Mmu.after r))
  end.
Proof.
  unfold Mmu.resolve_access. intros H.
  destruct (CInt.truthy (Memory.is_legal_page page_no m_req)); simpl in H.
  2:{ by injection H as <-. }
  destruct (Region.load (Mmu.sm1 st) _) as [pte|]; [simpl in H|done].
  destruct (Types.valid pte >? 0).
  { destruct (Region.store _ _ _); [simpl in H|done]. by injection H as <-. }
  destruct (Memory.ffl_alloc (Mmu.ffl st)) as [[fr pool']|]; [simpl in H|done].
  destruct (Z.geb_spec fr 0).
  { destruct (Memory.pt_set_mapping _ _ _ _ _ _) as [[rc t]|]; [simpl in H|done].
    injection H as <-. simpl. repeat split; lia || done. }
  destruct (Memory.choose_lru_victim_local _ _ _) as [v|]; [simpl in H|done].
  destruct (Z.ltb_spec v 0).
  { injection H as <-. simpl. repeat split; try done. by exists fr. }
  destruct (Region.load (Mmu.sm1 st) _) as [vpte|]; [simpl in H|done].
  destruct (Memory.pt_invalidate _ _ _ _) as [[rc t]|]; [simpl in H|done].
  destruct (Memory.pt_set_mapping _ _ _ _ _ _) as [[rc' t']|]; [simpl in H|done].
  injection H as <-. simpl. repeat split; try done. by exists fr.
Qed.

Lemma resolve_access_exits_witness :
  Mmu.result (Mmu.Resolved 0 1 (Mmu.LogAllocated 0 1 0 1)
                (Mmu.Engine [Types.Pte (-1) 0 0; Types.Pte 0 1 1]
                            (Types.Ffl 1 0 0 0 [0]) 1)) = 0 ∧
  0 ≤ 0 ∧
  Mmu.pfh_out (Mmu.Resolved 0 1 (Mmu.LogAllocated 0 1 0 1)
                 (Mmu.Engine [Types.Pte (-1) 0 0; Types.Pte 0 1 1]
                             (Types.Ffl 1 0 0 0 [0]) 1)) = 1 ∧
  1 = CInt.wrap (0 + 1) ∧
  Mmu.g_ts (Mmu.Engine [Types.Pte (-1) 0 0; Types.Pte 0 1 1]
                       (Types.Ffl 1 0 0 0 [0]) 1) = 1 ∧
  Memory.ffl_alloc (Types.Ffl 1 1 0 0 [0]) = Some (0, Types.Ffl 1 0 0 0 [0]).
Proof.
  exact (resolve_access_exits
           (Mmu.Engine [Types.Pte (-1) 0 0; Types.Pte (-1) 0 0]
                       (Types.Ffl 1 1 0 0 [0]) 0) 0 1 2 2
           (Mmu.Resolved 0 1 (Mmu.LogAllocated 0 1 0 1)
              (Mmu.Engine [Types.Pte (-1) 0 0; Types.Pte 0 1 1]
                          (Types.Ffl 1 0 0 0 [0]) 1)) eq_refl).
Defined.

(** X17: a request for a page below [m] writes only inside the table of
    the process that made it: after [resolve_access] for [p_ind], every
    entry of every other process is as it was, whichever way out was
    taken. *)
Theorem resolve_access_keeps_other_tables
    (st : Mmu.engine) (p_ind page_no m m_req : Z) (r : Mmu.resolved) :
  page_no < m →
  Mmu.resolve_access st p_ind page_no m m_req = Some r →
  ∀ q p, q ≠ p_ind → 0 ≤ p < m →
         Observe.lookup_pte (Mmu.sm1 (Mmu.after r)) q m p
         = Observe.lookup_pte (Mmu.sm1 st) q m p.
Proof.
  intros Hpage Hres q p Hq Hp. unfold Observe.lookup_pte.
  apply (resolve_access_frame st p_ind page_no m m_req r _ Hpage Hres).
  unfold Types.pte_addr, Types.pt_base_for_pid. nia.
Qed.

Lemma resolve_access_keeps_other_tables_witness :
  Observe.lookup_pte
    (Mmu.sm1 (Mmu.after
       (Mmu.Resolved 0 1 (Mmu.LogAllocated 0 1 0 1)
          (Mmu.Engine [Types.Pte (-1) 0 0; Types.Pte 0 1 1;
                       Types.Pte 5 1 0; Types.Pte (-1) 0 0]
                      (Types.Ffl 1 0 0 0 [0]) 1)))) 1 2 0
  = Observe.lookup_pte
      [Types.Pte (-1) 0 0; Types.Pte (-1) 0 0;
       Types.Pte 5 1 0; Types.Pte (-1) 0 0] 1 2 0.
Proof.
  apply (resolve_access_keeps_other_tables
           (Mmu.Engine [Types.Pte (-1) 0 0; Types.Pte (-1) 0 0;
                        Types.Pte 5 1 0; Types.Pte (-1) 0 0]
                       (Types.Ffl 1 1 0 0 [0]) 0) 0 1 2 2 _
           ltac:(lia) eq_refl 1 0); lia.
Defined.

(** ** Runs of the engine *)

Section Runs.
Import CInt Region Types Ipc Memory Mmu Observe.
Implicit Types (st : engine) (k m f c p_ind page_no m_req : Z)
  (inbox : list recv_result).

Lemma sent_on_app q (out out' : list (queue * ipc_msg_t)) :
  sent_on q (out ++ out') = sent_on q out ++ sent_on q out'.
Proof. unfold sent_on. by rewrite list.filter_app, fmap_app. Qed.

Lemma serve_request_out st p_ind page_no m m_req r out :
  serve_request st p_ind page_no m m_req = Some (r, out) →
  resolve_access st p_ind page_no m m_req = Some r ∧
  sent_on MQ_PROC out = [Msg MSGTYPE_MMU_REPLY p_ind (result r) 0 0] ∧
  flag_clear_notes out = [].
Proof.
  unfold serve_request. intros H.
  destruct (resolve_access st p_ind page_no m m_req) as [r'|] eqn:Hr; [|done].
  simpl in H. injection H as <- <-. split; [done|].
  apply resolve_access_pfh in Hr. rewrite Hr.
  by destruct (fault_handled (logged r')).
Qed.

Lemma emit_emit (out out' : list (queue * ipc_msg_t)) (r : run) :
  emit out (emit out' r) = emit (out ++ out') r.
Proof. unfold emit. simpl. by rewrite app_assoc. Qed.

Lemma emit_nil (r : run) : emit [] r = r.
Proof. by destruct r. Qed.

(** One in-table legal request on a state in good order. *)
Lemma resolve_access_in_range k m f st p_ind page_no m_req :
  well_formed k m f st → frames_in_range f st →
  INT_MIN < count (ffl st) ≤ f →
  0 ≤ p_ind < k → 0 ≤ page_no < m → page_no < m_req →
  ∃ r, resolve_access st p_ind page_no m m_req = Some r ∧
       0 ≤ result r < f ∧
       well_formed k m f (after r) ∧ frames_in_range f (after r) ∧
       count (ffl st) - 1 ≤ count (ffl (after r)) ≤ f.
Proof.
  intros Hwf [Hring Hres] Hcount Hp Hpage Hreq.
  destruct (resolve_access_total k m f st p_ind page_no m_req Hwf)
    as (r & Hr & Hwf'); [lia..|].
  exists r. split; [done|]. split; [|split; [done|]]; revert Hr;
    destruct Hwf as [Hk Hm Hf Hsm1 Htot Hfr Hhd];
    unfold resolve_access; rewrite legal_truthy by lia; simpl;
    (destruct (load (sm1 st) (pte_addr p_ind m page_no)) as [pte|] eqn:Hpte;
       [simpl|done]);
    pose proof (load_bound _ _ _ Hpte) as Hin;
    apply load_Some in Hpte as [_ Hpte];
    pose proof (Forall_lookup_1 _ _ _ _ Hres Hpte) as Hpte_ok; simpl in Hpte_ok.
  - destruct (Z.gtb_spec (valid pte) 0).
    { rewrite store_in_range by done. simpl. intros [= <-]. simpl. lia. }
    unfold ffl_alloc. rewrite Htot.
    destruct (Z.gtb_spec (count (ffl st)) f); [lia|].
    destruct (load (frames (ffl st)) (head (ffl st))) as [idx|] eqn:Hidx;
      [simpl|done].
    apply load_Some in Hidx as [_ Hidx].
    pose proof (Forall_lookup_1 _ _ _ _ Hring Hidx) as Hidx_ok. simpl in Hidx_ok.
    destruct (c_mod _ f); [simpl|done].
    destruct (Z.geb_spec idx 0); [|lia].
    destruct (pt_set_mapping _ _ _ _ _ _) as [[rc t]|]; [simpl|done].
    intros [= <-]. simpl. lia.
  - destruct (Z.gtb_spec (valid pte) 0).
    { rewrite store_in_range by done. simpl. intros [= <-]. simpl.
      split; [split; [done|]|lia].
      apply Forall_insert; [done|]. simpl. intros _. lia. }
    unfold ffl_alloc. rewrite Htot.
    destruct (Z.gtb_spec (count (ffl st)) f); [lia|].
    destruct (load (frames (ffl st)) (head (ffl st))) as [idx|] eqn:Hidx;
      [simpl|done].
    apply load_Some in Hidx as [_ Hidx].
    pose proof (Forall_lookup_1 _ _ _ _ Hring Hidx) as Hidx_ok. simpl in Hidx_ok.
    destruct (c_mod _ f); [simpl|done].
    destruct (Z.geb_spec idx 0); [|lia].
    rewrite pt_set_mapping_done by lia. simpl.
    intros [= <-]. simpl.
    rewrite (wrap_in_range (count (ffl st) - 1))
      by (unfold INT_MIN, INT_MAX in *; lia).
    split; [split; [done|]|lia].
    apply Forall_insert; [done|]. simpl. intros _. lia.
Qed.

Lemma mmu_loop_in_table k m f inbox : ∀ st c,
  well_formed k m f st → frames_in_range f st →
  count (ffl st) ≤ f → INT_MIN + Z.of_nat (length inbox) < count (ffl st) →
  Forall (in_table_request k m) inbox →
  let r := mmu_loop k m st c inbox in
  status r = Blocked ∧ unread r = [] ∧ completed r = c ∧
  ints0 <$> sent_on MQ_PROC (sent r) = requesters inbox ∧
  Forall (λ reply, mtype reply = MSGTYPE_MMU_REPLY ∧ 0 ≤ ints1 reply < f)
         (sent_on MQ_PROC (sent r)) ∧
  flag_clear_notes (sent r) = [] ∧
  well_formed k m f (final r) ∧ frames_in_range f (final r) ∧
  count (ffl st) - Z.of_nat (length inbox) ≤ count (ffl (final r)) ≤ f.
Proof.
  induction inbox as [|x inbox IH]; intros st c Hwf Hfr Hle Hmin Hall; simpl.
  - split; [done|]. split; [done|]. split; [done|]. split; [done|].
    split; [constructor|]. split; [done|]. split; [done|]. split; [done|]. lia.
  - apply list.Forall_cons in Hall as [Hx Hall].
    destruct x as [| |req]; simpl in Hx; [done|done|].
    destruct Hx as (Hp & Hpage & Hreq).
    destruct (Z.eqb_spec (ints1 req) MMU_END_OF_REF) as [Hend|_].
    { unfold MMU_END_OF_REF in Hend. lia. }
    destruct (resolve_access_in_range k m f st (ints0 req) (ints1 req) (ints2 req))
      as (r & Hr & Hres & Hwf' & Hfr' & Hc'); try done.
    { simpl in Hmin. lia. }
    assert (Hserve : ∃ out, serve_request st (ints0 req) (ints1 req) m (ints2 req)
                            = Some (r, out)).
    { unfold serve_request. rewrite Hr. simpl. by eexists. }
    destruct Hserve as (out & Hserve). rewrite Hserve.
    destruct (serve_request_out _ _ _ _ _ _ _ Hserve) as (_ & Hreply & Hclear).
    destruct (IH (after r) c) as (Hs & Hu & Hcm & Hids & Hrep & Hfl & Hwf2 & Hfr2 & Hc2);
      try done; [lia|simpl in Hmin; lia|].
    simpl. split; [done|]. split; [done|]. split; [done|].
    rewrite sent_on_app, Hreply. split; [by rewrite fmap_app, Hids|].
    split.
    { apply Forall_app. split; [|done]. constructor; [|constructor].
      simpl. split; [done|lia]. }
    split.
    { unfold flag_clear_notes in *. rewrite sent_on_app, list.filter_app.
      by rewrite Hclear, Hfl. }
    split; [done|]. split; [done|]. simpl in Hmin. lia.
Qed.

Lemma mmu_loop_app k m inbox : ∀ st c post,
  status (mmu_loop k m st c inbox) = Blocked →
  mmu_loop k m st c (inbox ++ post)
  = emit (sent (mmu_loop k m st c inbox))
      (mmu_loop k m (final (mmu_loop k m st c inbox))
         (completed (mmu_loop k m st c inbox)) post).
Proof.
  induction inbox as [|x inbox IH]; intros st c post Hs; simpl.
  - by rewrite emit_nil.
  - destruct x as [| |req]; simpl in *.
    + by apply IH.
    + done.
    + destruct (ints1 req =? MMU_END_OF_REF).
      * destruct (wrap (c + 1) >=? k); [done|].
        simpl in *. rewrite IH by done. by rewrite emit_emit.
      * destruct (serve_request _ _ _ _ _) as [[r out]|]; [|done].
        simpl in *. rewrite IH by done. by rewrite emit_emit.
Qed.

Lemma mmu_loop_flag_clear k m inbox : k ≤ INT_MAX → ∀ st c,
  0 ≤ c < k →
  Z.of_nat (length (flag_clear_notes (sent (mmu_loop k m st c inbox))))
  = completed (mmu_loop k m st c inbox) - c.
Proof.
  intros Hk. induction inbox as [|x inbox IH]; intros st c Hc; simpl.
  - lia.
  - destruct x as [| |req]; simpl.
    + by apply IH.
    + lia.
    + destruct (ints1 req =? MMU_END_OF_REF).
      * rewrite (wrap_in_range (c + 1)) by (unfold INT_MIN, INT_MAX in *; lia).
        destruct (Z.geb_spec (c + 1) k).
        -- simpl. unfold flag_clear_notes, sent_on. simpl. lia.
        -- unfold emit. cbn [sent completed]. unfold flag_clear_notes in *.
           rewrite sent_on_app, list.filter_app, length_app.
           rewrite Nat2Z.inj_add, IH by lia. unfold sent_on. simpl. lia.
      * destruct (serve_request _ _ _ _ _) as [[r out]|] eqn:Hserve.
        -- unfold emit. cbn [sent completed].
           destruct (serve_request_out _ _ _ _ _ _ _ Hserve) as (_ & _ & Hcl).
           unfold flag_clear_notes in *.
           rewrite sent_on_app, list.filter_app, length_app, Hcl. simpl.
           by apply IH.
        -- simpl. lia.
Qed.

End Runs.

(** X18: on a state in good order (regions of the right sizes, every
    ring slot and every resident entry holding a frame number below [f],
    [count ≤ f]), a sequence of requests that are legal and address pages
    of the tables of processes of the run is served to its end without a
    stop: each request gets one reply, in order and addressed to its
    process, every reply carries a frame number in [0, f) (never
    [MMU_INVALID_PAGE] or [MMU_PAGE_FAULT]), no notification with a clear
    flag is sent, and the state stays in good order. The sequence must be
    short enough for [count] not to wrap around. *)
Theorem mmu_run_answers_with_frames
    (k m f : Z) (st : Mmu.engine) (inbox : list Ipc.recv_result) :
  Observe.well_formed k m f st → Observe.frames_in_range f st →
  Types.count (Mmu.ffl st) ≤ f →
  CInt.INT_MIN + Z.of_nat (length inbox) < Types.count (Mmu.ffl st) →
  Forall (Observe.in_table_request k m) inbox →
  Mmu.status (Mmu.mmu_run k m st inbox) = Mmu.Blocked ∧
  Mmu.unread (Mmu.mmu_run k m st inbox) = [] ∧
  Ipc.ints0 <$> Observe.sent_on Ipc.MQ_PROC (Mmu.sent (Mmu.mmu_run k m st inbox))
  = Observe.requesters inbox ∧
  Forall (λ reply, Ipc.mtype reply = Ipc.MSGTYPE_MMU_REPLY ∧
                   0 ≤ Ipc.ints1 reply < f)
         (Observe.sent_on Ipc.MQ_PROC (Mmu.sent (Mmu.mmu_run k m st inbox))) ∧
  Observe.flag_clear_notes (Mmu.sent (Mmu.mmu_run k m st inbox)) = [] ∧
  Observe.well_formed k m f (Mmu.final (Mmu.mmu_run k m st inbox)) ∧
  Observe.frames_in_range f (Mmu.final (Mmu.mmu_run k m st inbox)).
Proof.
  intros Hwf Hfr Hle Hmin Hall.
  destruct (mmu_loop_in_table k m f inbox st 0 Hwf Hfr Hle Hmin Hall)
    as (Hs & Hu & _ & Hids & Hrep & Hcl & Hwf' & Hfr' & _).
  unfold Mmu.mmu_run. do 6 (split; [done|]). done.
Qed.

Lemma mmu_run_answers_with_frames_witness :
  Mmu.status
    (Mmu.mmu_run 1 2 (Mmu.Engine [Types.Pte (-1) 0 0; Types.Pte (-1) 0 0]
                                 (Types.Ffl 1 1 0 0 [0]) 0)
       [Ipc.RecvMsg (Process.access_request 0 1 2);
        Ipc.RecvMsg (Process.access_request 0 0 2)]) = Mmu.Blocked ∧
  Forall (λ reply, Ipc.mtype reply = Ipc.MSGTYPE_MMU_REPLY ∧
                   0 ≤ Ipc.ints1 reply < 1)
         (Observe.sent_on Ipc.MQ_PROC
            (Mmu.sent
               (Mmu.mmu_run 1 2
                  (Mmu.Engine [Types.Pte (-1) 0 0; Types.Pte (-1) 0 0]
                              (Types.Ffl 1 1 0 0 [0]) 0)
                  [Ipc.RecvMsg (Process.access_request 0 1 2);
                   Ipc.RecvMsg (Process.access_request 0 0 2)]))).
Proof.
  destruct (mmu_run_answers_with_frames 1 2 1
              (Mmu.Engine [Types.Pte (-1) 0 0; Types.Pte (-1) 0 0]
                          (Types.Ffl 1 1 0 0 [0]) 0)
              [Ipc.RecvMsg (Process.access_request 0 1 2);
               Ipc.RecvMsg (Process.access_request 0 0 2)])
    as (Hs & _ & _ & Hrep & _).
  - constructor; simpl; unfold CInt.INT_MAX; lia.
  - split; simpl.
    + constructor; [lia|constructor].
    + repeat (constructor; [simpl; lia|]). constructor.
  - simpl. lia.
  - simpl. unfold CInt.INT_MIN. lia.
  - repeat (constructor; [simpl; lia|]). constructor.
  - split; assumption.
Defined.

(** X19: the MMU sends the scheduler a notification with a clear flag
    for end markers only: in any run with [1 ≤ k], the number of such
    notifications sent equals [procs_cmpltd], which never exceeds [k] and
    is [k] when the loop has been left after the end markers. *)
Theorem mmu_run_flag_clear_notes
    (k m : Z) (st : Mmu.engine) (inbox : list Ipc.recv_result) :
  1 ≤ k ≤ CInt.INT_MAX →
  Z.of_nat (length (Observe.flag_clear_notes
                      (Mmu.sent (Mmu.mmu_run k m st inbox))))
  = Mmu.completed (Mmu.mmu_run k m st inbox) ∧
  Mmu.completed (Mmu.mmu_run k m st inbox) ≤ k ∧
  (Mmu.status (Mmu.mmu_run k m st inbox) = Mmu.Exited →
   Mmu.completed (Mmu.mmu_run k m st inbox) = k).
Proof.
  intros Hk. unfold Mmu.mmu_run.
  pose proof (mmu_loop_flag_clear k m inbox ltac:(lia) st 0 ltac:(lia)) as Hn.
  pose proof (mmu_loop_outcome k m inbox ltac:(lia) st 0 ltac:(lia)) as Hout.
  unfold Observe.loop_outcome in Hout.
  split; [lia|].
  destruct (Mmu.status (Mmu.mmu_loop k m st 0 inbox)).
  - destruct Hout as (pre & req & _ & _ & _ & Hc & _). split; [lia|done].
  - destruct Hout as (pre & _ & _ & Hc & _). split; [lia|done].
  - destruct Hout as (pre & req & _ & _ & _ & Hc & _). split; [lia|done].
  - destruct Hout as (_ & _ & Hc & _). split; [lia|done].
Qed.

Lemma mmu_run_flag_clear_notes_witness :
  Z.of_nat (length (Observe.flag_clear_notes
                      (Mmu.sent
                         (Mmu.mmu_run 2 2
                            (Mmu.Engine [Types.Pte (-1) 0 0; Types.Pte (-1) 0 0]
                                        (Types.Ffl 1 1 0 0 [0]) 0)
                            [Ipc.RecvMsg (Process.access_request 0 1 2);
                             Ipc.RecvMsg (Process.end_request 77)]))))
  = Mmu.completed
      (Mmu.mmu_run 2 2
         (Mmu.Engine [Types.Pte (-1) 0 0; Types.Pte (-1) 0 0]
                     (Types.Ffl 1 1 0 0 [0]) 0)
         [Ipc.RecvMsg (Process.access_request 0 1 2);
          Ipc.RecvMsg (Process.end_request 77)]).
Proof.
  apply (mmu_run_flag_clear_notes 2 2). unfold CInt.INT_MAX. lia.
Defined.



(** ** The scheduler loop *)

Section Admission.
Import CInt Types Ipc Sched Observe.
Implicit Types (ready : list ready_event) (notes : list recv_result)
  (num_procs c : Z).

Lemma scheduler_loop_unfold num_procs c x ready notes :
  c < num_procs →
  scheduler_loop num_procs c (x :: ready) notes
  = match x with
    | ReadyIntr => scheduler_loop num_procs c ready notes
    | ReadyFail => SchedRun ReadyFailed c [] []
    | ReadyReg reg kill_ok =>
        let pid := ints0 reg in
        if negb kill_ok then
          record None [LogPicked pid] (scheduler_loop num_procs c ready notes)
        else
          match wait_notes pid notes with
          | (WaitFinished, l, notes') =>
              record (Some pid) (LogPicked pid :: l)
                (scheduler_loop num_procs (wrap (c + 1)) ready notes')
          | (WaitRecvFailed, l, notes') =>
              record (Some pid) (LogPicked pid :: l)
                (scheduler_loop num_procs c ready notes')
          | (WaitBlocked, l, _) =>
              SchedRun Waiting c [pid] (LogPicked pid :: l)
          end
    end.
Proof.
  intros Hc. simpl. destruct (Z.ltb_spec c num_procs); [done|lia].
Qed.

Lemma scheduler_loop_done num_procs c ready notes :
  num_procs ≤ c →
  scheduler_loop num_procs c ready notes = SchedRun AllFinished c [] [].
Proof.
  intros Hc. destruct ready; simpl; destruct (Z.ltb_spec c num_procs); done || lia.
Qed.

Lemma scheduler_loop_fifo ready : ∀ num_procs c notes,
  resumed (scheduler_loop num_procs c ready notes) `prefix_of` registered ready.
Proof.
  induction ready as [|x ready IH]; intros num_procs c notes.
  - simpl. destruct (c <? num_procs); apply prefix_nil.
  - destruct (Z.lt_ge_cases c num_procs) as [Hc|Hc].
    2:{ rewrite scheduler_loop_done by done. apply prefix_nil. }
    rewrite scheduler_loop_unfold by done.
    destruct x as [| |reg [|]]; simpl.
    + apply IH.
    + apply prefix_nil.
    + destruct (wait_notes (ints0 reg) notes) as [[[| |] l] notes']; simpl.
      * apply prefix_cons, IH.
      * apply prefix_cons, IH.
      * apply prefix_cons, prefix_nil.
    + apply IH.
Qed.

Lemma scheduler_loop_count num_procs ready : num_procs ≤ INT_MAX → ∀ c notes,
  0 ≤ c →
  c ≤ finished_count (scheduler_loop num_procs c ready notes) ∧
  (c ≤ num_procs →
   finished_count (scheduler_loop num_procs c ready notes) ≤ num_procs) ∧
  (sched_state (scheduler_loop num_procs c ready notes) = AllFinished ↔
   num_procs ≤ finished_count (scheduler_loop num_procs c ready notes)) ∧
  finished_count (scheduler_loop num_procs c ready notes) - c
  ≤ Z.of_nat (length (resumed (scheduler_loop num_procs c ready notes))).
Proof.
  intros Hn. induction ready as [|x ready IH]; intros c notes Hc0.
  - simpl. destruct (Z.ltb_spec c num_procs); simpl;
      (split; [lia|]); (split; [lia|]); (split; [|lia]); split; (done || lia).
  - destruct (Z.lt_ge_cases c num_procs) as [Hc|Hc].
    2:{ rewrite scheduler_loop_done by done. simpl.
        split; [lia|]. split; [lia|]. split; [|lia]. split; (done || lia). }
    rewrite scheduler_loop_unfold by done.
    destruct x as [| |reg [|]]; simpl.
    + by apply IH.
    + split; [lia|]. split; [lia|]. split; [|lia]. split; (done || lia).
    + destruct (wait_notes (ints0 reg) notes) as [[[| |] l] notes']; simpl.
      * rewrite (wrap_in_range (c + 1)) by (unfold INT_MIN, INT_MAX in *; lia).
        destruct (IH (c + 1) notes') as (H1 & H2 & H3 & H4); [lia|].
        split; [lia|]. split; [intros _; apply H2; lia|]. split; [done|]. lia.
      * destruct (IH c notes') as (H1 & H2 & H3 & H4); [lia|].
        split; [lia|]. split; [done|]. split; [done|]. lia.
      * split; [lia|]. split; [lia|]. split; [|lia]. split; (done || lia).
    + by apply IH.
Qed.

End Admission.

(** X21: admission is first come, first served. The processes the
    scheduler has sent [SIGCONT] are, in this order, the first processes
    of the ready queue whose registration was read and whose [kill] went
    through: none is skipped and none is resumed twice or out of turn. *)
Theorem scheduler_run_admits_in_order
    (num_procs : Z) (ready : list Sched.ready_event)
    (notes : list Ipc.recv_result) :
  Sched.resumed (Sched.scheduler_run num_procs ready notes)
  `prefix_of` Observe.registered ready.
Proof.
  unfold Sched.scheduler_run. apply scheduler_loop_fifo.
Qed.

(** X22: the count of finished processes. For [0 ≤ num_procs],
    [finished_count] stays within [0, num_procs]; the scheduler has left
    its loop with all processes finished exactly when the count is
    [num_procs]; and it never counts more finished processes than it has
    resumed. *)
Theorem scheduler_run_finished_count
    (num_procs : Z) (ready : list Sched.ready_event)
    (notes : list Ipc.recv_result) :
  0 ≤ num_procs ≤ CInt.INT_MAX →
  0 ≤ Sched.finished_count (Sched.scheduler_run num_procs ready notes)
    ≤ num_procs ∧
  (Sched.sched_state (Sched.scheduler_run num_procs ready notes)
   = Sched.AllFinished ↔
   Sched.finished_count (Sched.scheduler_run num_procs ready notes) = num_procs) ∧
  Sched.finished_count (Sched.scheduler_run num_procs ready notes)
  ≤ Z.of_nat (length (Sched.resumed (Sched.scheduler_run num_procs ready notes))).
Proof.
  intros Hn. unfold Sched.scheduler_run.
  destruct (scheduler_loop_count num_procs ready ltac:(lia) 0 notes ltac:(lia))
    as (H1 & H2 & H3 & H4).
  split; [lia|]. split; [|lia]. rewrite H3. lia.
Qed.

Lemma scheduler_run_finished_count_witness :
  0 ≤ Sched.finished_count
        (Sched.scheduler_run 2
           [Sched.ReadyReg (Ipc.Msg 1 100 0 0 0) true;
            Sched.ReadyReg (Ipc.Msg 1 200 0 0 0) true]
           [Ipc.RecvMsg (Ipc.Msg 3 0 1 0 0); Ipc.RecvMsg (Ipc.Msg 3 100 0 0 0)])
    ≤ 2 ∧
  (Sched.sched_state
     (Sched.scheduler_run 2
        [Sched.ReadyReg (Ipc.Msg 1 100 0 0 0) true;
         Sched.ReadyReg (Ipc.Msg 1 200 0 0 0) true]
        [Ipc.RecvMsg (Ipc.Msg 3 0 1 0 0); Ipc.RecvMsg (Ipc.Msg 3 100 0 0 0)])
   = Sched.AllFinished ↔
   Sched.finished_count
     (Sched.scheduler_run 2
        [Sched.ReadyReg (Ipc.Msg 1 100 0 0 0) true;
         Sched.ReadyReg (Ipc.Msg 1 200 0 0 0) true]
        [Ipc.RecvMsg (Ipc.Msg 3 0 1 0 0); Ipc.RecvMsg (Ipc.Msg 3 100 0 0 0)])
   = 2) ∧
  Sched.finished_count
    (Sched.scheduler_run 2
       [Sched.ReadyReg (Ipc.Msg 1 100 0 0 0) true;
        Sched.ReadyReg (Ipc.Msg 1 200 0 0 0) true]
       [Ipc.RecvMsg (Ipc.Msg 3 0 1 0 0); Ipc.RecvMsg (Ipc.Msg 3 100 0 0 0)])
  ≤ Z.of_nat
      (length
         (Sched.resumed
            (Sched.scheduler_run 2
               [Sched.ReadyReg (Ipc.Msg 1 100 0 0 0) true;
                Sched.ReadyReg (Ipc.Msg 1 200 0 0 0) true]
               [Ipc.RecvMsg (Ipc.Msg 3 0 1 0 0);
                Ipc.RecvMsg (Ipc.Msg 3 100 0 0 0)]))).
Proof.
  apply (scheduler_run_finished_count 2). unfold CInt.INT_MAX. lia.
Defined.

(** ** The workload *)

Section Workload.
Import CInt Region Types Ipc Process Observe.
Implicit Types (p_ind pid len : Z) (todo seen ref_str : list Z)
  (replies pre rest : list recv_result).

Lemma load_middle (seen todo : list Z) x :
  load (seen ++ x :: todo) (Z.of_nat (length seen)) = Some x.
Proof.
  apply load_Some. split; [lia|]. rewrite Nat2Z.id. apply list_lookup_middle. done.
Qed.

Lemma request_loop_step n (seen todo : list Z) x len p_ind pid reply replies :
  ints1 reply ≠ MMU_INVALID_PAGE →
  request_loop (S n) (Z.of_nat (length seen)) len (seen ++ x :: todo) p_ind pid
    (RecvMsg reply :: replies)
  = '(s, out) ← request_loop n (Z.of_nat (length (seen ++ [x]))) len
                  ((seen ++ [x]) ++ todo) p_ind pid replies;
    Some (s, request_for p_ind len x :: out).
Proof.
  intros Hok. simpl. rewrite load_middle. simpl.
  rewrite <- (app_assoc seen [x] todo). simpl.
  replace (Z.of_nat (length (seen ++ [x]))) with (Z.of_nat (length seen) + 1)
    by (rewrite length_app; simpl; lia).
  destruct (ints1 reply >=? 0); [done|].
  destruct (Z.eqb_spec (ints1 reply) MMU_INVALID_PAGE); done.
Qed.

Lemma request_loop_all len p_ind pid todo : ∀ seen replies,
  Forall reply_goes_on (take (length todo) replies) →
  (length todo ≤ length replies)%nat →
  request_loop (length todo) (Z.of_nat (length seen)) len (seen ++ todo)
    p_ind pid replies
  = Some (ProcDone,
          (request_for p_ind len <$> todo) ++ [(MQ_PROC, end_request pid)]).
Proof.
  induction todo as [|x todo IH]; intros seen replies Hok Hlen; [done|].
  destruct replies as [|r replies]; [simpl in Hlen; lia|].
  simpl in Hok. apply list.Forall_cons in Hok as [Hr Hok].
  destruct r as [| |reply]; simpl in Hr; [done|done|].
  change (length (x :: todo)) with (S (length todo)).
  rewrite request_loop_step by done.
  rewrite IH by (done || (simpl in Hlen; lia)). done.
Qed.

Lemma request_loop_invalid len p_ind pid inv rest pre : ∀ todo seen,
  Forall reply_goes_on pre → (length pre < length todo)%nat →
  ints1 inv = MMU_INVALID_PAGE →
  request_loop (length todo) (Z.of_nat (length seen)) len (seen ++ todo)
    p_ind pid (pre ++ RecvMsg inv :: rest)
  = Some (ProcInvalid, request_for p_ind len <$> take (S (length pre)) todo).
Proof.
  induction pre as [|r pre IH]; intros todo seen Hok Hlen Hinv;
    (destruct todo as [|x todo]; [simpl in Hlen; lia|]).
  - simpl. rewrite load_middle. simpl. rewrite Hinv. simpl.
    by destruct todo.
  - apply list.Forall_cons in Hok as [Hr Hok].
    destruct r as [| |reply]; simpl in Hr; [done|done|].
    change (length (x :: todo)) with (S (length todo)).
    change ((RecvMsg reply :: pre) ++ RecvMsg inv :: rest)
      with (RecvMsg reply :: (pre ++ RecvMsg inv :: rest)).
    rewrite request_loop_step by done.
    rewrite IH by (done || (simpl in Hlen; lia)). done.
Qed.

Lemma request_loop_recv_failed len p_ind pid bad rest pre : ∀ todo seen,
  Forall reply_goes_on pre → (length pre < length todo)%nat →
  bad = RecvIntr ∨ bad = RecvFail →
  request_loop (length todo) (Z.of_nat (length seen)) len (seen ++ todo)
    p_ind pid (pre ++ bad :: rest)
  = Some (ProcDone,
          (request_for p_ind len <$> take (S (length pre)) todo)
          ++ [(MQ_PROC, end_request pid)]).
Proof.
  induction pre as [|r pre IH]; intros todo seen Hok Hlen Hbad;
    (destruct todo as [|x todo]; [simpl in Hlen; lia|]).
  - simpl. rewrite load_middle. simpl.
    by destruct Hbad as [-> | ->], todo.
  - apply list.Forall_cons in Hok as [Hr Hok].
    destruct r as [| |reply]; simpl in Hr; [done|done|].
    change (length (x :: todo)) with (S (length todo)).
    change ((RecvMsg reply :: pre) ++ bad :: rest)
      with (RecvMsg reply :: (pre ++ bad :: rest)).
    rewrite request_loop_step by done.
    rewrite IH by (done || (simpl in Hlen; lia)). done.
Qed.

Lemma requests_fmap p_ind pid ref_str :
  pair MQ_PROC <$> requests p_ind pid ref_str
  = (request_for p_ind (Z.of_nat (length ref_str)) <$> ref_str)
    ++ [(MQ_PROC, end_request pid)].
Proof.
  unfold requests. rewrite fmap_app. f_equal.
  generalize (Z.of_nat (length ref_str)). intros len.
  induction ref_str as [|x l IH]; [done|]. simpl. f_equal. exact IH.
Qed.

End Workload.

(** X23: how [process_run] ends once it is resumed. (a) If the replies
    to all its references are messages other than [MMU_INVALID_PAGE], it
    sends its registration, one request per reference in order, each with
    its index [p_ind] and the length of the reference string as the bound,
    and then the end marker with its pid. (b) At the first reply
    [MMU_INVALID_PAGE] it stops at once: the requests up to that reference
    were sent and no end marker follows. (c) At the first receive that
    fails, interrupted or not, it leaves the loop and still sends the end
    marker. *)
Theorem process_run_outcome (ref_str : list Z) (p_ind pid : Z) :
  (∀ replies,
      Forall Observe.reply_goes_on (take (length ref_str) replies) →
      (length ref_str ≤ length replies)%nat →
      Process.process_run (Z.of_nat (length ref_str)) ref_str p_ind pid
        true true replies
      = Some (Process.ProcDone,
              Observe.registration pid
              :: (pair Ipc.MQ_PROC <$> Process.requests p_ind pid ref_str)))
  ∧ (∀ pre inv rest,
        Forall Observe.reply_goes_on pre →
        (length pre < length ref_str)%nat →
        Ipc.ints1 inv = Types.MMU_INVALID_PAGE →
        Process.process_run (Z.of_nat (length ref_str)) ref_str p_ind pid
          true true (pre ++ Ipc.RecvMsg inv :: rest)
        = Some (Process.ProcInvalid,
                Observe.registration pid
                :: (Observe.request_for p_ind (Z.of_nat (length ref_str))
                    <$> take (S (length pre)) ref_str)))
  ∧ (∀ pre bad rest,
        Forall Observe.reply_goes_on pre →
        (length pre < length ref_str)%nat →
        bad = Ipc.RecvIntr ∨ bad = Ipc.RecvFail →
        Process.process_run (Z.of_nat (length ref_str)) ref_str p_ind pid
          true true (pre ++ bad :: rest)
        = Some (Process.ProcDone,
                Observe.registration pid
                :: (Observe.request_for p_ind (Z.of_nat (length ref_str))
                    <$> take (S (length pre)) ref_str)
                ++ [(Ipc.MQ_PROC, Process.end_request pid)])).
Proof.
  unfold Process.process_run. simpl. rewrite Nat2Z.id.
  split; [|split].
  - intros replies Hok Hlen.
    rewrite (request_loop_all _ p_ind pid ref_str [] replies Hok Hlen). simpl.
    by rewrite requests_fmap.
  - intros pre inv rest Hok Hlen Hinv.
    by rewrite (request_loop_invalid _ p_ind pid inv rest pre ref_str []
                  Hok Hlen Hinv).
  - intros pre bad rest Hok Hlen Hbad.
    by rewrite (request_loop_recv_failed _ p_ind pid bad rest pre ref_str []
                  Hok Hlen Hbad).
Qed.

Lemma process_run_outcome_witness :
  Process.process_run (Z.of_nat (length [0; 5; 1])) [0; 5; 1] 0 4242 true true
    ([Ipc.RecvMsg (Ipc.Msg 2 0 0 0 0)]
     ++ Ipc.RecvMsg (Ipc.Msg 2 0 (-2) 0 0) :: [])
  = Some (Process.ProcInvalid,
          Observe.registration 4242
          :: (Observe.request_for 0 (Z.of_nat (length [0; 5; 1]))
              <$> take (S (length [Ipc.RecvMsg (Ipc.Msg 2 0 0 0 0)])) [0; 5; 1])).
Proof.
  apply (proj1 (proj2 (process_run_outcome [0; 5; 1] 0 4242))).
  - constructor; [simpl; unfold Types.MMU_INVALID_PAGE; lia|constructor].
  - simpl. lia.
  - reflexivity.
Defined.

(** ** A workload against the engine *)

Section ClosedLoop.
Import CInt Region Types Ipc Memory Mmu Process Observe.
Implicit Types (st : engine) (k m f p_ind pid len : Z) (pages : list Z).

Lemma inbox_of_requests p_ind pid ref_str :
  RecvMsg <$> requests p_ind pid ref_str
  = ((λ page, RecvMsg (access_request p_ind page (Z.of_nat (length ref_str))))
     <$> ref_str) ++ [RecvMsg (end_request pid)].
Proof.
  unfold requests. rewrite fmap_app. f_equal.
  generalize (Z.of_nat (length ref_str)). intros len.
  induction ref_str as [|x l IH]; [done|]. simpl. f_equal. exact IH.
Qed.

Lemma requesters_length p_ind len pages :
  length (requesters ((λ page, RecvMsg (access_request p_ind page len)) <$> pages))
  = length pages.
Proof. induction pages as [|x l IH]; [done|]. simpl. f_equal. exact IH. Qed.

Lemma filter_nil_Forall {A} (P : A → Prop) `{∀ x, Decision (P x)} (l : list A) :
  filter P l = [] → Forall (λ x, ¬ P x) l.
Proof.
  induction l as [|x l IH]; [constructor|].
  rewrite filter_cons. destruct (decide (P x)); [done|].
  intros Hl. constructor; [done|by apply IH].
Qed.

Lemma served_requests k m f st p_ind len pages :
  well_formed k m f st → frames_in_range f st →
  count (ffl st) ≤ f →
  INT_MIN + Z.of_nat (length pages) < count (ffl st) →
  0 ≤ p_ind < k →
  Forall (λ page, 0 ≤ page < m ∧ page < len) pages →
  let r := mmu_loop k m st 0
             ((λ page, RecvMsg (access_request p_ind page len)) <$> pages) in
  status r = Blocked ∧ completed r = 0 ∧
  length (sent_on MQ_PROC (sent r)) = length pages ∧
  Forall (λ reply, 0 ≤ ints1 reply < f) (sent_on MQ_PROC (sent r)) ∧
  flag_clear_notes (sent r) = [].
Proof.
  intros Hwf Hfr Hle Hmin Hp Hpages.
  destruct (mmu_loop_in_table k m f
              ((λ page, RecvMsg (access_request p_ind page len)) <$> pages) st 0)
    as (Hs & _ & Hc & Hids & Hrep & Hcl & _); try done.
  { by rewrite length_fmap. }
  { apply Forall_fmap. eapply list.Forall_impl; [exact Hpages|].
    intros page (Hm & Hl). simpl. lia. }
  simpl. split; [done|]. split; [done|]. split.
  { rewrite <- (requesters_length p_ind len pages), <- Hids.
    by rewrite length_fmap. }
  split; [|done]. eapply list.Forall_impl; [exact Hrep|]. by intros reply [_ ?].
Qed.

End ClosedLoop.

(** X24: a workload served to its end. On a state in good order, when
    every reference of a process is a page below [m] and below the length
    of its reference string, the MMU answers the requests [process_run]
    sends with one frame number in [0, f) each and the end marker with
    [MMU_END_OF_REF]; it counts one finished process, leaves its loop if
    [k = 1], and sends the scheduler one notification with a clear flag,
    carrying the pid of the end marker. Fed with these replies,
    [process_run] sends exactly those requests and ends after the end
    marker; the reply to the end marker comes after the replies to its
    references. *)
Theorem workload_served_to_completion
    (k m f : Z) (st : Mmu.engine) (ref_str : list Z) (p_ind pid : Z) :
  1 ≤ k ≤ CInt.INT_MAX →
  Observe.well_formed k m f st → Observe.frames_in_range f st →
  Types.count (Mmu.ffl st) ≤ f →
  CInt.INT_MIN + Z.of_nat (length ref_str) < Types.count (Mmu.ffl st) →
  0 ≤ p_ind < k →
  Forall (λ page, 0 ≤ page < m ∧ page < Z.of_nat (length ref_str)) ref_str →
  ∃ r frames,
    r = Mmu.mmu_run k m st (Ipc.RecvMsg <$> Process.requests p_ind pid ref_str) ∧
    Observe.sent_on Ipc.MQ_PROC (Mmu.sent r)
    = frames ++ [Ipc.Msg Ipc.MSGTYPE_MMU_REPLY pid Types.MMU_END_OF_REF 0 0] ∧
    length frames = length ref_str ∧
    Forall (λ reply, 0 ≤ Ipc.ints1 reply < f) frames ∧
    Mmu.completed r = 1 ∧
    Mmu.status r = (if k =? 1 then Mmu.Exited else Mmu.Blocked) ∧
    Observe.flag_clear_notes (Mmu.sent r)
    = [Ipc.Msg Ipc.MSGTYPE_SCHED_NOTIFY pid 0 0 0] ∧
    Process.process_run (Z.of_nat (length ref_str)) ref_str p_ind pid true true
      (Ipc.RecvMsg <$> Observe.sent_on Ipc.MQ_PROC (Mmu.sent r))
    = Some (Process.ProcDone,
            Observe.registration pid
            :: (pair Ipc.MQ_PROC <$> Process.requests p_ind pid ref_str)).
Proof.
  intros Hk Hwf Hfr Hle Hmin Hp Hpages.
  destruct (served_requests k m f st p_ind (Z.of_nat (length ref_str)) ref_str)
    as (Hs & Hc & Hlen & Hrep & Hcl); try done.
  eexists _, _. split; [reflexivity|].
  unfold Mmu.mmu_run. rewrite inbox_of_requests, mmu_loop_app by done.
  rewrite Hc. cbn [Mmu.mmu_loop Process.end_request Ipc.ints1 Ipc.ints0].
  change (Types.MMU_END_OF_REF =? Types.MMU_END_OF_REF) with true. cbn iota.
  change (CInt.wrap (0 + 1)) with 1.
  assert (Hfinal :
    ∀ out r0, Mmu.sent r0 = [Mmu.send_proc_reply pid Types.MMU_END_OF_REF;
                              Mmu.notify_scheduler pid 0] →
      Observe.sent_on Ipc.MQ_PROC (Mmu.sent (Mmu.emit out r0))
      = Observe.sent_on Ipc.MQ_PROC out
        ++ [Ipc.Msg Ipc.MSGTYPE_MMU_REPLY pid Types.MMU_END_OF_REF 0 0] ∧
      (Observe.flag_clear_notes out = [] →
       Observe.flag_clear_notes (Mmu.sent (Mmu.emit out r0))
       = [Ipc.Msg Ipc.MSGTYPE_SCHED_NOTIFY pid 0 0 0])).
  { intros out r0 Hr0. unfold Mmu.emit. cbn [Mmu.sent]. rewrite Hr0.
    split; [by rewrite sent_on_app|].
    intros Hout. unfold Observe.flag_clear_notes in *.
    by rewrite sent_on_app, list.filter_app, Hout. }
  match goal with
  | |- context [Mmu.emit ?out ?r0] =>
      destruct (Hfinal out r0) as (Hproc & Hnote);
        [by destruct (Z.geb_spec 1 k)|]
  end.
  rewrite Hproc, (Hnote Hcl).
  split; [reflexivity|]. split; [done|]. split; [done|].
  split; [by destruct (1 >=? k)|]. split.
  { destruct (Z.geb_spec 1 k), (Z.eqb_spec k 1); simpl; done || lia. }
  split; [done|].
  unfold Process.process_run. simpl. rewrite Nat2Z.id.
  rewrite (request_loop_all _ p_ind pid ref_str []).
  - simpl. by rewrite requests_fmap.
  - rewrite fmap_app, take_app_length' by (by rewrite length_fmap).
    apply Forall_fmap. eapply list.Forall_impl; [exact Hrep|].
    intros reply Hr. simpl in Hr.
    unfold compose, Observe.reply_goes_on, Types.MMU_INVALID_PAGE. lia.
  - rewrite length_fmap, length_app, Hlen. lia.
Qed.

Lemma workload_served_to_completion_witness :
  ∃ r frames,
    r = Mmu.mmu_run 1 2
          (Mmu.Engine [Types.Pte (-1) 0 0; Types.Pte (-1) 0 0]
                      (Types.Ffl 1 1 0 0 [0]) 0)
          (Ipc.RecvMsg <$> Process.requests 0 4242 [1; 0]) ∧
    Observe.sent_on Ipc.MQ_PROC (Mmu.sent r)
    = frames ++ [Ipc.Msg Ipc.MSGTYPE_MMU_REPLY 4242 Types.MMU_END_OF_REF 0 0] ∧
    length frames = length [1; 0] ∧
    Forall (λ reply, 0 ≤ Ipc.ints1 reply < 1) frames ∧
    Mmu.completed r = 1 ∧
    Mmu.status r = (if 1 =? 1 then Mmu.Exited else Mmu.Blocked) ∧
    Observe.flag_clear_notes (Mmu.sent r)
    = [Ipc.Msg Ipc.MSGTYPE_SCHED_NOTIFY 4242 0 0 0] ∧
    Process.process_run (Z.of_nat (length [1; 0])) [1; 0] 0 4242 true true
      (Ipc.RecvMsg <$> Observe.sent_on Ipc.MQ_PROC (Mmu.sent r))
    = Some (Process.ProcDone,
            Observe.registration 4242
            :: (pair Ipc.MQ_PROC <$> Process.requests 0 4242 [1; 0])).
Proof.
  apply (workload_served_to_completion 1 2 1).
  - unfold CInt.INT_MAX. lia.
  - constructor; simpl; unfold CInt.INT_MAX; lia.
  - split; simpl.
    + constructor; [lia|constructor].
    + repeat (constructor; [simpl; lia|]). constructor.
  - simpl. lia.
  - simpl. unfold CInt.INT_MIN. lia.
  - lia.
  - repeat (constructor; [simpl; lia|]). constructor.
Defined.

(** X25: an illegal reference stalls the run. On a state in good order,
    when the references of a process are legal pages of its table up to a
    first reference [bad] that is negative or at or above the length of
    the reference string (and is not the end-marker value), the MMU
    answers the requests before it with frames and [bad] with
    [MMU_INVALID_PAGE]; [process_run] then returns without sending the end
    marker. The MMU has counted no finished process and waits for the next
    request, it has sent no notification with a clear flag, and the
    scheduler, reading the notifications sent, is still waiting for the
    process to finish. *)
Theorem illegal_reference_stalls_the_run
    (k m f : Z) (st : Mmu.engine) (p_ind pid : Z)
    (good : list Z) (bad : Z) (rest : list Z) :
  1 ≤ k ≤ CInt.INT_MAX →
  Observe.well_formed k m f st → Observe.frames_in_range f st →
  Types.count (Mmu.ffl st) ≤ f →
  CInt.INT_MIN + Z.of_nat (length good) < Types.count (Mmu.ffl st) →
  0 ≤ p_ind < k →
  Forall (λ page, 0 ≤ page < m
                  ∧ page < Z.of_nat (length (good ++ bad :: rest))) good →
  bad < 0 ∨ Z.of_nat (length (good ++ bad :: rest)) ≤ bad →
  bad ≠ Types.MMU_END_OF_REF →
  ∃ r,
    r = Mmu.mmu_run k m st
          ((λ page, Ipc.RecvMsg
                      (Process.access_request p_ind page
                         (Z.of_nat (length (good ++ bad :: rest)))))
           <$> (good ++ [bad])) ∧
    Process.process_run (Z.of_nat (length (good ++ bad :: rest)))
      (good ++ bad :: rest) p_ind pid true true
      (Ipc.RecvMsg <$> Observe.sent_on Ipc.MQ_PROC (Mmu.sent r))
    = Some (Process.ProcInvalid,
            Observe.registration pid
            :: (Observe.request_for p_ind (Z.of_nat (length (good ++ bad :: rest)))
                <$> (good ++ [bad]))) ∧
    Mmu.status r = Mmu.Blocked ∧ Mmu.completed r = 0 ∧
    Observe.flag_clear_notes (Mmu.sent r) = [] ∧
    (Sched.wait_notes pid
       (Ipc.RecvMsg <$> Observe.sent_on Ipc.MQ_SCHED (Mmu.sent r))).1.1
    = Sched.WaitBlocked.
Proof.
  intros Hk Hwf Hfr Hle Hmin Hp Hgood Hbad Hnend.
  set (len := Z.of_nat (length (good ++ bad :: rest))) in *.
  destruct (served_requests k m f st p_ind len good)
    as (Hs & Hc & Hlen & Hrep & Hcl); try done.
  eexists. split; [reflexivity|].
  unfold Mmu.mmu_run. rewrite fmap_app, mmu_loop_app by done.
  rewrite Hc. cbn [fmap list_fmap Mmu.mmu_loop Process.access_request
                   Ipc.ints0 Ipc.ints1 Ipc.ints2].
  destruct (Z.eqb_spec bad Types.MMU_END_OF_REF) as [|_]; [done|].
  unfold Mmu.serve_request, Mmu.resolve_access.
  apply is_legal_page_false in Hbad. rewrite Hbad.
  cbn [CInt.truthy Z.eqb negb mbind option_bind Mmu.result Mmu.pfh_out Mmu.after
       Mmu.emit Mmu.sent Mmu.status Mmu.completed Mmu.final Mmu.unread app].
  assert (Hproc :
    Observe.sent_on Ipc.MQ_PROC
      (Mmu.sent (Mmu.mmu_loop k m st 0
         ((λ page, Ipc.RecvMsg (Process.access_request p_ind page len)) <$> good))
       ++ [Mmu.send_proc_reply p_ind Types.MMU_INVALID_PAGE])
    = Observe.sent_on Ipc.MQ_PROC
        (Mmu.sent (Mmu.mmu_loop k m st 0
           ((λ page, Ipc.RecvMsg (Process.access_request p_ind page len)) <$> good)))
      ++ [Ipc.Msg Ipc.MSGTYPE_MMU_REPLY p_ind Types.MMU_INVALID_PAGE 0 0])
    by (by rewrite sent_on_app).
  assert (Hnotes :
    Observe.flag_clear_notes
      (Mmu.sent (Mmu.mmu_loop k m st 0
         ((λ page, Ipc.RecvMsg (Process.access_request p_ind page len)) <$> good))
       ++ [Mmu.send_proc_reply p_ind Types.MMU_INVALID_PAGE]) = []).
  { unfold Observe.flag_clear_notes in *.
    by rewrite sent_on_app, list.filter_app, Hcl. }
  rewrite Hproc, Hnotes. split; [|split; [done|split; [done|split; [done|]]]].
  - unfold Process.process_run. simpl.
    replace (Z.to_nat len) with (length (good ++ bad :: rest))
      by (unfold len; lia).
    rewrite fmap_app. simpl.
    rewrite (request_loop_invalid _ p_ind pid _ [] _ (good ++ bad :: rest) []).
    + simpl. rewrite length_fmap, Hlen. do 3 f_equal.
      rewrite (cons_middle bad good rest), app_assoc.
      by rewrite take_app_length' by (rewrite length_app; simpl; lia).
    + apply Forall_fmap. eapply list.Forall_impl; [exact Hrep|].
      intros reply Hr. simpl in Hr.
      unfold compose, Observe.reply_goes_on, Types.MMU_INVALID_PAGE. lia.
    + rewrite length_fmap, Hlen, length_app. simpl. lia.
    + done.
  - apply wait_notes_all_passed_over. apply Forall_fmap.
    unfold Observe.flag_clear_notes in Hnotes.
    apply filter_nil_Forall in Hnotes.
    eapply list.Forall_impl; [exact Hnotes|]. by intros note Hn.
Qed.

Lemma illegal_reference_stalls_the_run_witness :
  ∃ r,
    r = Mmu.mmu_run 1 4
          (Mmu.Engine (replicate 4 (Types.Pte (-1) 0 0)) (Types.Ffl 1 1 0 0 [0]) 0)
          ((λ page, Ipc.RecvMsg
                      (Process.access_request 0 page
                         (Z.of_nat (length ([0] ++ 3 :: [1])))))
           <$> ([0] ++ [3])) ∧
    Process.process_run (Z.of_nat (length ([0] ++ 3 :: [1])))
      ([0] ++ 3 :: [1]) 0 4242 true true
      (Ipc.RecvMsg <$> Observe.sent_on Ipc.MQ_PROC (Mmu.sent r))
    = Some (Process.ProcInvalid,
            Observe.registration 4242
            :: (Observe.request_for 0 (Z.of_nat (length ([0] ++ 3 :: [1])))
                <$> ([0] ++ [3]))) ∧
    Mmu.status r = Mmu.Blocked ∧ Mmu.completed r = 0 ∧
    Observe.flag_clear_notes (Mmu.sent r) = [] ∧
    (Sched.wait_notes 4242
       (Ipc.RecvMsg <$> Observe.sent_on Ipc.MQ_SCHED (Mmu.sent r))).1.1
    = Sched.WaitBlocked.
Proof.
  apply (illegal_reference_stalls_the_run 1 4 1).
  - unfold CInt.INT_MAX. lia.
  - constructor; simpl; unfold CInt.INT_MAX; lia.
  - split; simpl.
    + constructor; [lia|constructor].
    + repeat (constructor; [simpl; lia|]). constructor.
  - simpl. lia.
  - simpl. unfold CInt.INT_MIN. lia.
  - lia.
  - repeat (constructor; [simpl; lia|]). constructor.
  - right. simpl. lia.
  - unfold Types.MMU_END_OF_REF. lia.
Defined.

(** ** What [master_run] hands to the engine *)

(** X26: every reference [master_run] draws, [rand() % pgs_per_proc] with
    [rand() ≥ 0], is a page of the table, in [0, pgs_per_proc). The request
    [process_run] builds from it is legal exactly when the reference is
    below the length of the reference string, which is the bound it sends:
    with [pgs_per_proc ≤ ref_len] every request is a legal request for a
    page of the table, while with [ref_len < pgs_per_proc] the page
    [ref_len] can be drawn and is refused as illegal. *)
Theorem master_references_are_pages :
  (∀ r pgs_per_proc,
      0 ≤ r → 0 < pgs_per_proc →
      ∃ page, Master.gen_ref r pgs_per_proc = Some page ∧
              0 ≤ page < pgs_per_proc ∧
              (∀ ref_len, Memory.is_legal_page page ref_len = 1 ↔ page < ref_len) ∧
              (∀ k p_ind ref_len,
                  0 ≤ p_ind < k → pgs_per_proc ≤ ref_len →
                  Observe.in_table_request k pgs_per_proc
                    (Ipc.RecvMsg (Process.access_request p_ind page ref_len))))
  ∧ (∀ pgs_per_proc ref_len,
        0 ≤ ref_len < pgs_per_proc →
        Master.gen_ref ref_len pgs_per_proc = Some ref_len ∧
        Memory.is_legal_page ref_len ref_len = 0).
Proof.
  split.
  - intros r pgs Hr Hpgs. unfold Master.gen_ref.
    rewrite c_mod_mod by lia. eexists. split; [done|].
    pose proof (Z.mod_pos_bound r pgs Hpgs) as Hb.
    split; [done|]. split.
    + intros ref_len. rewrite is_legal_page_true. lia.
    + intros k p_ind ref_len Hp Hlen. simpl. lia.
  - intros pgs ref_len Hlen. unfold Master.gen_ref.
    rewrite c_mod_mod, Z.mod_small by lia. split; [done|].
    apply is_legal_page_false. lia.
Qed.

Lemma master_references_are_pages_witness :
  ∃ page, Master.gen_ref 1804289383 4 = Some page ∧
          0 ≤ page < 4 ∧
          (∀ ref_len, Memory.is_legal_page page ref_len = 1 ↔ page < ref_len) ∧
          (∀ k p_ind ref_len,
              0 ≤ p_ind < k → 4 ≤ ref_len →
              Observe.in_table_request k 4
                (Ipc.RecvMsg (Process.access_request p_ind page ref_len))).
Proof.
  apply (proj1 master_references_are_pages 1804289383 4); lia.
Defined.

(** X27: the state [master_run] builds is one the engine can serve from.
    For [k, m, f > 0] that fit an [int], it has regions of the right
    sizes, a ring holding [0 .. f-1], no resident page, [count = 0] and
    [g_ts = 0]; and any sequence of at most [INT_MAX] legal requests for
    pages of the tables is served from it to the end, each request
    answered with a frame number in [0, f). *)
Theorem simulation_start_serves_requests (k m f : Z) :
  0 < k → 0 < m → k * m ≤ CInt.INT_MAX → 0 < f ≤ CInt.INT_MAX →
  ∃ st0,
    Master.simulation_start k m f = Some st0 ∧
    Observe.well_formed k m f st0 ∧ Observe.frames_in_range f st0 ∧
    Forall (λ e, Types.valid e = -1) (Mmu.sm1 st0) ∧
    Types.count (Mmu.ffl st0) = 0 ∧ Mmu.g_ts st0 = 0 ∧
    ∀ inbox,
      Forall (Observe.in_table_request k m) inbox →
      Z.of_nat (length inbox) ≤ CInt.INT_MAX →
      Mmu.status (Mmu.mmu_run k m st0 inbox) = Mmu.Blocked ∧
      length (Observe.sent_on Ipc.MQ_PROC (Mmu.sent (Mmu.mmu_run k m st0 inbox)))
      = length inbox ∧
      Forall (λ reply, 0 ≤ Ipc.ints1 reply < f)
             (Observe.sent_on Ipc.MQ_PROC (Mmu.sent (Mmu.mmu_run k m st0 inbox))).
Proof.
  intros Hk Hm Hkm Hf. unfold Master.simulation_start.
  rewrite master_init_result; try done; try lia.
  2:{ unfold Master.fresh_sm1. rewrite length_replicate. nia. }
  2:{ simpl. rewrite length_replicate. lia. }
  simpl. eexists. split; [done|].
  assert (Hwf : Observe.well_formed k m f
            (Mmu.Engine (replicate (Z.to_nat (k * m)) (Types.Pte (-1) (-1) (-1)))
                        (Types.Ffl f 0 0 0 (seqZ 0 f)) 0)).
  { constructor; simpl; try done; try lia.
    - rewrite length_replicate. nia.
    - rewrite length_seqZ. lia. }
  assert (Hfr : Observe.frames_in_range f
            (Mmu.Engine (replicate (Z.to_nat (k * m)) (Types.Pte (-1) (-1) (-1)))
                        (Types.Ffl f 0 0 0 (seqZ 0 f)) 0)).
  { split; simpl.
    - apply Forall_seqZ. intros x Hx. lia.
    - apply Forall_replicate. simpl. lia. }
  split; [done|]. split; [done|].
  split; [by apply Forall_replicate|]. split; [done|]. split; [done|].
  intros inbox Hall Hlen.
  destruct (mmu_loop_in_table k m f inbox _ 0 Hwf Hfr)
    as (Hs & _ & _ & Hids & Hrep & _); simpl; try done; try lia.
  { unfold CInt.INT_MIN, CInt.INT_MAX in *. lia. }
  unfold Mmu.mmu_run. split; [done|]. split.
  - apply (f_equal length) in Hids. rewrite length_fmap in Hids. rewrite Hids.
    clear -Hall. induction Hall as [|x l Hx _ IH]; [done|].
    destruct x; simpl in *; try done. by rewrite IH.
  - eapply list.Forall_impl; [exact Hrep|]. by intros reply [_ ?].
Qed.

Lemma simulation_start_serves_requests_witness :
  ∃ st0,
    Master.simulation_start 2 4 3 = Some st0 ∧
    Observe.well_formed 2 4 3 st0 ∧ Observe.frames_in_range 3 st0 ∧
    Forall (λ e, Types.valid e = -1) (Mmu.sm1 st0) ∧
    Types.count (Mmu.ffl st0) = 0 ∧ Mmu.g_ts st0 = 0 ∧
    ∀ inbox,
      Forall (Observe.in_table_request 2 4) inbox →
      Z.of_nat (length inbox) ≤ CInt.INT_MAX →
      Mmu.status (Mmu.mmu_run 2 4 st0 inbox) = Mmu.Blocked ∧
      length (Observe.sent_on Ipc.MQ_PROC (Mmu.sent (Mmu.mmu_run 2 4 st0 inbox)))
      = length inbox ∧
      Forall (λ reply, 0 ≤ Ipc.ints1 reply < 3)
             (Observe.sent_on Ipc.MQ_PROC (Mmu.sent (Mmu.mmu_run 2 4 st0 inbox))).
Proof.
  apply (simulation_start_serves_requests 2 4 3); unfold CInt.INT_MAX; lia.
Defined.

(** ** The queues of the simulator *)

(** X28: [ipc_create_vm_mqs] is all or nothing. It returns 0 exactly
    when the three [msgget] calls succeed, and then stores the three ids in
    [mqids] and asks for no removal. Otherwise it returns -1, leaves
    [mqids] as it was and asks the kernel to remove every queue it had
    obtained, in the order it obtained them, and no other; it makes at
    most five calls. *)
Theorem ipc_create_vm_mqs_all_or_nothing
    (IPC_CREAT k1 k2 k3 : Z) (mqids : Z * Z * Z) (perms : Z) (get rm : Z → Z) :
  ∃ rc mqids' calls,
    Ipc.ipc_create_vm_mqs IPC_CREAT k1 k2 k3 mqids perms get rm
    = (rc, mqids', calls) ∧
    (rc = 0 ↔ get k1 ≠ -1 ∧ get k2 ≠ -1 ∧ get k3 ≠ -1) ∧
    (rc = 0 →
     mqids' = (get k1, get k2, get k3) ∧
     Observe.obtained calls = [get k1; get k2; get k3] ∧
     Observe.removal_requests calls = []) ∧
    (rc ≠ 0 →
     rc = -1 ∧ mqids' = mqids ∧
     Observe.removal_requests calls = Observe.obtained calls ∧
     (length calls ≤ 5)%nat).
Proof.
  unfold Ipc.ipc_create_vm_mqs, Ipc.ipc_create_mq, Ipc.ipc_remove_mq.
  destruct (Z.eqb_spec (get k1) (-1)) as [H1|H1]; simpl.
  { eexists _, _, _. split; [done|]. simpl. rewrite H1. simpl.
    split; [split; [done|tauto]|]. split; [done|]. intros _. repeat split; lia. }
  destruct (Z.eqb_spec (get k1) (-1)) as [|_]; [done|].
  destruct (Z.eqb_spec (get k2) (-1)) as [H2|H2]; simpl.
  { eexists _, _, _. split; [done|]. simpl. rewrite H2. simpl.
    destruct (Z.eqb_spec (get k1) (-1)) as [|_]; [done|].
    split; [split; [done|tauto]|]. split; [done|]. intros _. repeat split; lia. }
  destruct (Z.eqb_spec (get k2) (-1)) as [|_]; [done|].
  destruct (Z.eqb_spec (get k3) (-1)) as [H3|H3]; simpl.
  { eexists _, _, _. split; [done|]. simpl. rewrite H3. simpl.
    destruct (Z.eqb_spec (get k1) (-1)) as [|_]; [done|].
    destruct (Z.eqb_spec (get k2) (-1)) as [|_]; [done|].
    split; [split; [done|tauto]|]. split; [done|]. intros _. repeat split; lia. }
  destruct (Z.eqb_spec (get k3) (-1)) as [|_]; [done|].
  eexists _, _, _. split; [done|]. simpl.
  destruct (Z.eqb_spec (get k1) (-1)) as [|_]; [done|].
  destruct (Z.eqb_spec (get k2) (-1)) as [|_]; [done|].
  destruct (Z.eqb_spec (get k3) (-1)) as [|_]; [done|].
  split; [done|]. split; [done|]. done.
Qed.

(** ** Eviction is out of reach while [count ≤ total_frames] *)

Lemma resolve_access_never_evicts_witness :
  (∀ a b c d e,
      Mmu.logged (Mmu.Resolved 0 1 (Mmu.LogAllocated 0 1 0 2)
                    (Mmu.Engine [Types.Pte 0 1 1; Types.Pte 0 1 2]
                                (Types.Ffl 1 (-1) 0 0 [0]) 2))
      ≠ Mmu.LogEvicted a b c d e) ∧
  (∀ a, Mmu.logged (Mmu.Resolved 0 1 (Mmu.LogAllocated 0 1 0 2)
                      (Mmu.Engine [Types.Pte 0 1 1; Types.Pte 0 1 2]
                                  (Types.Ffl 1 (-1) 0 0 [0]) 2))
        ≠ Mmu.LogNoVictim a) ∧
  Forall (λ x, 0 ≤ x)
    (Types.frames (Mmu.ffl (Mmu.after
       (Mmu.Resolved 0 1 (Mmu.LogAllocated 0 1 0 2)
          (Mmu.Engine [Types.Pte 0 1 1; Types.Pte 0 1 2]
                      (Types.Ffl 1 (-1) 0 0 [0]) 2))))) ∧
  Types.count (Mmu.ffl (Mmu.after
     (Mmu.Resolved 0 1 (Mmu.LogAllocated 0 1 0 2)
        (Mmu.Engine [Types.Pte 0 1 1; Types.Pte 0 1 2]
                    (Types.Ffl 1 (-1) 0 0 [0]) 2)))) ≤ 1.
Proof.
  apply (resolve_access_never_evicts 1 2 1
           (Mmu.Engine [Types.Pte 0 1 1; Types.Pte (-1) 0 0]
                       (Types.Ffl 1 0 0 0 [0]) 1) 0 1 2).
  - constructor; simpl; unfold CInt.INT_MAX; lia.
  - simpl. constructor; [lia|constructor].
  - simpl. unfold CInt.INT_MIN. lia.
  - reflexivity.
Defined.
